(** * TaxService: the tax computation engine of the freelancer tax application

    Shallow embedding of [server/services/taxService.ts] and of the
    computations of [server/routes.ts] that call it.

    A TypeScript [number] is an IEEE 754 binary64 value.  It is modelled by
    [spec_float] at precision 53 and maximal exponent 1024, with the
    arithmetic of the Standard Library's [SpecFloat] (round to nearest, ties
    to even), so that every function below evaluates to the very double the
    program computes.  [Math.max], [Math.min], [Math.abs] and [Math.round]
    follow ECMAScript.  The wall clock read by [new Date()] is an explicit
    parameter. *)

From Stdlib Require Import ZArith Bool List String Ascii Lia Reals Lra.
From Stdlib Require Import Floats.SpecFloat.
Import ListNotations.

Local Open Scope Z_scope.

(** ** Numbers *)

Module Num.

Definition prec : Z := 53.
Definition emax : Z := 1024.

Definition number := spec_float.

Definition pos_zero : number := S754_zero false.
Definition neg_zero : number := S754_zero true.
Definition Infinity : number := S754_infinity false.
Definition NaN : number := S754_nan.

(** The Number value of an integer literal. *)
Definition of_Z (z : Z) : number := binary_normalize prec emax z 0 false.

Definition mul : number -> number -> number := SFmul prec emax.
Definition add : number -> number -> number := SFadd prec emax.
Definition sub : number -> number -> number := SFsub prec emax.
Definition div : number -> number -> number := SFdiv prec emax.

(** The Number value of the decimal literal [n/d]: the double nearest to the
    quotient, which is what the correctly rounded division returns. *)
Definition decimal (n d : Z) : number := div (of_Z n) (of_Z d).

(** A double is a [spec_float] in canonical form: mantissa and exponent in
    the binary64 ranges, one representation per value. *)
Definition is_number (x : number) : Prop := valid_binary prec emax x = true.

(** [Number.isFinite]: a double that is neither NaN nor an infinity. *)
Definition is_finite (x : number) : bool :=
  match x with
  | S754_zero _ => true
  | S754_finite _ m e => bounded prec emax m e
  | _ => false
  end.

(** [x <= y], [x < y], [x > y]: false as soon as one side is NaN. *)
Definition leb (x y : number) : bool := SFleb x y.
Definition ltb (x y : number) : bool := SFltb x y.
Definition gtb (x y : number) : bool := SFltb y x.

Definition is_nan (x : number) : bool :=
  match x with S754_nan => true | _ => false end.

(** [Math.abs]. *)
Definition abs (x : number) : number := SFabs x.

(** [Math.max] of two arguments: NaN if either is NaN, and +0 is larger
    than -0. *)
Definition max (x y : number) : number :=
  match SFcompare x y with
  | None => NaN
  | Some Lt => y
  | Some Gt => x
  | Some Eq =>
      match x, y with
      | S754_zero sx, S754_zero sy => S754_zero (andb sx sy)
      | _, _ => x
      end
  end.

(** [Math.min] of two arguments: NaN if either is NaN, and -0 is smaller
    than +0. *)
Definition min (x y : number) : number :=
  match SFcompare x y with
  | None => NaN
  | Some Lt => x
  | Some Gt => y
  | Some Eq =>
      match x, y with
      | S754_zero sx, S754_zero sy => S754_zero (orb sx sy)
      | _, _ => x
      end
  end.

(** [Math.round]: the integer nearest to [x], the larger one on a tie;
    NaN, the infinities and the zeros are returned as they are, and a
    negative [x] that rounds to zero gives -0.  For [x = (-1)^s * m * 2^e]
    with [e < 0] the integer is [floor (x + 1/2)], computed exactly. *)
Definition round (x : number) : number :=
  match x with
  | S754_finite s m e =>
      if 0 <=? e then x
      else
        let sm := if s then Z.neg m else Z.pos m in
        let n := (2 * sm + 2 ^ (- e)) / 2 ^ (1 - e) in
        binary_normalize prec emax n 0 s
  | _ => x
  end.

End Num.

Import Num.

(** ** Dates and strings *)

Module Js.

(** What the service reads of a [Date]: the calendar year and the 0-based
    month. *)
Record Date := { getFullYear : Z; getMonth : Z }.

(** A sample date: a day of April 2024. *)
Definition april_2024 : Date := {| getFullYear := 2024; getMonth := 3 |}.

Definition digit (d : Z) : ascii := ascii_of_nat (48 + Z.to_nat d).

(** Decimal digits of [n >= 0], most significant first. *)
Fixpoint digits (fuel : nat) (n : Z) : string :=
  match fuel with
  | O => String (digit (n mod 10)) EmptyString
  | S fuel' =>
      if n <? 10 then String (digit n) EmptyString
      else digits fuel' (n / 10) ++ String (digit (n mod 10)) EmptyString
  end.

(** [toString] of an integer Number. *)
Definition toString (z : Z) : string :=
  if z <? 0 then String "-" (digits (Z.to_nat (Z.log2 (- z))) (- z))
  else digits (Z.to_nat (Z.log2 z)) z.

(** [s.slice(-k)]: the last [k] characters, the whole string when it is
    shorter. *)
Definition slice_last (k : nat) (s : string) : string :=
  substring (length s - k) k s.

End Js.

Import Js.

(** ** The service *)

Module TaxService.

Record TaxSlabs := { slab_min : number; slab_max : number; slab_rate : number }.

Record AdvanceTaxPayment := {
  quarter : Z;
  percentage : Z;
  amount : number;
  dueDate : string;
  description : string
}.

Inductive Scheme := section44ada | regular.

Record TaxCalculationResult := {
  totalIncome : number;
  section44adaIncome : number;
  regularTaxableIncome : number;
  section44adaTax : number;
  regularTax : number;
  recommendedScheme : Scheme;
  savings : number;
  advanceTaxSchedule : list AdvanceTaxPayment
}.

(** FY 2024-25 tax slabs (new tax regime). *)
Definition taxSlabs : list TaxSlabs :=
  [ {| slab_min := of_Z 0;       slab_max := of_Z 300000;  slab_rate := of_Z 0 |};
    {| slab_min := of_Z 300000;  slab_max := of_Z 700000;  slab_rate := of_Z 5 |};
    {| slab_min := of_Z 700000;  slab_max := of_Z 1000000; slab_rate := of_Z 10 |};
    {| slab_min := of_Z 1000000; slab_max := of_Z 1200000; slab_rate := of_Z 15 |};
    {| slab_min := of_Z 1200000; slab_max := of_Z 1500000; slab_rate := of_Z 20 |};
    {| slab_min := of_Z 1500000; slab_max := Infinity;     slab_rate := of_Z 30 |} ].

Definition standardDeduction : number := of_Z 50000.
Definition healthInsuranceDeduction : number := of_Z 25000.

(** One turn of the loop over the slabs: [tax] is the accumulator. *)
Definition slabStep (taxableIncome : number) (tax : number) (slab : TaxSlabs) : number :=
  if gtb taxableIncome (slab_min slab) then
    let taxableAmountInSlab := sub (min taxableIncome (slab_max slab)) (slab_min slab) in
    add tax (div (mul taxableAmountInSlab (slab_rate slab)) (of_Z 100))
  else tax.

Definition slabTax (slabs : list TaxSlabs) (taxableIncome : number) : number :=
  fold_left (slabStep taxableIncome) slabs (of_Z 0).

Definition calculateIncomeTax (taxableIncome : number) : number :=
  let tax := slabTax taxSlabs taxableIncome in
  (* 4% health and education cess *)
  let tax := mul tax (decimal 104 100) in
  round tax.

Definition Q1_description : string := "Q1 (15% by 15 Jun)".
Definition Q2_description : string := "Q2 (45% by 15 Sep)".
Definition Q3_description : string := "Q3 (75% by 15 Dec)".
Definition Q4_description : string := "Q4 (100% by 15 Mar)".

(** [now] is the value of [new Date()]. *)
Definition calculateAdvanceTaxSchedule (now : Date) (annualTax : number)
  : list AdvanceTaxPayment :=
  let currentYear := getFullYear now in
  let financialYear := currentYear in
  [ {| quarter := 1; percentage := 15;
       amount := round (mul annualTax (decimal 15 100));
       dueDate := toString financialYear ++ "-06-15";
       description := Q1_description |};
    {| quarter := 2; percentage := 45;
       amount := round (mul annualTax (decimal 45 100));
       dueDate := toString financialYear ++ "-09-15";
       description := Q2_description |};
    {| quarter := 3; percentage := 75;
       amount := round (mul annualTax (decimal 75 100));
       dueDate := toString financialYear ++ "-12-15";
       description := Q3_description |};
    {| quarter := 4; percentage := 100;
       amount := annualTax;
       dueDate := toString (financialYear + 1) ++ "-03-15";
       description := Q4_description |} ].

(** The two taxable incomes of [calculateTax], named after its locals. *)
Definition section44adaIncomeOf (totalIncome : number) : number :=
  mul totalIncome (decimal 5 10).

Definition section44adaTaxableIncomeOf (totalIncome : number) : number :=
  max (of_Z 0) (sub (section44adaIncomeOf totalIncome) standardDeduction).

Definition actualExpensesOf (totalIncome : number) : number :=
  mul totalIncome (decimal 1 10).

Definition regularTaxableIncomeOf (totalIncome : number) (hasHealthInsurance : bool)
  : number :=
  max (of_Z 0)
      (sub (sub (sub totalIncome (actualExpensesOf totalIncome)) standardDeduction)
           (if hasHealthInsurance then healthInsuranceDeduction else of_Z 0)).

Definition calculateTax (now : Date) (totalIncome : number) (hasHealthInsurance : bool)
  : TaxCalculationResult :=
  (* Section 44ADA calculation (50% presumptive expenses) *)
  let section44adaIncome := section44adaIncomeOf totalIncome in
  let section44adaTaxableIncome := section44adaTaxableIncomeOf totalIncome in
  let section44adaTax := calculateIncomeTax section44adaTaxableIncome in
  (* Regular calculation: conservative 10% expenses *)
  let regularTaxableIncome := regularTaxableIncomeOf totalIncome hasHealthInsurance in
  let regularTax := calculateIncomeTax regularTaxableIncome in
  (* Determine recommended scheme *)
  let recommendedScheme :=
    if leb section44adaTax regularTax then section44ada else regular in
  let finalTax :=
    match recommendedScheme with
    | section44ada => section44adaTax
    | regular => regularTax
    end in
  let savings := abs (sub section44adaTax regularTax) in
  (* Calculate advance tax schedule *)
  let advanceTaxSchedule := calculateAdvanceTaxSchedule now finalTax in
  {| totalIncome := totalIncome;
     section44adaIncome := section44adaIncome;
     regularTaxableIncome := regularTaxableIncome;
     section44adaTax := section44adaTax;
     regularTax := regularTax;
     recommendedScheme := recommendedScheme;
     savings := savings;
     advanceTaxSchedule := advanceTaxSchedule |}.

(** [calculateTax(totalIncome)]: [hasHealthInsurance] defaults to [false]. *)
Definition calculateTax_default (now : Date) (totalIncome : number)
  : TaxCalculationResult :=
  calculateTax now totalIncome false.

Definition calculateGST (amount gstRate : number) : number :=
  round (div (mul amount gstRate) (of_Z 100)).

Definition getCurrentFinancialYear (now : Date) : string :=
  let year := getFullYear now in
  let month := getMonth now + 1 in
  (* financial year starts from April 1 *)
  if 4 <=? month then
    toString year ++ "-" ++ slice_last 2 (toString (year + 1))
  else
    toString (year - 1) ++ "-" ++ slice_last 2 (toString year).

Definition getQuarterFromDate (date : Date) : Z :=
  let month := getMonth date + 1 in
  if (4 <=? month) && (month <=? 6) then 1
  else if (7 <=? month) && (month <=? 9) then 2
  else if (10 <=? month) && (month <=? 12) then 3
  else 4.

End TaxService.

Import TaxService.

(** ** The specification's formulas

    Written after the words of the specification, to be compared with the
    functions of the service. *)

Module Spec.

(** The GST amount as the specification writes it,
    [round(amount × gstRatePercent / 100)], in exact arithmetic: the amount
    is the decimal numeral [an / ad], the rate [rn / rd], with positive
    denominators, and the quotient is rounded to the nearest integer,
    halves up. *)
Definition calculateGST_spec (an ad rn rd : Z) : Z :=
  (2 * an * rn + 100 * ad * rd) / (200 * ad * rd).

(** Two decimal digits, zero padded. *)
Definition two_digits (k : Z) : string :=
  String (digit (k / 10)) (String (digit (k mod 10)) EmptyString).

(** The financial year as the specification writes it: the year, a dash and
    the number [(year + 1) mod 100]. *)
Definition getCurrentFinancialYear_spec (now : Date) : string :=
  let year := getFullYear now in
  let month := getMonth now + 1 in
  if 4 <=? month then toString year ++ "-" ++ toString ((year + 1) mod 100)
  else toString (year - 1) ++ "-" ++ toString (year mod 100).

End Spec.

Import Spec.

(** ** Reading decimal strings back

    Used to check that [toString] prints every digit. *)

Module Decimal.

Definition digit_value (c : ascii) : Z := Z.of_nat (nat_of_ascii c) - 48.

(** The number a string of decimal digits denotes, [acc] being the value of
    the digits read so far. *)
Fixpoint value_from (acc : Z) (s : string) : Z :=
  match s with
  | EmptyString => acc
  | String c s' => value_from (10 * acc + digit_value c) s'
  end.

Definition parseDecimal (s : string) : Z := value_from 0 s.

End Decimal.

Import Decimal.

(** ** Financial years

    Used to say which financial year a date or a label belongs to. *)

Module Calendar.

(** The calendar year in which the financial year of a date began: the
    year of the date from April on, the year before in January to March. *)
Definition financialYearStart (d : Date) : Z :=
  if 4 <=? getMonth d + 1 then getFullYear d else getFullYear d - 1.

(** The label of the financial year that began in the year [S]. *)
Definition financialYearLabel (S : Z) : string :=
  toString S ++ "-" ++ slice_last 2 (toString (S + 1)).

(** Strings without a dash. *)
Fixpoint no_dash (s : string) : Prop :=
  match s with
  | EmptyString => True
  | String c s' => c <> "-"%char /\ no_dash s'
  end.

End Calendar.

Import Calendar.

(** ** The handlers that call the service

    The computations of [server/routes.ts] that feed [calculateTax] or
    sum the amounts of the transactions. *)

Module Routes.

(** The months, as [getMonth()] numbers them: 0 for January to 11 for
    December. *)
Inductive Month :=
  | January | February | March | April | May | June
  | July | August | September | October | November | December.

Definition monthIndex (m : Month) : Z :=
  match m with
  | January => 0 | February => 1 | March => 2 | April => 3
  | May => 4 | June => 5 | July => 6 | August => 7
  | September => 8 | October => 9 | November => 10 | December => 11
  end.

(** [new Date(value)] for a stored date, as far as the handlers read it: an
    Invalid Date, or a date in some month. *)
Inductive StoredDate := InvalidDate | DateIn (month : Month).

(** [getMonth()]: NaN for an Invalid Date. *)
Definition getMonth (d : StoredDate) : number :=
  match d with
  | InvalidDate => NaN
  | DateIn m => of_Z (monthIndex m)
  end.

(** [x === y] between numbers: false when either is NaN, true between +0
    and -0. *)
Definition strictEquals (x y : number) : bool :=
  match SFcompare x y with
  | Some Eq => true
  | _ => false
  end.

(** What the handlers read of a stored transaction: the [amount] column, a
    decimal that the database driver hands over as a string, and the
    invoice date. *)
Record Transaction := { amount : string; invoiceDate : StoredDate }.

Section Handlers.

(** [parseFloat]: the handlers only rely on its returning a number. *)
Variable parseFloat : string -> number.

(** [transactions.reduce((sum, txn) => sum + parseFloat(txn.amount.toString()), 0)] *)
Definition totalIncomeOf (transactions : list Transaction) : number :=
  fold_left (fun sum txn => add sum (parseFloat (amount txn))) transactions (of_Z 0).

(** POST /api/tax-calculations/calculate: the calculation that is stored
    and sent back. *)
Definition calculate (now : Date) (transactions : list Transaction)
  : TaxCalculationResult :=
  let totalIncome := totalIncomeOf transactions in
  calculateTax_default now totalIncome.

(** GET /api/dashboard: the monthly income data for the chart,
    [Array.from({ length: 8 }, (_, i) => ...)].  [now i] is the month of
    the [new Date()] of the call for index [i]. *)
Definition monthlyIncome (now : Z -> Month) (transactions : list Transaction)
  : list number :=
  map (fun i =>
         let month := add (sub (of_Z (monthIndex (now i))) (of_Z 7)) (of_Z i) in
         let monthTransactions :=
           filter (fun txn =>
                     let txnMonth := getMonth (invoiceDate txn) in
                     strictEquals txnMonth month) transactions in
         fold_left (fun sum txn => add sum (parseFloat (amount txn)))
                   monthTransactions (of_Z 0))
      [0; 1; 2; 3; 4; 5; 6; 7].

End Handlers.

(** Sample data: [parseFloat] on strings of decimal digits, a receipt of
    December, one of January, one whose invoice date is invalid, and a day
    of February 2025. *)
Definition parseFloat_digits (s : string) : number := of_Z (parseDecimal s).

Definition receipts_december : list Transaction :=
  [ {| amount := "600000"; invoiceDate := DateIn December |} ].

Definition receipts_january : list Transaction :=
  [ {| amount := "400000"; invoiceDate := DateIn January |} ].

Definition receipts_undated : list Transaction :=
  [ {| amount := "250000"; invoiceDate := InvalidDate |} ].

Definition february_2025 : Date := {| getFullYear := 2025; Js.getMonth := 1 |}.

End Routes.

(** ** Real-number semantics of the doubles

    The value of a double as a real number, and what it means for a double
    to be the rounding to nearest, ties to even, of a real number.  The
    arithmetic of [SpecFloat] is proved against this description below. *)

Module Sem.

(** [2^e] for an integer exponent. *)
Definition bpow (e : Z) : R := powerRZ 2 e.
Arguments bpow e : simpl never.

(** The value of the finite double of sign [s], mantissa [m] and exponent
    [e], and of any double (0 for NaN and the infinities). *)
Definition F2R (s : bool) (m : positive) (e : Z) : R :=
  (IZR (cond_Zopp s (Z.pos m)) * bpow e)%R.

Definition SF2R (x : number) : R :=
  match x with
  | S754_finite s m e => F2R s m e
  | _ => 0%R
  end.

(** The least exponent, -1074, and the exponent of a double of magnitude
    below [2^e]. *)
Definition emin : Z := SpecFloat.emin prec emax.
Definition fexp (e : Z) : Z := SpecFloat.fexp prec emax e.

(** The real [t] lies where the shifted mantissa with its round and sticky
    bits says: on the integer, in the first half of the unit interval above
    it, on the middle, or in the second half. *)
Definition located (mrs : shr_record) (t : R) : Prop :=
  match shr_r mrs, shr_s mrs with
  | false, false => t = IZR (shr_m mrs)
  | false, true => (IZR (shr_m mrs) < t < IZR (shr_m mrs) + / 2)%R
  | true, false => t = (IZR (shr_m mrs) + / 2)%R
  | true, true => (IZR (shr_m mrs) + / 2 < t < IZR (shr_m mrs) + 1)%R
  end.

(** [n] is the integer nearest to [t], the even one on a tie. *)
Definition nearest_even (t : R) (n : Z) : Prop :=
  (- / 2 <= t - IZR n <= / 2)%R /\
  ((t - IZR n = / 2 \/ t - IZR n = - / 2)%R -> Z.even n = true).

(** [E] is the exponent of the binary64 grid around [x >= 0]. *)
Definition grid (x : R) (E : Z) : Prop :=
  emin <= E /\ (x < bpow (E + prec))%R /\
  (E = emin \/ (bpow (E + prec - 1) <= x)%R).

(** [y] is the double of sign [s] and magnitude [v], the infinity when [v]
    is out of range. *)
Definition represents (s : bool) (v : R) (y : number) : Prop :=
  match y with
  | S754_zero s' => s' = s /\ v = 0%R
  | S754_infinity s' => s' = s /\ (bpow emax <= v)%R
  | S754_finite s' m e =>
      s' = s /\ bounded prec emax m e = true /\ v = (IZR (Z.pos m) * bpow e)%R
  | S754_nan => False
  end.

(** [y] is the rounding to nearest, ties to even, of the magnitude [x >= 0]
    with sign [s]. *)
Definition rounded (s : bool) (x : R) (y : number) : Prop :=
  exists E n, grid x E /\ nearest_even (x * bpow (- E)) n /\
              represents s (IZR n * bpow E) y.

(** [y] is the double nearest to the real [v] (zero of either sign when
    [v = 0]). *)
Definition rounds_to (v : R) (y : number) : Prop :=
  ((0 < v)%R /\ rounded false v y) \/
  ((v < 0)%R /\ rounded true (- v) y) \/
  (v = 0%R /\ exists s, y = S754_zero s).

(** Finite doubles in canonical form. *)
Definition finite (x : number) : Prop :=
  match x with
  | S754_zero _ => True
  | S754_finite _ m e => bounded prec emax m e = true
  | _ => False
  end.

(** The doubles that are not negative: the zeros, the positive finite
    doubles in canonical form and +Infinity. *)
Definition nonneg (x : number) : Prop :=
  match x with
  | S754_zero _ => True
  | S754_finite false m e => bounded prec emax m e = true
  | S754_infinity false => True
  | _ => False
  end.

Definition is_inf (x : number) : Prop :=
  match x with S754_infinity _ => True | _ => False end.

(** [x <= y] between doubles that are not negative. *)
Definition le_nn (x y : number) : Prop :=
  nonneg x /\ nonneg y /\ leb x y = true.

Definition is_zero (x : number) : Prop :=
  match x with S754_zero _ => True | _ => False end.

(** Positive finite doubles in canonical form. *)
Definition pos_finite (x : number) : Prop :=
  match x with
  | S754_finite false m e => bounded prec emax m e = true
  | _ => False
  end.

(** A slab the loop can handle: a finite lower bound below the upper bound,
    a finite rate that is not negative, and a positive rate when the slab is
    unbounded. *)
Definition wf_slab (s : TaxSlabs) : Prop :=
  finite (slab_min s) /\ le_nn (slab_min s) (slab_max s) /\
  nonneg (slab_rate s) /\ finite (slab_rate s) /\
  (is_inf (slab_max s) -> ~ is_zero (slab_rate s)).

(** The doubles that are not positive: the zeros, the negative finite
    doubles in canonical form and -Infinity. *)
Definition neg_like (x : number) : Prop :=
  match x with
  | S754_zero _ => True
  | S754_finite true m e => bounded prec emax m e = true
  | S754_infinity true => True
  | _ => False
  end.

(** The double [2^k], for [-1022 <= k <= 1023], and the exponents
    [18 .. 1017]. *)
Definition pow2 (k : Z) : number := S754_finite false 4503599627370496 (k - 52).

Definition sample_exponents : list Z := map Z.of_nat (seq 18 1000).

End Sem.

Import Sem.

(** * Proofs *)

(** ** Powers of two *)

Section Bpow.

Lemma bpow_gt_0 e : (0 < bpow e)%R.
Proof. apply powerRZ_lt; lra. Qed.

Lemma bpow_add a b : bpow (a + b) = (bpow a * bpow b)%R.
Proof. apply powerRZ_add; lra. Qed.

Lemma bpow_0 : bpow 0 = 1%R.
Proof. reflexivity. Qed.

Lemma bpow_1 : bpow 1 = 2%R.
Proof. unfold bpow; simpl; lra. Qed.

Lemma bpow_succ e : bpow (e + 1) = (2 * bpow e)%R.
Proof. rewrite bpow_add, bpow_1; lra. Qed.

Lemma bpow_opp e : bpow (- e) = (/ bpow e)%R.
Proof. apply powerRZ_neg'. Qed.

Lemma bpow_mul_opp e : (bpow e * bpow (- e))%R = 1%R.
Proof. rewrite <- bpow_add. replace (e + - e) with 0 by lia. apply bpow_0. Qed.

Lemma bpow_IZR e : 0 <= e -> bpow e = IZR (2 ^ e).
Proof.
  intros He. pattern e. apply natlike_ind; [reflexivity | | exact He].
  intros x Hx IH. unfold Z.succ. rewrite bpow_succ, IH, Z.pow_add_r by lia.
  rewrite mult_IZR. change (2 ^ 1) with 2. lra.
Qed.

Lemma bpow_lt a b : a < b -> (bpow a < bpow b)%R.
Proof.
  intros H. replace b with (a + (b - a)) by lia. rewrite bpow_add.
  assert (H1 : (1 < bpow (b - a))%R).
  { rewrite bpow_IZR by lia. apply IZR_lt.
    assert (2 ^ 0 < 2 ^ (b - a)) by (apply Z.pow_lt_mono_r; lia).
    simpl in *; lia. }
  pose proof (bpow_gt_0 a). nra.
Qed.

Lemma bpow_le a b : a <= b -> (bpow a <= bpow b)%R.
Proof.
  intros H. destruct (Z.eq_dec a b) as [->|Hn]; [lra|].
  apply Rlt_le, bpow_lt; lia.
Qed.

Lemma bpow_lt_inv a b : (bpow a < bpow b)%R -> a < b.
Proof.
  intros H. destruct (Z_lt_le_dec a b) as [?|Hle]; [assumption|].
  apply bpow_le in Hle. lra.
Qed.

End Bpow.

(** ** The number of binary digits of a mantissa *)

Section Digits.

Lemma digits2_pos_size p : digits2_pos p = Pos.size p.
Proof. induction p; simpl; congruence. Qed.

Lemma digits2_bounds p :
  2 ^ (Z.pos (digits2_pos p) - 1) <= Z.pos p < 2 ^ Z.pos (digits2_pos p).
Proof.
  rewrite digits2_pos_size. split.
  - pose proof (Pos.size_le p) as H.
    assert (H2 : 2 ^ Z.pos (Pos.size p) <= 2 * Z.pos p).
    { rewrite <- Pos2Z.inj_pow. change (2 * Z.pos p) with (Z.pos p~0). lia. }
    replace (Z.pos (Pos.size p)) with (Z.pos (Pos.size p) - 1 + 1) in H2 by lia.
    rewrite Z.pow_add_r in H2 by lia. change (2 ^ 1) with 2 in H2. lia.
  - pose proof (Pos.size_gt p) as H. rewrite <- Pos2Z.inj_pow. lia.
Qed.

Lemma Zdigits2_bounds m : 0 < m ->
  2 ^ (Zdigits2 m - 1) <= m < 2 ^ Zdigits2 m.
Proof. destruct m; try lia. intros _. apply digits2_bounds. Qed.

Lemma Zdigits2_nonneg m : 0 <= Zdigits2 m.
Proof. destruct m; simpl; lia. Qed.

Lemma Zdigits2_unique m d : 0 < m -> 2 ^ (d - 1) <= m < 2 ^ d -> Zdigits2 m = d.
Proof.
  intros Hm [H1 H2]. pose proof (Zdigits2_bounds m Hm) as [H3 H4].
  assert (0 < d).
  { destruct (Z_lt_le_dec 0 d); [assumption|].
    assert (2 ^ d <= 2 ^ 0) by (apply Z.pow_le_mono_r; lia). simpl in *; lia. }
  assert (0 < Zdigits2 m) by (destruct m; simpl; lia).
  destruct (Z_lt_le_dec (Zdigits2 m) d).
  - assert (2 ^ Zdigits2 m <= 2 ^ (d - 1)) by (apply Z.pow_le_mono_r; lia). lia.
  - destruct (Z_lt_le_dec d (Zdigits2 m)); [|lia].
    assert (2 ^ d <= 2 ^ (Zdigits2 m - 1)) by (apply Z.pow_le_mono_r; lia). lia.
Qed.

End Digits.

(** ** Shifting a mantissa right, with its round and sticky bits *)

Section Shr.

Lemma iter_pos_comm {A} (f : A -> A) p x : iter_pos f p (f x) = f (iter_pos f p x).
Proof.
  revert x. induction p; intros x; simpl.
  - now rewrite !IHp.
  - now rewrite !IHp.
  - reflexivity.
Qed.

Lemma iter_pos_succ {A} (f : A -> A) p x :
  iter_pos f (Pos.succ p) x = f (iter_pos f p x).
Proof.
  revert x. induction p; intros x; simpl.
  - rewrite !IHp. now rewrite !iter_pos_comm.
  - now rewrite !iter_pos_comm.
  - reflexivity.
Qed.

Lemma located_shr_1 mrs t :
  0 <= shr_m mrs -> located mrs t ->
  located (shr_1 mrs) (t / 2) /\ shr_m (shr_1 mrs) = shr_m mrs / 2.
Proof.
  destruct mrs as [m r s]. simpl. intros Hm H.
  assert (Hdiv : forall p, Z.pos p~0 / 2 = Z.pos p /\ Z.pos p~1 / 2 = Z.pos p).
  { intros p. split.
    - change (Z.pos p~0) with (2 * Z.pos p). rewrite Z.mul_comm. apply Z.div_mul. lia.
    - change (Z.pos p~1) with (2 * Z.pos p + 1).
      symmetry. apply Z.div_unique with 1; lia. }
  destruct m as [|[p|p|]|p]; try lia; unfold located in *; simpl in *;
    try (destruct (Hdiv p) as [H0 H1]);
    destruct r, s; simpl in *;
    try rewrite (IZR_POS_xO p) in *; try rewrite IZR_POS_xI in *;
    split; try reflexivity; try (symmetry; assumption); try lra.
Qed.

End Shr.

(** ** The nearest integer, ties to even, and the grid of the doubles *)

Section Round.

Lemma fexp_eq e : fexp e = Z.max (e - 53) (-1074).
Proof. reflexivity. Qed.

Lemma emin_eq : emin = -1074.
Proof. reflexivity. Qed.

Lemma prec_eq : prec = 53.
Proof. reflexivity. Qed.

Lemma emax_eq : emax = 1024.
Proof. reflexivity. Qed.

Lemma located_iter p mrs t :
  0 <= shr_m mrs -> located mrs t ->
  located (iter_pos shr_1 p mrs) (t * bpow (- Z.pos p)) /\
  0 <= shr_m (iter_pos shr_1 p mrs).
Proof.
  intros Hm Hl. induction p using Pos.peano_ind.
  - change (iter_pos shr_1 1 mrs) with (shr_1 mrs).
    destruct (located_shr_1 mrs t Hm Hl) as [H1 H2]. split.
    + replace (t * bpow (- Z.pos 1))%R with (t / 2)%R; [exact H1|].
      rewrite bpow_opp, bpow_1. reflexivity.
    + rewrite H2. apply Z.div_pos; lia.
  - rewrite iter_pos_succ. destruct IHp as [H1 H2].
    destruct (located_shr_1 _ _ H2 H1) as [H3 H4]. split.
    + replace (t * bpow (- Z.pos (Pos.succ p)))%R with (t * bpow (- Z.pos p) / 2)%R;
        [exact H3|].
      rewrite Pos2Z.inj_succ. replace (- Z.succ (Z.pos p)) with (- Z.pos p + -1) by lia.
      rewrite bpow_add. replace (bpow (-1)) with (/ 2)%R by (unfold bpow; simpl; lra).
      field.
    + rewrite H4. apply Z.div_pos; lia.
Qed.

Lemma located_shr mrs e k t :
  0 <= shr_m mrs -> 0 <= k -> located mrs t ->
  located (fst (shr mrs e k)) (t * bpow (- k)) /\
  0 <= shr_m (fst (shr mrs e k)) /\ snd (shr mrs e k) = e + k.
Proof.
  intros Hm Hk Hl. destruct k as [|p|p]; try lia; simpl.
  - rewrite Rmult_1_r. repeat split; auto. lia.
  - destruct (located_iter p mrs t Hm Hl) as [H1 H2]. repeat split; auto.
Qed.

Lemma located_of_loc m l : shr_m (shr_record_of_loc m l) = m.
Proof. destruct l as [|[]]; reflexivity. Qed.

Lemma located_floor mrs t :
  located mrs t -> (IZR (shr_m mrs) <= t < IZR (shr_m mrs) + 1)%R.
Proof. unfold located. destruct (shr_r mrs), (shr_s mrs); intros H; lra. Qed.

Lemma located_rne mrs t :
  located mrs t ->
  nearest_even t (round_nearest_even (shr_m mrs) (loc_of_shr_record mrs)).
Proof.
  destruct mrs as [m r s]. unfold located, nearest_even. simpl.
  destruct r, s; simpl; intros H.
  - rewrite plus_IZR. split; [lra|]. intros [H1|H1]; lra.
  - destruct (Z.even m) eqn:Hev.
    + split; [lra|]. intros _; exact Hev.
    + rewrite plus_IZR. split; [lra|]. intros _.
      change (m + 1) with (Z.succ m). rewrite Z.even_succ, <- Z.negb_even, Hev.
      reflexivity.
  - split; [lra|]. intros [H1|H1]; lra.
  - split; [lra|]. intros [H1|H1]; lra.
Qed.

Lemma nearest_even_mono t t' n n' :
  (t <= t')%R -> nearest_even t n -> nearest_even t' n' -> n <= n'.
Proof.
  intros Ht [H1 H2] [H3 H4].
  destruct (Z_le_gt_dec n n') as [?|Hgt]; [assumption|exfalso].
  assert (Hn : (IZR n' + 1 <= IZR n)%R).
  { rewrite <- plus_IZR. apply IZR_le. lia. }
  assert (Ha : (t - IZR n = - / 2)%R) by lra.
  assert (Hb : (t' - IZR n' = / 2)%R) by lra.
  assert (He : n = n' + 1).
  { apply eq_IZR. rewrite plus_IZR. lra. }
  specialize (H2 (or_intror Ha)). specialize (H4 (or_introl Hb)).
  subst n. change (n' + 1) with (Z.succ n') in H2.
  rewrite Z.even_succ, <- Z.negb_even, H4 in H2. discriminate.
Qed.

Lemma nearest_even_int t n k :
  nearest_even t n -> t = IZR k -> n = k.
Proof.
  intros [H1 _] ->. rewrite <- minus_IZR in H1.
  destruct H1 as [Ha Hb].
  assert (-1 < k - n < 1).
  { split; [apply lt_IZR | apply lt_IZR]; lra. }
  lia.
Qed.

Lemma nearest_even_ge t n k :
  nearest_even t n -> (IZR k <= t)%R -> k <= n.
Proof.
  intros [H1 _] Hk.
  assert (k - 1 < n); [|lia].
  apply lt_IZR. rewrite minus_IZR. lra.
Qed.

Lemma nearest_even_le t n k :
  nearest_even t n -> (t <= IZR k)%R -> n <= k.
Proof.
  intros [H1 _] Hk.
  assert (n < k + 1); [|lia].
  apply lt_IZR. rewrite plus_IZR. lra.
Qed.

Lemma grid_unique_le x x' E E' :
  (x <= x')%R -> grid x E -> grid x' E' -> E <= E'.
Proof.
  intros Hx (H1 & H2 & H3) (H4 & H5 & H6).
  destruct (Z_le_gt_dec E E') as [?|Hgt]; [assumption|exfalso].
  destruct H3 as [H3|H3]; [lia|].
  assert (bpow (E + prec - 1) < bpow (E' + prec))%R by lra.
  apply bpow_lt_inv in H. lia.
Qed.

Lemma grid_bounds x E n :
  (0 <= x)%R -> grid x E -> nearest_even (x * bpow (- E)) n ->
  0 <= n <= 2 ^ prec /\ (emin < E -> 2 ^ (prec - 1) <= n).
Proof.
  intros Hx (H1 & H2 & H3) Hn.
  pose proof (bpow_gt_0 (- E)) as HpE.
  repeat split.
  - apply (nearest_even_ge _ _ 0 Hn). simpl. nra.
  - apply (nearest_even_le _ _ _ Hn).
    rewrite <- bpow_IZR by (rewrite prec_eq; lia).
    replace (bpow prec) with (bpow (E + prec) * bpow (- E))%R.
    + apply Rmult_le_compat_r; lra.
    + rewrite <- bpow_add. f_equal. lia.
  - intros HE. destruct H3 as [H3|H3]; [lia|].
    apply (nearest_even_ge _ _ _ Hn).
    rewrite <- bpow_IZR by (rewrite prec_eq; lia).
    replace (bpow (prec - 1)) with (bpow (E + prec - 1) * bpow (- E))%R.
    + apply Rmult_le_compat_r; lra.
    + rewrite <- bpow_add. f_equal. lia.
Qed.

End Round.

(** ** [binary_round_aux] rounds to nearest, ties to even *)

Section RoundAux.

Lemma scale_le a x e : (a <= x * bpow (- e))%R -> (a * bpow e <= x)%R.
Proof.
  intros H. pose proof (bpow_gt_0 e) as Hp. pose proof (bpow_mul_opp e) as Hq.
  replace x with (x * bpow (- e) * bpow e)%R
    by (rewrite Rmult_assoc, (Rmult_comm (bpow (- e))), Hq; ring).
  apply Rmult_le_compat_r; lra.
Qed.

Lemma scale_lt a x e : (x * bpow (- e) < a)%R -> (x < a * bpow e)%R.
Proof.
  intros H. pose proof (bpow_gt_0 e) as Hp. pose proof (bpow_mul_opp e) as Hq.
  replace x with (x * bpow (- e) * bpow e)%R
    by (rewrite Rmult_assoc, (Rmult_comm (bpow (- e))), Hq; ring).
  apply Rmult_lt_compat_r; lra.
Qed.

Lemma bounded_iff m e :
  bounded prec emax m e = true <->
  fexp (Z.pos (digits2_pos m) + e) = e /\ e <= emax - prec.
Proof.
  unfold bounded, canonical_mantissa. rewrite andb_true_iff, Z.eqb_eq, Z.leb_le.
  reflexivity.
Qed.

Lemma bra_spec s m e l x :
  0 <= m -> (0 <= x)%R ->
  located (shr_record_of_loc m l) (x * bpow (- e)) ->
  e <= fexp (Zdigits2 m + e) ->
  rounded s x (binary_round_aux prec emax s m e l).
Proof.
  intros Hm Hx Hloc Hk.
  pose proof (Zdigits2_nonneg m) as Hd0.
  set (E := fexp (Zdigits2 m + e)) in *.
  assert (HE : E = Z.max (Zdigits2 m + e - 53) (-1074)) by reflexivity.
  (* the grid of x *)
  pose proof (located_floor _ _ Hloc) as Hfl. rewrite located_of_loc in Hfl.
  assert (Hgrid : grid x E).
  { unfold grid. rewrite emin_eq, prec_eq. split; [lia|]. split.
    - destruct Hfl as [_ Hfl]. apply scale_lt in Hfl.
      eapply Rlt_le_trans; [exact Hfl|].
      apply Rle_trans with (bpow (Zdigits2 m) * bpow e)%R.
      + apply Rmult_le_compat_r; [apply Rlt_le, bpow_gt_0|].
        rewrite bpow_IZR by assumption. rewrite <- plus_IZR. apply IZR_le.
        destruct (Z.eq_dec m 0) as [->|Hn]; [simpl; lia|].
        pose proof (Zdigits2_bounds m ltac:(lia)). lia.
      + rewrite <- bpow_add. apply bpow_le. lia.
    - destruct (Z.eq_dec E (-1074)) as [?|Hn]; [left; assumption|right].
      assert (Hm0 : 0 < m).
      { destruct (Z.eq_dec m 0) as [->|?]; [|lia]. simpl in HE. lia. }
      destruct Hfl as [Hfl _]. apply scale_le in Hfl.
      eapply Rle_trans; [|exact Hfl].
      replace (E + 53 - 1) with (Zdigits2 m - 1 + e) by lia.
      rewrite bpow_add. apply Rmult_le_compat_r; [apply Rlt_le, bpow_gt_0|].
      pose proof (Zdigits2_bounds m Hm0) as [Hb _].
      assert (0 < Zdigits2 m) by (destruct m; simpl; lia).
      rewrite bpow_IZR by lia. apply IZR_le. exact Hb. }
  (* first shift *)
  unfold binary_round_aux, shr_fexp. change (emax - prec) with 971.
  change (SpecFloat.fexp prec emax) with fexp. fold E.
  pose proof (located_shr (shr_record_of_loc m l) e (E - e) _
                ltac:(rewrite located_of_loc; exact Hm) ltac:(lia) Hloc)
    as (Hl1 & Hm1 & He1).
  destruct (shr (shr_record_of_loc m l) e (E - e)) as [mrs' e'] eqn:Hs1.
  cbn [fst snd] in Hl1; cbn [fst snd] in Hm1; cbn [fst snd] in He1.
  assert (He' : e' = E) by lia. clear He1. subst e'.
  replace (x * bpow (- e) * bpow (- (E - e)))%R with (x * bpow (- E))%R in Hl1.
  2:{ rewrite Rmult_assoc, <- bpow_add. do 2 f_equal. lia. }
  apply located_rne in Hl1.
  set (n := round_nearest_even (shr_m mrs') (loc_of_shr_record mrs')) in *.
  destruct (grid_bounds x E n Hx Hgrid Hl1) as [Hn1 Hn2].
  rewrite prec_eq, emin_eq in *. change (53 - 1) with 52 in Hn2.
  exists E, n. split; [exact Hgrid|]. split; [exact Hl1|].
  assert (HEmin : -1074 <= E) by lia.
  (* second shift *)
  destruct (Z.eq_dec n 0) as [Hz|Hnz].
  - rewrite Hz. assert (E = -1074).
    { destruct (Z.eq_dec E (-1074)); [assumption|].
      assert (2 ^ 52 <= n) by (apply Hn2; lia). rewrite Hz in H. simpl in H. lia. }
    subst E. rewrite H. cbn [represents]. split; [reflexivity|]. lra.
  - assert (Hnpos : 0 < n) by lia.
    pose proof (Zdigits2_bounds n Hnpos) as Hdn.
    destruct (Z.eq_dec n (2 ^ 53)) as [Hp|Hnp].
    + rewrite Hp. change (Zdigits2 (2 ^ 53)) with 54.
      rewrite fexp_eq. replace (Z.max (54 + E - 53) (-1074) - E) with 1 by lia.
      simpl shr. cbv iota beta. simpl shr_m. cbv iota.
      destruct (E + 1 <=? 971) eqn:Hov.
      * cbn [represents]. split; [reflexivity|]. rewrite bounded_iff. split.
        -- split.
           ++ change (Z.pos (digits2_pos 4503599627370496)) with 53.
              rewrite fexp_eq. lia.
           ++ apply Z.leb_le in Hov. rewrite emax_eq, prec_eq. lia.
        -- rewrite bpow_succ. change (2 ^ 53) with 9007199254740992. lra.
      * cbn [represents]. split; [reflexivity|]. apply Z.leb_gt in Hov.
        rewrite emax_eq. rewrite <- (bpow_IZR 53) by lia. rewrite <- bpow_add.
        apply bpow_le. lia.
    + assert (Hlt : n < 2 ^ 53) by lia.
      assert (Hdn53 : Zdigits2 n <= 53).
      { destruct (Z_le_gt_dec (Zdigits2 n) 53); [assumption|].
        assert (2 ^ 53 <= 2 ^ (Zdigits2 n - 1)) by (apply Z.pow_le_mono_r; lia). lia. }
      assert (Hcan : fexp (Zdigits2 n + E) = E).
      { rewrite fexp_eq. destruct (Z.eq_dec E (-1074)); [lia|].
        assert (2 ^ 52 <= n) by (apply Hn2; lia).
        assert (Zdigits2 n = 53).
        { apply Zdigits2_unique; [lia|]. change (53 - 1) with 52. lia. }
        lia. }
      rewrite Hcan, Z.sub_diag. simpl shr. cbv iota beta. simpl shr_m.
      destruct n as [|p|p]; try lia.
      destruct (E <=? 971) eqn:Hov.
      * cbn [represents]. split; [reflexivity|]. split; [|reflexivity].
        rewrite bounded_iff. split; [exact Hcan|].
        apply Z.leb_le in Hov. rewrite emax_eq, prec_eq. lia.
      * cbn [represents]. split; [reflexivity|]. apply Z.leb_gt in Hov.
        assert (2 ^ 52 <= Z.pos p) by (apply Hn2; lia).
        apply Rle_trans with (bpow 52 * bpow E)%R.
        -- rewrite <- bpow_add, emax_eq. apply bpow_le. lia.
        -- apply Rmult_le_compat_r; [apply Rlt_le, bpow_gt_0|].
           rewrite bpow_IZR by lia. apply IZR_le. assumption.
Qed.

End RoundAux.

(** ** [binary_round] and [binary_normalize] *)

Section Normalize.

Lemma iter_xO m d : Z.pos (Pos.iter xO m d) = Z.pos m * 2 ^ Z.pos d.
Proof.
  induction d using Pos.peano_ind.
  - simpl. lia.
  - rewrite Pos.iter_succ, Pos2Z.inj_succ, Z.pow_succ_r by lia.
    change (Z.pos (Pos.iter xO m d)~0) with (2 * Z.pos (Pos.iter xO m d)).
    rewrite IHd. ring.
Qed.

Lemma shl_align_spec m e e0 :
  let '(m', e') := shl_align m e e0 in
  e' = Z.min e e0 /\ Z.pos m' = Z.pos m * 2 ^ (e - e').
Proof.
  unfold shl_align. destruct (e0 - e) as [|d|d] eqn:Hd.
  - split; [lia|]. replace (e - e) with 0 by lia. simpl. lia.
  - split; [lia|]. replace (e - e) with 0 by lia. simpl. lia.
  - split; [lia|]. rewrite iter_xO. f_equal. f_equal. lia.
Qed.

Lemma Zdigits2_shift m k : 0 < m -> 0 <= k -> Zdigits2 (m * 2 ^ k) = Zdigits2 m + k.
Proof.
  intros Hm Hk. pose proof (Zdigits2_bounds m Hm) as [H1 H2].
  assert (0 < Zdigits2 m) by (destruct m; simpl; lia).
  assert (0 < 2 ^ k) by (apply Z.pow_pos_nonneg; lia).
  apply Zdigits2_unique; [nia|].
  replace (Zdigits2 m + k - 1) with (Zdigits2 m - 1 + k) by lia.
  rewrite !Z.pow_add_r by lia. split; nia.
Qed.

Lemma IZR_shift m k e : 0 <= k ->
  (IZR (m * 2 ^ k) * bpow (e - k))%R = (IZR m * bpow e)%R.
Proof.
  intros Hk. rewrite mult_IZR, <- bpow_IZR by assumption.
  rewrite Rmult_assoc, <- bpow_add. do 2 f_equal. lia.
Qed.

Lemma binary_round_spec s m e :
  rounded s (IZR (Z.pos m) * bpow e) (binary_round prec emax s m e).
Proof.
  unfold binary_round.
  pose proof (shl_align_spec m e (SpecFloat.fexp prec emax (Z.pos (digits2_pos m) + e)))
    as H.
  change (SpecFloat.fexp prec emax) with fexp in *.
  destruct (shl_align m e (fexp (Z.pos (digits2_pos m) + e))) as [m' e'].
  destruct H as [He Hm].
  assert (Hk : 0 <= e - e') by lia.
  assert (Hdig : Zdigits2 (Z.pos m') + e' = Z.pos (digits2_pos m) + e).
  { rewrite Hm. rewrite Zdigits2_shift by lia.
    change (Zdigits2 (Z.pos m)) with (Z.pos (digits2_pos m)). lia. }
  assert (Hv : (IZR (Z.pos m) * bpow e)%R = (IZR (Z.pos m') * bpow e')%R).
  { rewrite Hm. replace e' with (e - (e - e')) at 2 by lia.
    now rewrite IZR_shift by lia. }
  rewrite Hv. apply bra_spec.
  - lia.
  - pose proof (bpow_gt_0 e'). assert (0 < IZR (Z.pos m'))%R by (apply IZR_lt; lia). nra.
  - unfold located. simpl. rewrite Rmult_assoc, bpow_mul_opp. ring.
  - rewrite Hdig. lia.
Qed.

End Normalize.

Section Ops.

Lemma binary_normalize_spec z e sz :
  rounds_to (IZR z * bpow e) (binary_normalize prec emax z e sz).
Proof.
  pose proof (bpow_gt_0 e) as Hp.
  destruct z as [|p|p]; simpl.
  - right; right. split; [ring|]. now exists sz.
  - left. split.
    + assert (0 < IZR (Z.pos p))%R by (apply IZR_lt; lia). nra.
    + apply binary_round_spec.
  - right; left. split.
    + assert (IZR (Z.neg p) < 0)%R by (apply IZR_lt; lia). nra.
    + replace (- (IZR (Z.neg p) * bpow e))%R with (IZR (Z.pos p) * bpow e)%R.
      * apply binary_round_spec.
      * change (Z.neg p) with (- Z.pos p). rewrite opp_IZR. ring.
Qed.

End Ops.

(** ** Multiplication, addition and subtraction of finite doubles

    Each returns the rounding of the exact result. *)

Section FiniteOps.

Lemma Zdigits2_mul_ge a b : 0 < a -> 0 < b ->
  Zdigits2 a + Zdigits2 b - 1 <= Zdigits2 (a * b).
Proof.
  intros Ha Hb.
  pose proof (Zdigits2_bounds a Ha) as [Ha1 Ha2].
  pose proof (Zdigits2_bounds b Hb) as [Hb1 Hb2].
  pose proof (Zdigits2_bounds (a * b) ltac:(nia)) as [Hc1 Hc2].
  assert (0 < Zdigits2 a) by (destruct a; simpl; lia).
  assert (0 < Zdigits2 b) by (destruct b; simpl; lia).
  assert (0 < Zdigits2 (a * b)) by (destruct (a * b) eqn:?; simpl; lia).
  destruct (Z_le_gt_dec (Zdigits2 a + Zdigits2 b - 1) (Zdigits2 (a * b))) as [?|Hgt];
    [assumption|exfalso].
  assert (H2 : 2 ^ Zdigits2 (a * b) <= 2 ^ (Zdigits2 a - 1 + (Zdigits2 b - 1)))
    by (apply Z.pow_le_mono_r; lia).
  rewrite Z.pow_add_r in H2 by lia.
  assert (0 < 2 ^ (Zdigits2 a - 1)) by (apply Z.pow_pos_nonneg; lia).
  assert (0 < 2 ^ (Zdigits2 b - 1)) by (apply Z.pow_pos_nonneg; lia).
  nia.
Qed.

Lemma bounded_digits m e :
  bounded prec emax m e = true ->
  1 <= Z.pos (digits2_pos m) <= 53 /\ -1074 <= e <= 971 /\
  (e = -1074 \/ Z.pos (digits2_pos m) = 53).
Proof.
  rewrite bounded_iff, fexp_eq, emax_eq, prec_eq. intros [H1 H2]. lia.
Qed.

Lemma rounded_self s m e :
  bounded prec emax m e = true ->
  rounded s (IZR (Z.pos m) * bpow e) (S754_finite s m e).
Proof.
  intros Hb. pose proof (bounded_digits m e Hb) as (Hd & He & Hn).
  pose proof (digits2_bounds m) as [Hm1 Hm2].
  pose proof (bpow_gt_0 e) as Hp.
  exists e, (Z.pos m). split; [|split].
  - unfold grid. rewrite emin_eq, prec_eq. split; [lia|]. split.
    + rewrite bpow_add, Rmult_comm. apply Rmult_lt_compat_l; [assumption|].
      rewrite bpow_IZR by lia. apply IZR_lt.
      assert (2 ^ Z.pos (digits2_pos m) <= 2 ^ 53) by (apply Z.pow_le_mono_r; lia). lia.
    + destruct Hn as [Hn|Hn]; [left; assumption|right].
      replace (e + 53 - 1) with (52 + e) by lia. rewrite bpow_add.
      apply Rmult_le_compat_r; [lra|]. rewrite bpow_IZR by lia. apply IZR_le.
      rewrite Hn in Hm1. exact Hm1.
  - rewrite Rmult_assoc, bpow_mul_opp, Rmult_1_r. split; [lra|]. intros [H|H]; lra.
  - simpl. auto.
Qed.

Lemma rounds_to_self x : finite x -> rounds_to (SF2R x) x.
Proof.
  destruct x as [s| | |s m e]; simpl; try contradiction; intros Hb.
  - right; right. split; [reflexivity|]. now exists s.
  - pose proof (bpow_gt_0 e) as Hp.
    assert (0 < IZR (Z.pos m))%R by (apply IZR_lt; lia).
    unfold F2R. destruct s; simpl.
    + right; left. split.
      * change (Z.neg m) with (- Z.pos m). rewrite opp_IZR. nra.
      * replace (- (IZR (Z.neg m) * bpow e))%R with (IZR (Z.pos m) * bpow e)%R.
        -- now apply rounded_self.
        -- change (Z.neg m) with (- Z.pos m). rewrite opp_IZR. ring.
    + left. split; [nra|]. now apply rounded_self.
Qed.

Lemma rounds_to_signed (s : bool) (P v : R) (y : number) :
  (0 < P)%R -> v = (if s then - P else P)%R -> rounded s P y -> rounds_to v y.
Proof.
  intros HP -> Hr. destruct s.
  - right; left. split; [lra|]. now rewrite Ropp_involutive.
  - left. split; assumption.
Qed.

Lemma mul_spec x y :
  finite x -> finite y -> rounds_to (SF2R x * SF2R y) (mul x y).
Proof.
  destruct x as [sx| | |sx mx ex]; simpl; try contradiction;
  destruct y as [sy| | |sy my ey]; simpl; try contradiction; intros Hx Hy.
  - right; right. split; [ring|]. now eexists.
  - right; right. split; [ring|]. now eexists.
  - right; right. split; [ring|]. now eexists.
  - pose proof (bounded_digits mx ex Hx) as (Hdx & Hex & Hnx).
    pose proof (bounded_digits my ey Hy) as (Hdy & Hey & Hny).
    pose proof (bpow_gt_0 (ex + ey)) as Hp.
    assert (HP : (0 < IZR (Z.pos (mx * my)) * bpow (ex + ey))%R).
    { assert (0 < IZR (Z.pos (mx * my)))%R by (apply IZR_lt; lia). nra. }
    apply (rounds_to_signed (xorb sx sy) _ _ _ HP).
    + unfold F2R. rewrite Pos2Z.inj_mul, mult_IZR, bpow_add.
      destruct sx, sy; simpl; change (Z.neg mx) with (- Z.pos mx);
        change (Z.neg my) with (- Z.pos my); rewrite ?opp_IZR; ring.
    + apply bra_spec.
      * lia.
      * lra.
      * unfold located. simpl. rewrite Rmult_assoc, bpow_mul_opp. ring.
      * pose proof (Zdigits2_mul_ge (Z.pos mx) (Z.pos my) ltac:(lia) ltac:(lia)) as Hd.
        simpl Zdigits2 in Hd. rewrite fexp_eq. simpl Zdigits2. lia.
Qed.

Lemma cond_Zopp_IZR s m : IZR (cond_Zopp s m) = (if s then - IZR m else IZR m)%R.
Proof. destruct s; simpl; [apply opp_IZR | reflexivity]. Qed.

Lemma aligned_value s m e e0 :
  (IZR (cond_Zopp s (Z.pos (fst (shl_align m e (Z.min e e0))))) * bpow (Z.min e e0))%R
  = F2R s m e.
Proof.
  pose proof (shl_align_spec m e (Z.min e e0)) as H.
  destruct (shl_align m e (Z.min e e0)) as [m' e']. destruct H as [He Hm].
  simpl fst. unfold F2R. rewrite !cond_Zopp_IZR.
  assert (Hv : (IZR (Z.pos m') * bpow (Z.min e e0))%R = (IZR (Z.pos m) * bpow e)%R).
  { rewrite Hm. replace (bpow (Z.min e e0)) with (bpow (e - (e - e'))) by (f_equal; lia).
    apply IZR_shift. lia. }
  destruct s; lra.
Qed.

Lemma add_spec x y :
  finite x -> finite y -> rounds_to (SF2R x + SF2R y) (add x y).
Proof.
  destruct x as [sx| | |sx mx ex]; simpl; try contradiction;
  destruct y as [sy| | |sy my ey]; simpl; try contradiction; intros Hx Hy.
  - right; right. split; [ring|]. destruct sx, sy; now eexists.
  - rewrite Rplus_0_l. apply (rounds_to_self (S754_finite sy my ey)). exact Hy.
  - rewrite Rplus_0_r. apply (rounds_to_self (S754_finite sx mx ex)). exact Hx.
  - match goal with |- rounds_to _ (binary_normalize _ _ ?z ?e _) =>
      pose proof (binary_normalize_spec z e false) as H end.
    rewrite plus_IZR, Rmult_plus_distr_r in H.
    change (IntDef.Z.min ex ey) with (Z.min ex ey) in *.
    pose proof (aligned_value sx mx ex ey) as H1.
    pose proof (aligned_value sy my ey ex) as H2.
    rewrite (Z.min_comm ey ex) in H2. rewrite H1, H2 in H. exact H.
Qed.

Lemma sub_spec x y :
  finite x -> finite y -> rounds_to (SF2R x - SF2R y) (sub x y).
Proof.
  destruct x as [sx| | |sx mx ex]; simpl; try contradiction;
  destruct y as [sy| | |sy my ey]; simpl; try contradiction; intros Hx Hy.
  - right; right. split; [ring|]. destruct sx, sy; now eexists.
  - replace (0 - F2R sy my ey)%R with (SF2R (S754_finite (negb sy) my ey)).
    + apply rounds_to_self. exact Hy.
    + simpl. unfold F2R. rewrite !cond_Zopp_IZR. destruct sy; simpl; ring.
  - rewrite Rminus_0_r. apply (rounds_to_self (S754_finite sx mx ex)). exact Hx.
  - match goal with |- rounds_to _ (binary_normalize _ _ ?z ?e _) =>
      pose proof (binary_normalize_spec z e false) as H end.
    rewrite minus_IZR, Rmult_minus_distr_r in H.
    change (IntDef.Z.min ex ey) with (Z.min ex ey) in *.
    pose proof (aligned_value sx mx ex ey) as H1.
    pose proof (aligned_value sy my ey ex) as H2.
    rewrite (Z.min_comm ey ex) in H2. rewrite H1, H2 in H. exact H.
Qed.

End FiniteOps.

(** ** Division of finite doubles *)

Section Division.

Lemma new_location_spec m2 r q (t : R) :
  0 < m2 -> 0 <= r < m2 -> t = (IZR q + IZR r / IZR m2)%R ->
  located (shr_record_of_loc q (new_location m2 r)) t.
Proof.
  intros Hm Hr ->.
  assert (Hm' : (0 < IZR m2)%R) by (apply IZR_lt; lia).
  assert (Hr0 : (0 <= IZR r)%R) by (apply IZR_le; lia).
  assert (Hhalf : forall c, Z.compare (2 * r) m2 = c ->
            match c with
            | Lt => (IZR r / IZR m2 < / 2)%R
            | Eq => (IZR r / IZR m2 = / 2)%R
            | Gt => (/ 2 < IZR r / IZR m2)%R
            end).
  { intros c Hc. destruct c.
    - apply Z.compare_eq in Hc. apply (f_equal IZR) in Hc. rewrite mult_IZR in Hc.
      apply Rmult_eq_reg_r with (IZR m2); [|lra]. unfold Rdiv.
      rewrite Rmult_assoc, Rinv_l by lra. lra.
    - rewrite Z.compare_lt_iff in Hc. apply IZR_lt in Hc. rewrite mult_IZR in Hc.
      apply Rmult_lt_reg_r with (IZR m2); [lra|]. unfold Rdiv.
      rewrite Rmult_assoc, Rinv_l by lra. lra.
    - rewrite Z.compare_gt_iff in Hc. apply IZR_lt in Hc. rewrite mult_IZR in Hc.
      apply Rmult_lt_reg_r with (IZR m2); [lra|]. unfold Rdiv.
      rewrite Rmult_assoc, Rinv_l by lra. lra. }
  assert (Hpos : r <> 0 -> (0 < IZR r / IZR m2 < 1)%R).
  { intros Hn. assert (0 < IZR r)%R by (apply IZR_lt; lia).
    assert (IZR r < IZR m2)%R by (apply IZR_lt; lia).
    split.
    - apply Rdiv_lt_0_compat; assumption.
    - apply Rmult_lt_reg_r with (IZR m2); [lra|]. unfold Rdiv.
      rewrite Rmult_assoc, Rinv_l by lra. lra. }
  assert (Hodd : Z.even m2 = false -> 2 * r <> m2).
  { intros Hev <-. rewrite Z.even_mul in Hev. discriminate. }
  unfold new_location.
  destruct (Z.even m2) eqn:Hev; unfold new_location_even, new_location_odd;
    destruct (Z.eqb_spec r 0) as [->|Hn];
    try (unfold located; simpl; unfold Rdiv; ring).
  - specialize (Hpos Hn). specialize (Hhalf _ eq_refl).
    destruct (2 * r ?= m2); unfold located; simpl; lra.
  - specialize (Hpos Hn). specialize (Hhalf _ eq_refl). specialize (Hodd eq_refl).
    destruct (2 * r ?= m2) eqn:Hc.
    + apply Z.compare_eq in Hc. contradiction.
    + rewrite Z.compare_lt_iff in Hc.
      destruct (2 * r + 1 ?= m2) eqn:Hc2; unfold located; simpl; try lra.
      rewrite Z.compare_gt_iff in Hc2. lia.
    + rewrite Z.compare_gt_iff in Hc.
      destruct (2 * r + 1 ?= m2) eqn:Hc2; unfold located; simpl; try lra.
      * apply Z.compare_eq in Hc2. lia.
      * rewrite Z.compare_lt_iff in Hc2. lia.
Qed.

Lemma div_core_spec m1 e1 m2 e2 :
  let '(q, e', l) := SFdiv_core_binary prec emax (Z.pos m1) e1 (Z.pos m2) e2 in
  0 <= q /\
  located (shr_record_of_loc q l)
          (IZR (Z.pos m1) * bpow e1 / (IZR (Z.pos m2) * bpow e2) * bpow (- e')) /\
  e' <= fexp (Zdigits2 q + e').
Proof.
  unfold SFdiv_core_binary.
  change (SpecFloat.fexp prec emax) with fexp.
  set (d1 := Zdigits2 (Z.pos m1)). set (d2 := Zdigits2 (Z.pos m2)).
  set (e' := Z.min (fexp (d1 + e1 - (d2 + e2))) (e1 - e2)).
  set (s := e1 - e2 - e').
  assert (Hs : 0 <= s) by (unfold s, e'; lia).
  set (m' := match s with Z.pos _ => Z.shiftl (Z.pos m1) s | 0 => Z.pos m1 | Z.neg _ => 0 end).
  assert (Hm' : m' = Z.pos m1 * 2 ^ s).
  { unfold m'. clear m'. clearbody s. destruct s; try lia.
    apply Z.shiftl_mul_pow2. lia. }
  pose proof (Z_div_mod m' (Z.pos m2) ltac:(lia)) as Hdm.
  destruct (Z.div_eucl m' (Z.pos m2)) as [q r]. destruct Hdm as [Hdm Hr].
  assert (H2s : 0 < 2 ^ s) by (apply Z.pow_pos_nonneg; lia).
  assert (Hq : 0 <= q) by nia.
  split; [exact Hq|]. split.
  - apply new_location_spec; [lia|lia|].
    assert (Hm2 : (0 < IZR (Z.pos m2))%R) by (apply IZR_lt; lia).
    replace (IZR q + IZR r / IZR (Z.pos m2))%R with (IZR m' / IZR (Z.pos m2))%R.
    2:{ rewrite Hdm, plus_IZR, mult_IZR. field. lra. }
    rewrite Hm', mult_IZR, <- (bpow_IZR s) by assumption.
    pose proof (bpow_gt_0 e2) as Hp2.
    replace (bpow e1) with (bpow s * bpow e2 * bpow e')%R.
    2:{ rewrite <- !bpow_add. f_equal. unfold s. lia. }
    rewrite bpow_opp. pose proof (bpow_gt_0 e'). field. lra.
  - rewrite fexp_eq.
    destruct (Z_le_gt_dec e' (-1074)) as [?|Hgt]; [lia|].
    assert (HF : e' <= d1 + e1 - (d2 + e2) - 53).
    { unfold e' in *. rewrite fexp_eq in *. lia. }
    pose proof (Zdigits2_bounds (Z.pos m1) ltac:(lia)) as [Ha1 Ha2].
    pose proof (Zdigits2_bounds (Z.pos m2) ltac:(lia)) as [Hb1 Hb2].
    fold d1 in Ha1, Ha2. fold d2 in Hb1, Hb2.
    assert (Hd1 : 0 < d1) by (unfold d1; simpl; lia).
    assert (Hd2 : 0 < d2) by (unfold d2; simpl; lia).
    set (j := d1 - 1 + s - d2).
    assert (Hj : 52 <= j) by (unfold j, s; lia).
    assert (Hqj : 2 ^ j <= q).
    { assert (Hpow : 2 ^ (d1 - 1) * 2 ^ s = 2 ^ j * 2 ^ d2).
      { rewrite <- !Z.pow_add_r by lia. f_equal. unfold j. lia. }
      assert (0 < 2 ^ j) by (apply Z.pow_pos_nonneg; lia).
      assert (2 ^ j * Z.pos m2 < Z.pos m2 * (q + 1)) by nia.
      nia. }
    assert (Hdq : j + 1 <= Zdigits2 q).
    { assert (0 < 2 ^ j) by (apply Z.pow_pos_nonneg; lia).
      pose proof (Zdigits2_bounds q ltac:(lia)) as [_ Hq2].
      destruct (Z_le_gt_dec (j + 1) (Zdigits2 q)); [assumption|].
      assert (2 ^ Zdigits2 q <= 2 ^ j) by (apply Z.pow_le_mono_r; [lia|lia]).
      lia. }
    unfold j, s in *. lia.
Qed.

Lemma div_spec x sy my ey :
  finite x -> rounds_to (SF2R x / F2R sy my ey) (div x (S754_finite sy my ey)).
Proof.
  destruct x as [sx| | |sx mx ex]; simpl; try contradiction; intros Hx.
  - right; right. split; [unfold Rdiv; ring|]. now eexists.
  - pose proof (div_core_spec mx ex my ey) as H.
    destruct (SFdiv_core_binary prec emax (Z.pos mx) ex (Z.pos my) ey) as [[q e'] l].
    destruct H as (Hq & Hloc & Hk).
    pose proof (bpow_gt_0 ex) as Hpx. pose proof (bpow_gt_0 ey) as Hpy.
    assert (Hmx : (0 < IZR (Z.pos mx))%R) by (apply IZR_lt; lia).
    assert (Hmy : (0 < IZR (Z.pos my))%R) by (apply IZR_lt; lia).
    set (P := (IZR (Z.pos mx) * bpow ex / (IZR (Z.pos my) * bpow ey))%R) in *.
    assert (HP : (0 < P)%R).
    { unfold P. apply Rdiv_lt_0_compat; nra. }
    apply (rounds_to_signed (xorb sx sy) P _ _ HP).
    + unfold F2R, P. rewrite !cond_Zopp_IZR.
      destruct sx, sy; simpl; field; lra.
    + apply bra_spec; [assumption|lra|assumption|assumption].
Qed.

End Division.

(** ** Comparison of doubles that are not negative *)

Section Compare.

Lemma bounded_lt_emax m e :
  bounded prec emax m e = true -> (IZR (Z.pos m) * bpow e < bpow emax)%R.
Proof.
  intros Hb. pose proof (bounded_digits m e Hb) as (Hd & He & _).
  pose proof (digits2_bounds m) as [_ Hm].
  apply Rlt_le_trans with (bpow 53 * bpow e)%R.
  - apply Rmult_lt_compat_r; [apply bpow_gt_0|].
    rewrite bpow_IZR by lia. apply IZR_lt.
    assert (2 ^ Z.pos (digits2_pos m) <= 2 ^ 53) by (apply Z.pow_le_mono_r; lia). lia.
  - rewrite <- bpow_add, emax_eq. apply bpow_le. lia.
Qed.

Lemma F2R_lt_exp m1 e1 m2 e2 :
  bounded prec emax m1 e1 = true -> bounded prec emax m2 e2 = true ->
  e1 < e2 -> (IZR (Z.pos m1) * bpow e1 < IZR (Z.pos m2) * bpow e2)%R.
Proof.
  intros H1 H2 He.
  pose proof (bounded_digits m1 e1 H1) as (Hd1 & He1 & _).
  pose proof (bounded_digits m2 e2 H2) as (Hd2 & He2 & Hn2).
  pose proof (digits2_bounds m1) as [_ Hm1].
  pose proof (digits2_bounds m2) as [Hm2 _].
  destruct Hn2 as [Hn2|Hn2]; [lia|]. rewrite Hn2 in Hm2.
  apply Rlt_le_trans with (bpow 53 * bpow e1)%R.
  - apply Rmult_lt_compat_r; [apply bpow_gt_0|].
    rewrite bpow_IZR by lia. apply IZR_lt.
    assert (2 ^ Z.pos (digits2_pos m1) <= 2 ^ 53) by (apply Z.pow_le_mono_r; lia). lia.
  - apply Rle_trans with (bpow 52 * bpow e2)%R.
    + rewrite <- !bpow_add. apply bpow_le. lia.
    + apply Rmult_le_compat_r; [apply Rlt_le, bpow_gt_0|].
      rewrite bpow_IZR by lia. apply IZR_le. exact Hm2.
Qed.

Lemma compare_pos_finite m1 e1 m2 e2 :
  bounded prec emax m1 e1 = true -> bounded prec emax m2 e2 = true ->
  match SFcompare (S754_finite false m1 e1) (S754_finite false m2 e2) with
  | Some Lt => (IZR (Z.pos m1) * bpow e1 < IZR (Z.pos m2) * bpow e2)%R
  | Some Eq => (IZR (Z.pos m1) * bpow e1 = IZR (Z.pos m2) * bpow e2)%R
  | Some Gt => (IZR (Z.pos m2) * bpow e2 < IZR (Z.pos m1) * bpow e1)%R
  | None => False
  end.
Proof.
  intros H1 H2. simpl.
  change (IntDef.Z.compare e1 e2) with (Z.compare e1 e2).
  destruct (Z.compare_spec e1 e2) as [He|He|He].
  - subst e2. change (PosDef.Pos.compare_cont Eq m1 m2) with (Pos.compare m1 m2).
    pose proof (bpow_gt_0 e1) as Hp.
    destruct (Pos.compare_spec m1 m2) as [Hm|Hm|Hm].
    + now subst.
    + apply Rmult_lt_compat_r; [assumption|]. apply IZR_lt. lia.
    + apply Rmult_lt_compat_r; [assumption|]. apply IZR_lt. lia.
  - now apply F2R_lt_exp.
  - now apply F2R_lt_exp.
Qed.

Lemma SF2R_nonneg x : nonneg x -> (0 <= SF2R x)%R.
Proof.
  destruct x as [s|[]| |[] m e]; simpl; try contradiction; intros H; try lra.
  unfold F2R. simpl. pose proof (bpow_gt_0 e).
  assert (0 < IZR (Z.pos m))%R by (apply IZR_lt; lia). nra.
Qed.

Lemma SF2R_pos m e : (0 < F2R false m e)%R.
Proof.
  unfold F2R. simpl. pose proof (bpow_gt_0 e).
  assert (0 < IZR (Z.pos m))%R by (apply IZR_lt; lia). nra.
Qed.

Lemma leb_nn_iff x y :
  nonneg x -> nonneg y ->
  (leb x y = true <-> (is_inf y \/ (~ is_inf x /\ (SF2R x <= SF2R y)%R))).
Proof.
  unfold leb, SFleb.
  destruct x as [sx|[]| |[] mx ex]; try contradiction;
  destruct y as [sy|[]| |[] my ey]; try contradiction; intros Hx Hy;
    try pose proof (SF2R_pos mx ex); try pose proof (SF2R_pos my ey);
    try (simpl; split;
         [ intros Hc; try discriminate Hc;
           solve [ left; exact I | right; split; [intros [] | lra] ]
         | intros [Hi|[Hni Hle]]; try reflexivity; try contradiction;
           solve [ exfalso; apply Hni; exact I | exfalso; lra ] ]).
  pose proof (compare_pos_finite mx ex my ey Hx Hy) as H1.
  destruct (SFcompare (S754_finite false mx ex) (S754_finite false my ey)) as [[]|];
    simpl SF2R; unfold F2R in *; simpl cond_Zopp in *.
  - split; [intros _; right; split; [intros []|lra] | reflexivity].
  - split; [intros _; right; split; [intros []|lra] | reflexivity].
  - split; [discriminate | intros [[]|[_ H2]]]. lra.
  - contradiction.
Qed.

Lemma gtb_nn_iff x y :
  nonneg x -> nonneg y -> (gtb x y = true <-> leb x y = false).
Proof.
  unfold gtb, leb, SFltb, SFleb.
  destruct x as [sx|[]| |[] mx ex]; try contradiction;
  destruct y as [sy|[]| |[] my ey]; try contradiction; intros Hx Hy;
    try (simpl; split; (reflexivity || discriminate)).
  pose proof (compare_pos_finite mx ex my ey Hx Hy) as H1.
  pose proof (compare_pos_finite my ey mx ex Hy Hx) as H2.
  destruct (SFcompare (S754_finite false mx ex) (S754_finite false my ey)) as [[]|];
  destruct (SFcompare (S754_finite false my ey) (S754_finite false mx ex)) as [[]|];
    try contradiction; try (split; (reflexivity || discriminate)); exfalso; lra.
Qed.

End Compare.

(** ** Rounding is monotone *)

Section Monotone.

Lemma rounded_weight_le v v' E E' n n' :
  (0 <= v <= v')%R -> grid v E -> grid v' E' ->
  nearest_even (v * bpow (- E)) n -> nearest_even (v' * bpow (- E')) n' ->
  (IZR n * bpow E <= IZR n' * bpow E')%R.
Proof.
  intros [Hv0 Hv] Hg Hg' Hn Hn'.
  pose proof (grid_unique_le _ _ _ _ Hv Hg Hg') as HE.
  pose proof (grid_bounds v E n Hv0 Hg Hn) as [[Hn0 Hn1] _].
  pose proof (grid_bounds v' E' n' ltac:(lra) Hg' Hn') as [_ Hn2].
  destruct (Z.eq_dec E E') as [<-|Hne].
  - apply Rmult_le_compat_r; [apply Rlt_le, bpow_gt_0|]. apply IZR_le.
    apply (nearest_even_mono _ _ _ _ (Rmult_le_compat_r _ _ _
             (Rlt_le _ _ (bpow_gt_0 (- E))) Hv) Hn Hn').
  - assert (HE' : emin < E').
    { destruct Hg as (He & _). lia. }
    specialize (Hn2 HE'). rewrite prec_eq in *.
    apply Rle_trans with (bpow 53 * bpow E)%R.
    + apply Rmult_le_compat_r; [apply Rlt_le, bpow_gt_0|].
      rewrite bpow_IZR by lia. apply IZR_le. exact Hn1.
    + apply Rle_trans with (bpow 52 * bpow E')%R.
      * rewrite <- !bpow_add. apply bpow_le. lia.
      * apply Rmult_le_compat_r; [apply Rlt_le, bpow_gt_0|].
        rewrite bpow_IZR by lia. apply IZR_le. exact Hn2.
Qed.

Lemma represents_nonneg w y : represents false w y -> nonneg y.
Proof.
  destruct y as [s|s| |s m e]; simpl.
  - auto.
  - intros [-> _]. exact I.
  - auto.
  - intros (-> & Hb & _). exact Hb.
Qed.

Lemma represents_value s w y :
  represents s w y ->
  (is_inf y /\ (bpow emax <= w)%R) \/
  (~ is_inf y /\ w = Rabs (SF2R y) /\ (w < bpow emax)%R).
Proof.
  destruct y as [s'|s'| |s' m e]; simpl.
  - intros [_ ->]. right. split; [tauto|]. rewrite Rabs_R0. split; [reflexivity|].
    apply bpow_gt_0.
  - intros [_ H]. left. auto.
  - contradiction.
  - intros (_ & Hb & ->). right. split; [tauto|]. split.
    + unfold F2R. rewrite cond_Zopp_IZR. pose proof (bpow_gt_0 e).
      assert (0 < IZR (Z.pos m))%R by (apply IZR_lt; lia).
      destruct s'.
      * rewrite Rabs_left by nra. ring.
      * rewrite Rabs_right by nra. ring.
    + now apply bounded_lt_emax.
Qed.

Lemma represents_le w w' y y' :
  (w <= w')%R -> represents false w y -> represents false w' y' ->
  leb y y' = true.
Proof.
  intros Hw Hy Hy'.
  pose proof (represents_nonneg _ _ Hy) as Hn.
  pose proof (represents_nonneg _ _ Hy') as Hn'.
  apply leb_nn_iff; try assumption.
  destruct (represents_value _ _ _ Hy') as [[Hi _]|(Hi' & Hv' & Hlt')]; [left; assumption|].
  right.
  destruct (represents_value _ _ _ Hy) as [[_ Hge]|(Hi & Hv & Hlt)]; [lra|].
  split; [assumption|].
  rewrite Rabs_right in Hv by (apply Rle_ge, SF2R_nonneg; assumption).
  rewrite Rabs_right in Hv' by (apply Rle_ge, SF2R_nonneg; assumption).
  lra.
Qed.

Lemma rounded_mono v v' y y' :
  (0 <= v <= v')%R -> rounded false v y -> rounded false v' y' ->
  leb y y' = true.
Proof.
  intros Hv (E & n & Hg & Hn & Hr) (E' & n' & Hg' & Hn' & Hr').
  eapply represents_le; [|exact Hr|exact Hr'].
  now apply rounded_weight_le with v v'.
Qed.

Lemma rounded_nonneg v y : rounded false v y -> nonneg y.
Proof. intros (E & n & _ & _ & Hr). now apply represents_nonneg with (IZR n * bpow E)%R. Qed.

Lemma rounds_to_nonneg v y : (0 <= v)%R -> rounds_to v y -> nonneg y.
Proof.
  intros Hv [[_ H]|[[H _]|[_ [s ->]]]].
  - now apply rounded_nonneg with v.
  - exfalso; lra.
  - exact I.
Qed.

Lemma zero_leb_nn s y : nonneg y -> leb (S754_zero s) y = true.
Proof. destruct y as [?|[]| |[] ? ?]; simpl; try contradiction; reflexivity. Qed.

Lemma rounds_to_mono v v' y y' :
  (0 <= v <= v')%R -> rounds_to v y -> rounds_to v' y' -> le_nn y y'.
Proof.
  intros Hv Hy Hy'.
  pose proof (rounds_to_nonneg v y ltac:(lra) Hy) as Hn.
  pose proof (rounds_to_nonneg v' y' ltac:(lra) Hy') as Hn'.
  split; [assumption|]. split; [assumption|].
  destruct Hy as [[H0 H]|[[H _]|[H0 [s ->]]]];
    [|exfalso; lra|now apply zero_leb_nn].
  destruct Hy' as [[H0' H']|[[H' _]|[H0' _]]]; [|exfalso; lra|exfalso; lra].
  now apply rounded_mono with v v'.
Qed.

End Monotone.

(** ** The order of the doubles that are not negative *)

Section NonNeg.

Lemma nonneg_inf x : nonneg x -> is_inf x -> x = Infinity.
Proof. destruct x as [?|[]| |[] ? ?]; simpl; try contradiction; reflexivity. Qed.

Lemma nonneg_finite x : nonneg x -> ~ is_inf x -> finite x.
Proof. destruct x as [?|[]| |[] ? ?]; simpl; try contradiction; tauto. Qed.

Lemma le_nn_inf y : nonneg y -> le_nn y Infinity.
Proof.
  intros H. split; [assumption|]. split; [exact I|].
  apply leb_nn_iff; simpl; auto.
Qed.

Lemma le_nn_refl x : nonneg x -> le_nn x x.
Proof.
  intros H. split; [assumption|]. split; [assumption|].
  apply leb_nn_iff; try assumption.
  destruct x as [?|[]| |[] ? ?]; simpl in *; try contradiction;
    try (left; exact I); right; split; try tauto; lra.
Qed.

Lemma le_nn_cases x x' :
  le_nn x x' ->
  x' = Infinity \/
  (finite x /\ finite x' /\ (0 <= SF2R x <= SF2R x')%R).
Proof.
  intros (Hx & Hx' & Hle). apply leb_nn_iff in Hle; try assumption.
  destruct Hle as [Hi|[Hni Hle]].
  - left. now apply nonneg_inf.
  - destruct x' as [?|[]| |[] ? ?]; simpl in Hx'; try contradiction.
    + right. split; [now apply nonneg_finite|]. split; [exact I|].
      split; [now apply SF2R_nonneg | assumption].
    + left. reflexivity.
    + right. split; [now apply nonneg_finite|]. split; [exact Hx'|].
      split; [now apply SF2R_nonneg | assumption].
Qed.

Lemma le_nn_trans x y z : le_nn x y -> le_nn y z -> le_nn x z.
Proof.
  intros Hxy Hyz.
  pose proof Hxy as (Hx & Hy & _). pose proof Hyz as (_ & Hz & _).
  destruct (le_nn_cases _ _ Hyz) as [->|(Hfy & Hfz & Hv2)]; [now apply le_nn_inf|].
  destruct (le_nn_cases _ _ Hxy) as [->|(Hfx & _ & Hv1)].
  - destruct Hyz as (_ & _ & Hle). apply leb_nn_iff in Hle; try assumption.
    split; [assumption|]. split; [assumption|]. apply leb_nn_iff; try assumption.
    destruct Hle as [Hi|[Hni _]]; [left; assumption|]. exfalso. apply Hni. exact I.
  - split; [assumption|]. split; [assumption|]. apply leb_nn_iff; try assumption.
    right. split; [|lra].
    destruct x as [?|?| |? ? ?]; simpl in *; tauto.
Qed.

Lemma leb_total_nn x y : nonneg x -> nonneg y -> leb x y = true \/ leb y x = true.
Proof.
  intros Hx Hy.
  destruct (leb x y) eqn:H1; [left; reflexivity|right].
  apply leb_nn_iff; try assumption.
  assert (H2 : ~ (is_inf y \/ ~ is_inf x /\ (SF2R x <= SF2R y)%R)).
  { intros H. apply (leb_nn_iff x y Hx Hy) in H. congruence. }
  destruct x as [?|[]| |[] ? ?]; simpl in *; try contradiction;
    try (left; exact I); right;
    (split; [intros Hi; apply H2; left; exact Hi|]);
    destruct (Rle_dec (SF2R y) 0); simpl in *; try lra;
    destruct (Rle_dec (SF2R y) (F2R false m e)); try lra;
    exfalso; apply H2; right; split; try tauto; simpl; lra.
Qed.

Lemma finite_not_inf x : finite x -> ~ is_inf x.
Proof. destruct x; simpl; tauto. Qed.

Lemma le_nn_of_values x x' :
  nonneg x -> nonneg x' -> finite x -> finite x' ->
  (SF2R x <= SF2R x')%R -> le_nn x x'.
Proof.
  intros Hx Hx' Hf Hf' Hv. split; [assumption|]. split; [assumption|].
  apply leb_nn_iff; try assumption. right. split; [now apply finite_not_inf | assumption].
Qed.

End NonNeg.

(** ** The operations are monotone on the doubles that are not negative *)

Section OpsNN.

Lemma add_Infinity_r x : nonneg x -> add x Infinity = Infinity.
Proof. destruct x as [?|[]| |[] ? ?]; simpl; try contradiction; reflexivity. Qed.

Lemma add_Infinity_l x : nonneg x -> add Infinity x = Infinity.
Proof. destruct x as [?|[]| |[] ? ?]; simpl; try contradiction; reflexivity. Qed.

Lemma add_nonneg x y : nonneg x -> nonneg y -> nonneg (add x y).
Proof.
  intros Hx Hy.
  destruct x as [sx|[]| |[] mx ex] eqn:Ex; simpl in Hx; try contradiction;
    try (rewrite (add_Infinity_l y Hy); exact I);
    destruct y as [sy|[]| |[] my ey] eqn:Ey; simpl in Hy; try contradiction;
    try (exact I).
  - simpl. destruct sx, sy; exact I.
  - exact Hy.
  - exact Hx.
  - apply rounds_to_nonneg with (SF2R (S754_finite false mx ex) + SF2R (S754_finite false my ey))%R.
    + pose proof (SF2R_pos mx ex). pose proof (SF2R_pos my ey). simpl. lra.
    + apply add_spec; assumption.
Qed.

Lemma add_mono x x' y y' :
  le_nn x x' -> le_nn y y' -> le_nn (add x y) (add x' y').
Proof.
  intros Hx Hy.
  pose proof Hx as (Hnx & Hnx' & _). pose proof Hy as (Hny & Hny' & _).
  pose proof (add_nonneg x y Hnx Hny) as Hn.
  destruct (le_nn_cases _ _ Hx) as [->|(Hfx & Hfx' & Hvx)].
  { rewrite add_Infinity_l by assumption. now apply le_nn_inf. }
  destruct (le_nn_cases _ _ Hy) as [->|(Hfy & Hfy' & Hvy)].
  { rewrite add_Infinity_r by assumption. now apply le_nn_inf. }
  apply rounds_to_mono with (SF2R x + SF2R y)%R (SF2R x' + SF2R y')%R.
  - lra.
  - now apply add_spec.
  - now apply add_spec.
Qed.

Lemma add_ge_l x y : nonneg x -> nonneg y -> le_nn x (add x y).
Proof.
  intros Hx Hy. pose proof (add_nonneg x y Hx Hy) as Hn.
  destruct (leb_nn_iff x x Hx Hx) as [_ Hxx].
  destruct x as [sx|[]| |[] mx ex] eqn:Ex; simpl in Hx; try contradiction.
  - split; [exact I|]. split; [assumption|]. now apply zero_leb_nn.
  - rewrite add_Infinity_l by assumption. now apply le_nn_inf.
  - destruct y as [sy|[]| |[] my ey] eqn:Ey; simpl in Hy; try contradiction.
    + simpl. now apply le_nn_refl.
    + simpl. now apply le_nn_inf.
    + apply rounds_to_mono with (SF2R (S754_finite false mx ex))
        (SF2R (S754_finite false mx ex) + SF2R (S754_finite false my ey))%R.
      * pose proof (SF2R_pos mx ex). pose proof (SF2R_pos my ey). simpl. lra.
      * now apply rounds_to_self.
      * now apply add_spec.
Qed.

End OpsNN.

Section MulDivSub.

Lemma pos_finite_nonneg c : pos_finite c -> nonneg c /\ finite c /\ (0 < SF2R c)%R.
Proof.
  destruct c as [?|?| |[] m e]; simpl; try contradiction. intros H.
  repeat split; try assumption. apply SF2R_pos.
Qed.

Lemma mul_Infinity_l c : nonneg c -> ~ is_zero c -> mul Infinity c = Infinity.
Proof. destruct c as [?|[]| |[] ? ?]; simpl; try contradiction; tauto. Qed.

Lemma mul_nonneg x c :
  nonneg x -> nonneg c -> finite c -> (is_inf x -> ~ is_zero c) -> nonneg (mul x c).
Proof.
  intros Hx Hc Hfc Hz.
  destruct x as [sx|[]| |[] mx ex] eqn:Ex; simpl in Hx; try contradiction.
  - destruct c as [?|[]| |[] ? ?]; simpl in *; try contradiction; exact I.
  - rewrite mul_Infinity_l; [exact I|assumption|apply Hz; exact I].
  - apply rounds_to_nonneg with (SF2R (S754_finite false mx ex) * SF2R c)%R.
    + pose proof (SF2R_pos mx ex). pose proof (SF2R_nonneg c Hc). simpl. nra.
    + apply mul_spec; assumption.
Qed.

Lemma mul_mono_r x x' c :
  le_nn x x' -> nonneg c -> finite c -> (is_inf x' -> ~ is_zero c) ->
  le_nn (mul x c) (mul x' c).
Proof.
  intros Hx Hc Hfc Hz. pose proof Hx as (Hnx & Hnx' & _).
  destruct (le_nn_cases _ _ Hx) as [->|(Hfx & Hfx' & Hvx)].
  - rewrite (mul_Infinity_l c) by (try assumption; apply Hz; exact I).
    apply le_nn_inf. apply mul_nonneg; try assumption.
    intros _. apply Hz. exact I.
  - pose proof (SF2R_nonneg c Hc).
    apply rounds_to_mono with (SF2R x * SF2R c)%R (SF2R x' * SF2R c)%R.
    + nra.
    + now apply mul_spec.
    + now apply mul_spec.
Qed.

Lemma mul_mono_l x c c' :
  nonneg x -> pos_finite c -> pos_finite c' -> le_nn c c' ->
  le_nn (mul x c) (mul x c').
Proof.
  intros Hx Hc Hc' Hle.
  destruct (pos_finite_nonneg c Hc) as (Hnc & Hfc & Hpc).
  destruct (pos_finite_nonneg c' Hc') as (Hnc' & Hfc' & Hpc').
  destruct (le_nn_cases _ _ Hle) as [->|(_ & _ & Hv)]; [contradiction|].
  destruct x as [sx|[]| |[] mx ex] eqn:Ex; simpl in Hx; try contradiction.
  - apply rounds_to_mono with (SF2R (S754_zero sx) * SF2R c)%R (SF2R (S754_zero sx) * SF2R c')%R.
    + simpl. lra.
    + now apply mul_spec.
    + now apply mul_spec.
  - rewrite !mul_Infinity_l; try assumption.
    + now apply le_nn_inf.
    + destruct c'; simpl in *; tauto.
    + destruct c; simpl in *; tauto.
  - pose proof (SF2R_pos mx ex).
    apply rounds_to_mono with (SF2R (S754_finite false mx ex) * SF2R c)%R
                              (SF2R (S754_finite false mx ex) * SF2R c')%R.
    + simpl. nra.
    + now apply mul_spec.
    + now apply mul_spec.
Qed.

Lemma div_Infinity_l d : pos_finite d -> div Infinity d = Infinity.
Proof. destruct d as [?|?| |[] ? ?]; simpl; try contradiction; reflexivity. Qed.

Lemma div_spec_pos x d :
  finite x -> pos_finite d -> rounds_to (SF2R x / SF2R d) (div x d).
Proof.
  destruct d as [?|?| |[] m e]; simpl; try contradiction. intros Hx _.
  now apply div_spec.
Qed.

Lemma div_nonneg x d : nonneg x -> pos_finite d -> nonneg (div x d).
Proof.
  intros Hx Hd. destruct (pos_finite_nonneg d Hd) as (Hnd & Hfd & Hpd).
  destruct x as [sx|[]| |[] mx ex] eqn:Ex; simpl in Hx; try contradiction.
  - destruct d as [?|?| |[] ? ?]; simpl in *; try contradiction; exact I.
  - rewrite div_Infinity_l by assumption. exact I.
  - apply rounds_to_nonneg with (SF2R (S754_finite false mx ex) / SF2R d)%R.
    + pose proof (SF2R_pos mx ex). simpl. apply Rlt_le, Rdiv_lt_0_compat; assumption.
    + apply div_spec_pos; assumption.
Qed.

Lemma div_mono x x' d :
  le_nn x x' -> pos_finite d -> le_nn (div x d) (div x' d).
Proof.
  intros Hx Hd. pose proof Hx as (Hnx & Hnx' & _).
  destruct (pos_finite_nonneg d Hd) as (Hnd & Hfd & Hpd).
  destruct (le_nn_cases _ _ Hx) as [->|(Hfx & Hfx' & Hvx)].
  - rewrite div_Infinity_l by assumption. apply le_nn_inf. now apply div_nonneg.
  - apply rounds_to_mono with (SF2R x / SF2R d)%R (SF2R x' / SF2R d)%R.
    + assert (0 < / SF2R d)%R by now apply Rinv_0_lt_compat.
      unfold Rdiv. nra.
    + now apply div_spec_pos.
    + now apply div_spec_pos.
Qed.

Lemma sub_Infinity_l c : nonneg c -> finite c -> sub Infinity c = Infinity.
Proof. destruct c as [?|[]| |[] ? ?]; simpl; try contradiction; reflexivity. Qed.

Lemma sub_mono x x' c :
  le_nn x x' -> finite c -> le_nn c x -> le_nn (sub x c) (sub x' c).
Proof.
  intros Hx Hfc Hc. pose proof Hx as (Hnx & Hnx' & _). pose proof Hc as (Hnc & _ & _).
  assert (Hsub : forall z, le_nn c z -> nonneg (sub z c)).
  { intros z Hz. destruct (le_nn_cases _ _ Hz) as [->|(_ & Hfz & Hvz)].
    - rewrite sub_Infinity_l by assumption. exact I.
    - apply rounds_to_nonneg with (SF2R z - SF2R c)%R; [lra|]. now apply sub_spec. }
  destruct (le_nn_cases _ _ Hx) as [->|(Hfx & Hfx' & Hvx)].
  - rewrite sub_Infinity_l by assumption. apply le_nn_inf. now apply Hsub.
  - destruct (le_nn_cases _ _ Hc) as [->|(_ & _ & Hvc)]; [contradiction|].
    apply rounds_to_mono with (SF2R x - SF2R c)%R (SF2R x' - SF2R c)%R.
    + lra.
    + now apply sub_spec.
    + now apply sub_spec.
Qed.

Lemma sub_le_l x c :
  nonneg x -> finite c -> le_nn c x -> le_nn (sub x c) x.
Proof.
  intros Hx Hfc Hc. pose proof Hc as (Hnc & _ & _).
  destruct (le_nn_cases _ _ Hc) as [->|(_ & Hfx & Hvc)].
  - rewrite sub_Infinity_l by assumption. now apply le_nn_inf.
  - apply rounds_to_mono with (SF2R x - SF2R c)%R (SF2R x).
    + lra.
    + now apply sub_spec.
    + now apply rounds_to_self.
Qed.

End MulDivSub.

(** ** [Math.min] *)

Section MinMax.

Lemma leb_false_nn x y : nonneg x -> nonneg y -> leb x y = false -> le_nn y x.
Proof.
  intros Hx Hy H. split; [assumption|]. split; [assumption|].
  destruct (leb_total_nn x y Hx Hy); congruence.
Qed.

Lemma zero_le_nn s y : nonneg y -> le_nn (S754_zero s) y.
Proof. intros H. split; [exact I|]. split; [assumption|]. now apply zero_leb_nn. Qed.

Lemma min_spec_nn x M :
  nonneg x -> nonneg M ->
  le_nn (min x M) x /\ le_nn (min x M) M /\
  (le_nn x (min x M) \/ le_nn M (min x M)).
Proof.
  intros Hx HM. unfold min.
  pose proof (le_nn_refl x Hx) as Hxx. pose proof (le_nn_refl M HM) as HMM.
  destruct (SFcompare x M) as [[]|] eqn:Hc.
  - assert (Hle : le_nn x M).
    { split; [assumption|]. split; [assumption|]. unfold leb, SFleb. now rewrite Hc. }
    destruct x as [sx| | |]; destruct M as [sM| | |];
      try (split; [exact Hxx | split; [exact Hle | left; exact Hxx]]).
  - assert (Hle : le_nn x M).
    { split; [assumption|]. split; [assumption|]. unfold leb, SFleb. now rewrite Hc. }
    split; [exact Hxx | split; [exact Hle | left; exact Hxx]].
  - assert (Hle : le_nn M x).
    { apply leb_false_nn; try assumption. unfold leb, SFleb. now rewrite Hc. }
    split; [exact Hle | split; [exact HMM | right; exact HMM]].
  - exfalso. destruct x as [sx|[]| |[] mx ex]; simpl in Hx; try contradiction;
      destruct M as [sM|[]| |[] mM eM]; simpl in HM; try contradiction; discriminate.
Qed.

Lemma min_mono x x' M :
  le_nn x x' -> nonneg M -> le_nn (min x M) (min x' M).
Proof.
  intros Hx HM. pose proof Hx as (Hnx & Hnx' & _).
  destruct (min_spec_nn x M Hnx HM) as (H1 & H2 & _).
  destruct (min_spec_nn x' M Hnx' HM) as (_ & _ & [H3|H3]).
  - apply le_nn_trans with x'; [|assumption]. now apply le_nn_trans with x.
  - now apply le_nn_trans with M.
Qed.

Lemma min_glb x M c :
  le_nn c x -> le_nn c M -> le_nn c (min x M).
Proof.
  intros Hx HM. pose proof Hx as (_ & Hnx & _). pose proof HM as (_ & HnM & _).
  destruct (min_spec_nn x M Hnx HnM) as (_ & _ & [H3|H3]).
  - now apply le_nn_trans with x.
  - now apply le_nn_trans with M.
Qed.

End MinMax.

(** ** [Math.round] *)

Section RoundInt.

Lemma Zdiv_floor a b : 0 < b -> a / b = Zfloor (IZR a / IZR b).
Proof.
  intros Hb. symmetry. apply Zfloor_eq.
  assert (Hb' : (0 < IZR b)%R) by (apply IZR_lt; lia).
  pose proof (Z.div_mod a b ltac:(lia)) as Hdm.
  pose proof (Z.mod_pos_bound a b Hb) as Hr.
  assert (Ha : IZR a = (IZR b * IZR (a / b) + IZR (a mod b))%R).
  { rewrite <- mult_IZR, <- plus_IZR. f_equal. exact Hdm. }
  assert (H0 : (0 <= IZR (a mod b))%R) by (apply IZR_le; lia).
  assert (H1 : (IZR (a mod b) < IZR b)%R) by (apply IZR_lt; lia).
  split.
  - apply Rmult_le_reg_r with (IZR b); [assumption|]. unfold Rdiv.
    rewrite Rmult_assoc, Rinv_l by lra. nra.
  - apply Rmult_lt_reg_r with (IZR b); [assumption|]. unfold Rdiv.
    rewrite Rmult_assoc, Rinv_l by lra. nra.
Qed.

Lemma round_quotient m e : e < 0 ->
  (2 * m + 2 ^ (- e)) / 2 ^ (1 - e) = Zfloor (IZR m * bpow e + / 2).
Proof.
  intros He. rewrite Zdiv_floor by (apply Z.pow_pos_nonneg; lia).
  f_equal. rewrite plus_IZR, mult_IZR, <- !bpow_IZR by lia.
  replace (1 - e) with (1 + - e) by lia. rewrite bpow_add, bpow_1.
  pose proof (bpow_gt_0 (- e)) as Hp. pose proof (bpow_mul_opp e) as Hq.
  apply Rmult_eq_reg_r with (2 * bpow (- e))%R; [|lra]. unfold Rdiv.
  rewrite Rmult_assoc, Rinv_l by lra.
  replace ((IZR m * bpow e + / 2) * (2 * bpow (- e)))%R
    with (2 * IZR m * (bpow e * bpow (- e)) + bpow (- e))%R by field.
  rewrite Hq. ring.
Qed.

Lemma rounded_exact s M e y :
  0 < M < 2 ^ 53 -> emin <= e ->
  rounded s (IZR M * bpow e) y -> represents s (IZR M * bpow e) y.
Proof.
  intros [HM0 HM] He (E & n & (Hg1 & Hg2 & Hg3) & Hn & Hr).
  rewrite prec_eq in *.
  assert (HEe : E <= e).
  { destruct Hg3 as [->|Hg3]; [assumption|].
    assert (H : (bpow (E + 53 - 1) < bpow (53 + e))%R).
    { eapply Rle_lt_trans; [exact Hg3|]. rewrite bpow_add.
      apply Rmult_lt_compat_r; [apply bpow_gt_0|].
      rewrite bpow_IZR by lia. apply IZR_lt. exact HM. }
    apply bpow_lt_inv in H. lia. }
  assert (Hk : n = M * 2 ^ (e - E)).
  { apply (nearest_even_int _ _ _ Hn).
    rewrite mult_IZR, <- bpow_IZR by lia. rewrite !Rmult_assoc, <- bpow_add.
    do 2 f_equal; lia. }
  replace (IZR M * bpow e)%R with (IZR n * bpow E)%R; [exact Hr|].
  rewrite Hk. replace E with (e - (e - E)) at 2 by lia. apply IZR_shift. lia.
Qed.

Lemma of_nat_value n :
  0 <= n < 2 ^ 53 ->
  nonneg (binary_normalize prec emax n 0 false) /\
  finite (binary_normalize prec emax n 0 false) /\
  SF2R (binary_normalize prec emax n 0 false) = IZR n.
Proof.
  intros [Hn0 Hn].
  destruct n as [|p|p]; try lia.
  - simpl. auto.
  - pose proof (binary_round_spec false p 0) as Hr.
    change (binary_normalize prec emax (Z.pos p) 0 false)
      with (binary_round prec emax false p 0).
    apply rounded_exact in Hr; [|lia|rewrite emin_eq; lia].
    rewrite bpow_0, Rmult_1_r in Hr.
    pose proof (represents_nonneg _ _ Hr) as Hnn.
    destruct (represents_value _ _ _ Hr) as [[_ Hge]|(Hi & Hv & _)].
    + exfalso. assert (IZR (Z.pos p) < bpow 53)%R.
      { rewrite bpow_IZR by lia. now apply IZR_lt. }
      assert (bpow 53 <= bpow emax)%R by (apply bpow_le; rewrite emax_eq; lia). lra.
    + split; [assumption|]. split; [now apply nonneg_finite|].
      rewrite Rabs_right in Hv by (apply Rle_ge, SF2R_nonneg; assumption).
      symmetry. exact Hv.
Qed.

Lemma round_spec_nn x :
  nonneg x -> finite x ->
  nonneg (round x) /\ finite (round x) /\
  SF2R (round x) = IZR (Zfloor (SF2R x + / 2)).
Proof.
  intros Hn Hf.
  destruct x as [s|[]| |[] m e]; simpl in Hn, Hf; try contradiction.
  - simpl. repeat split; auto. f_equal. symmetry. apply Zfloor_eq. simpl. lra.
  - unfold round. destruct (Z.leb_spec 0 e) as [He|He].
    + split; [exact Hn|]. split; [exact Hf|]. simpl. unfold F2R. simpl cond_Zopp.
      rewrite bpow_IZR by assumption. rewrite <- mult_IZR. f_equal.
      symmetry. apply Zfloor_eq. lra.
    + rewrite round_quotient by assumption.
      pose proof (bounded_digits m e Hn) as (Hd & He' & _).
      pose proof (digits2_bounds m) as [_ Hm].
      set (v := (IZR (Z.pos m) * bpow e)%R).
      assert (Hv0 : (0 < v)%R).
      { unfold v. pose proof (bpow_gt_0 e).
        assert (0 < IZR (Z.pos m))%R by (apply IZR_lt; lia). nra. }
      assert (Hv1 : (v < bpow 52)%R).
      { unfold v. apply Rlt_le_trans with (bpow 53 * bpow e)%R.
        - apply Rmult_lt_compat_r; [apply bpow_gt_0|].
          rewrite bpow_IZR by lia. apply IZR_lt.
          assert (2 ^ Z.pos (digits2_pos m) <= 2 ^ 53) by (apply Z.pow_le_mono_r; lia).
          lia.
        - rewrite <- bpow_add. apply bpow_le. lia. }
      pose proof (Zfloor_bound (v + / 2)) as [Hfl1 Hfl2].
      assert (Hrange : 0 <= Zfloor (v + / 2) < 2 ^ 53).
      { split.
        - apply Zfloor_lub. simpl. lra.
        - apply lt_IZR. rewrite (bpow_IZR 52) in Hv1 by lia.
          apply Rle_lt_trans with (v + / 2)%R; [assumption|].
          apply Rlt_le_trans with (IZR (2 ^ 52) + 1)%R; [lra|].
          rewrite <- plus_IZR. apply IZR_le. lia. }
      destruct (of_nat_value _ Hrange) as (H1 & H2 & H3).
      split; [exact H1|]. split; [exact H2|]. exact H3.
Qed.

Lemma round_nonneg x : nonneg x -> nonneg (round x).
Proof.
  intros Hn. destruct x as [s|[]| |[] m e] eqn:Ex; simpl in Hn; try contradiction;
    try exact I.
  apply (round_spec_nn (S754_finite false m e)); assumption.
Qed.

Lemma round_mono x x' : le_nn x x' -> le_nn (round x) (round x').
Proof.
  intros Hx. pose proof Hx as (Hnx & Hnx' & _).
  destruct (le_nn_cases _ _ Hx) as [->|(Hfx & Hfx' & Hv)].
  - apply le_nn_inf. now apply round_nonneg.
  - destruct (round_spec_nn x Hnx Hfx) as (H1 & H2 & H3).
    destruct (round_spec_nn x' Hnx' Hfx') as (H1' & H2' & H3').
    apply le_nn_of_values; try assumption.
    rewrite H3, H3'. apply IZR_le, Zfloor_le. lra.
Qed.

End RoundInt.

(** ** The progressive tax function is monotone *)

Section IncomeTax.

Lemma taxSlabs_wf : Forall wf_slab taxSlabs.
Proof.
  unfold taxSlabs.
  repeat (apply Forall_cons; [unfold wf_slab, le_nn; vm_compute; intuition discriminate|]).
  apply Forall_nil.
Qed.

Lemma le_nn_not_inf y z : le_nn y z -> ~ is_inf z -> ~ is_inf y.
Proof.
  intros H Hz. destruct (le_nn_cases _ _ H) as [->|(Hf & _ & _)].
  - exfalso. apply Hz. exact I.
  - now apply finite_not_inf.
Qed.

Lemma gate_le_nn a c : nonneg a -> nonneg c -> gtb a c = true -> le_nn c a.
Proof.
  intros Ha Hc Hg. apply leb_false_nn; try assumption.
  now apply gtb_nn_iff.
Qed.

Lemma gate_mono a a' c :
  le_nn a a' -> nonneg c -> gtb a c = true -> gtb a' c = true.
Proof.
  intros Ha Hc Hg. pose proof Ha as (Hna & Hna' & _).
  apply gtb_nn_iff; try assumption.
  destruct (leb a' c) eqn:Hle; [exfalso|reflexivity].
  assert (H : le_nn a c).
  { apply le_nn_trans with a'; [assumption|]. now repeat split. }
  destruct H as (_ & _ & H). apply gtb_nn_iff in Hg; try assumption. congruence.
Qed.

Lemma pos_finite_100 : pos_finite (of_Z 100).
Proof. reflexivity. Qed.

Lemma contribution_mono a a' s :
  wf_slab s -> le_nn a a' -> gtb a (slab_min s) = true ->
  le_nn (div (mul (sub (min a (slab_max s)) (slab_min s)) (slab_rate s)) (of_Z 100))
        (div (mul (sub (min a' (slab_max s)) (slab_min s)) (slab_rate s)) (of_Z 100)).
Proof.
  intros (Hfm & Hmm & Hnr & Hfr & Hz) Ha Hg.
  pose proof Ha as (Hna & Hna' & _). pose proof Hmm as (Hnm & HnM & _).
  apply div_mono; [|exact pos_finite_100].
  apply mul_mono_r; try assumption.
  - apply sub_mono; try assumption.
    + now apply min_mono.
    + apply min_glb; [|assumption]. now apply gate_le_nn.
  - intros Hi. apply Hz.
    destruct (slab_max s) as [sM|[]| |[] mM eM] eqn:EM; simpl in HnM; try contradiction;
      try exact I; exfalso; revert Hi.
    + apply le_nn_not_inf with (min a' (S754_zero sM)).
      * apply sub_le_l; try assumption.
        -- apply min_spec_nn; [assumption|exact I].
        -- apply min_glb; [|assumption].
           apply gate_le_nn; try assumption. now apply gate_mono with a.
      * apply le_nn_not_inf with (S754_zero sM); [|simpl; tauto].
        apply min_spec_nn; [assumption|exact I].
    + apply le_nn_not_inf with (min a' (S754_finite false mM eM)).
      * apply sub_le_l; try assumption.
        -- apply min_spec_nn; assumption.
        -- apply min_glb; [|assumption].
           apply gate_le_nn; try assumption. now apply gate_mono with a.
      * apply le_nn_not_inf with (S754_finite false mM eM); [|simpl; tauto].
        apply min_spec_nn; assumption.
Qed.

Lemma slabStep_mono a a' t t' s :
  wf_slab s -> le_nn a a' -> le_nn t t' ->
  le_nn (slabStep a t s) (slabStep a' t' s).
Proof.
  intros Hs Ha Ht. unfold slabStep.
  pose proof Hs as (Hfm & Hmm & _). pose proof Hmm as (Hnm & _ & _).
  pose proof Ha as (Hna & Hna' & _). pose proof Ht as (Hnt & Hnt' & _).
  destruct (gtb a (slab_min s)) eqn:Hg.
  - rewrite (gate_mono a a' _ Ha Hnm Hg).
    apply add_mono; [assumption|]. now apply contribution_mono.
  - destruct (gtb a' (slab_min s)) eqn:Hg'; [|assumption].
    apply le_nn_trans with t'; [assumption|].
    apply add_ge_l; [assumption|].
    apply (contribution_mono a' a' s Hs (le_nn_refl a' Hna') Hg').
Qed.

Lemma fold_slabStep_mono slabs a a' t t' :
  Forall wf_slab slabs -> le_nn a a' -> le_nn t t' ->
  le_nn (fold_left (slabStep a) slabs t) (fold_left (slabStep a') slabs t').
Proof.
  intros Hs Ha. revert t t'. induction Hs as [|s slabs Hs _ IH]; intros t t' Ht.
  - exact Ht.
  - simpl. apply IH. now apply slabStep_mono.
Qed.

Lemma cess_pos_finite : pos_finite (decimal 104 100).
Proof. reflexivity. Qed.

Lemma calculateIncomeTax_mono a a' :
  le_nn a a' -> le_nn (calculateIncomeTax a) (calculateIncomeTax a').
Proof.
  intros Ha. unfold calculateIncomeTax, slabTax.
  apply round_mono.
  destruct (pos_finite_nonneg _ cess_pos_finite) as (Hn & Hf & _).
  apply mul_mono_r; try assumption.
  - apply fold_slabStep_mono; [exact taxSlabs_wf | assumption |].
    apply le_nn_refl. exact I.
  - intros _. unfold is_zero. vm_compute. tauto.
Qed.

Lemma number_nonneg x :
  is_number x -> leb (of_Z 0) x = true -> nonneg x.
Proof.
  unfold is_number.
  destruct x as [s|[]| |[] m e]; simpl; intros Hv Hle; try exact I;
    try discriminate Hle. exact Hv.
Qed.

Lemma nonneg_above x y : nonneg x -> is_number y -> leb x y = true -> nonneg y.
Proof.
  unfold is_number, leb, SFleb.
  destruct x as [sx|[]| |[] mx ex]; simpl; try contradiction;
  destruct y as [s|[]| |[] m e]; simpl; intros Hx Hv Hle; try exact I;
    try discriminate Hle; exact Hv.
Qed.

End IncomeTax.

(** ** Signs, [Math.max] with zero, and the error of a rounding *)

Section SignLemmas.

Lemma represents_neg_like w y : represents true w y -> neg_like y.
Proof.
  destruct y as [s|s| |s m e]; simpl.
  - auto.
  - intros [-> _]. exact I.
  - auto.
  - intros (-> & Hb & _). exact Hb.
Qed.

Lemma rounds_to_neg_like v y : (v <= 0)%R -> rounds_to v y -> neg_like y.
Proof.
  intros Hv [[H _]|[[_ (E & n & _ & _ & Hr)]|[_ [s ->]]]].
  - exfalso; lra.
  - now apply represents_neg_like with (IZR n * bpow E)%R.
  - exact I.
Qed.

Lemma neg_like_value y : neg_like y -> (SF2R y <= 0)%R.
Proof.
  destruct y as [s|[]| |[] m e]; simpl; try contradiction; intros _; try lra.
  unfold F2R. simpl. pose proof (bpow_gt_0 e).
  assert (0 < IZR (Z.pos m))%R by (apply IZR_lt; lia).
  change (Z.neg m) with (- Z.pos m). rewrite opp_IZR. nra.
Qed.

Lemma neg_like_finite y : neg_like y -> ~ is_inf y -> finite y.
Proof. destruct y as [s|[]| |[] m e]; simpl; try contradiction; tauto. Qed.

Lemma max0_neg_like y : neg_like y -> max (of_Z 0) y = of_Z 0.
Proof. destruct y as [[]|[]| |[] m e]; simpl; try contradiction; reflexivity. Qed.

Lemma max0_nonneg y :
  nonneg y -> le_nn y (max (of_Z 0) y) /\ le_nn (max (of_Z 0) y) y.
Proof.
  intros Hy. pose proof (le_nn_refl y Hy) as Hr.
  destruct y as [[]|[]| |[] m e]; simpl in Hy; try contradiction;
    split; try exact Hr; apply zero_le_nn; exact I.
Qed.

Lemma max0_mono y y' :
  le_nn y y' -> le_nn (max (of_Z 0) y) (max (of_Z 0) y').
Proof.
  intros H. pose proof H as (Hy & Hy' & _).
  destruct (max0_nonneg y Hy) as [_ H1]. destruct (max0_nonneg y' Hy') as [H2 _].
  apply le_nn_trans with y; [assumption|]. now apply le_nn_trans with y'.
Qed.

Lemma sub_neg_like y c :
  neg_like y -> nonneg c -> finite c -> neg_like (sub y c).
Proof.
  intros Hy Hc Hfc.
  destruct y as [sy|[]| |[] my ey] eqn:Ey; simpl in Hy; try contradiction.
  - apply rounds_to_neg_like with (SF2R (S754_zero sy) - SF2R c)%R.
    + pose proof (SF2R_nonneg c Hc). simpl. lra.
    + apply sub_spec; [exact I | assumption].
  - destruct c as [?|[]| |[] ? ?]; simpl in *; try contradiction; exact I.
  - apply rounds_to_neg_like with (SF2R (S754_finite true my ey) - SF2R c)%R.
    + pose proof (SF2R_nonneg c Hc).
      pose proof (neg_like_value (S754_finite true my ey) Hy). lra.
    + apply sub_spec; assumption.
Qed.

Lemma rounded_mag s v v' y y' :
  (0 <= v <= v')%R -> rounded s v y -> rounded s v' y' -> ~ is_inf y' ->
  ~ is_inf y /\ (Rabs (SF2R y) <= Rabs (SF2R y'))%R.
Proof.
  intros Hv (E & n & Hg & Hn & Hr) (E' & n' & Hg' & Hn' & Hr') Hi'.
  pose proof (rounded_weight_le _ _ _ _ _ _ Hv Hg Hg' Hn Hn') as Hw.
  destruct (represents_value _ _ _ Hr') as [[Hi _]|(_ & Hv' & Hlt')]; [contradiction|].
  destruct (represents_value _ _ _ Hr) as [[_ Hge]|(Hi & Hv1 & Hlt)]; [exfalso; lra|].
  split; [assumption|]. lra.
Qed.

(** Relative error of a rounding in the normal range. *)
Lemma rounded_error s v y :
  (bpow (-1022) <= v)%R -> rounded s v y -> ~ is_inf y ->
  (v * (1 - bpow (-53)) <= Rabs (SF2R y) <= v * (1 + bpow (-53)))%R.
Proof.
  intros Hv (E & n & (Hg1 & Hg2 & Hg3) & [Hn _] & Hr) Hi.
  destruct (represents_value _ _ _ Hr) as [[Hi' _]|(_ & Hval & _)]; [contradiction|].
  rewrite <- Hval. rewrite prec_eq, emin_eq in *.
  assert (HE : (bpow (E + 52) <= v)%R).
  { destruct Hg3 as [->|Hg3].
    - exact Hv.
    - replace (E + 52) with (E + 53 - 1) by lia. exact Hg3. }
  pose proof (bpow_gt_0 E) as HpE. pose proof (bpow_gt_0 (- E)) as HpmE.
  pose proof (bpow_mul_opp E) as Hq.
  assert (Herr : (- (bpow E / 2) <= v - IZR n * bpow E <= bpow E / 2)%R).
  { replace (v - IZR n * bpow E)%R with ((v * bpow (- E) - IZR n) * bpow E)%R.
    - split; nra.
    - rewrite Rmult_minus_distr_r, Rmult_assoc, (Rmult_comm (bpow (- E))), Hq. ring. }
  assert (Hhalf : (bpow E / 2 <= v * bpow (-53))%R).
  { replace (bpow E) with (bpow (E + 52) * bpow (-52))%R.
    - replace (bpow (-53)) with (bpow (-52) / 2)%R.
      + pose proof (bpow_gt_0 (-52)). nra.
      + replace (-52) with (-53 + 1) by lia. rewrite bpow_succ. field.
    - rewrite <- bpow_add. f_equal. lia. }
  split; lra.
Qed.

End SignLemmas.

(** ** The constants of the service *)

Section Constants.

Lemma bpow_neg_IZR k : 0 <= k -> bpow (- k) = (/ IZR (2 ^ k))%R.
Proof. intros Hk. now rewrite bpow_opp, bpow_IZR. Qed.

Lemma of_Z_value n :
  0 <= n < 2 ^ 53 -> nonneg (of_Z n) /\ finite (of_Z n) /\ SF2R (of_Z n) = IZR n.
Proof. apply of_nat_value. Qed.

Lemma standardDeduction_value :
  nonneg standardDeduction /\ finite standardDeduction /\
  SF2R standardDeduction = 50000%R.
Proof. apply (of_Z_value 50000). lia. Qed.

Lemma healthInsuranceDeduction_value :
  nonneg healthInsuranceDeduction /\ finite healthInsuranceDeduction /\
  SF2R healthInsuranceDeduction = 25000%R.
Proof. apply (of_Z_value 25000). lia. Qed.

Lemma decimal_5_10 : decimal 5 10 = S754_finite false 4503599627370496 (-53).
Proof. vm_compute. reflexivity. Qed.

Lemma decimal_1_10 : decimal 1 10 = S754_finite false 7205759403792794 (-56).
Proof. vm_compute. reflexivity. Qed.

Lemma half_value :
  pos_finite (decimal 5 10) /\ SF2R (decimal 5 10) = (/ 2)%R.
Proof.
  rewrite decimal_5_10. split; [vm_compute; reflexivity|].
  unfold SF2R, F2R. simpl cond_Zopp.
  change (bpow (-53)) with (bpow (- (53))). rewrite (bpow_neg_IZR 53) by lia.
  change (2 ^ 53) with 9007199254740992. lra.
Qed.

Lemma tenth_value :
  pos_finite (decimal 1 10) /\
  (9 / 100 <= SF2R (decimal 1 10) <= 11 / 100)%R.
Proof.
  rewrite decimal_1_10. split; [vm_compute; reflexivity|].
  unfold SF2R, F2R. simpl cond_Zopp.
  change (bpow (-56)) with (bpow (- (56))). rewrite (bpow_neg_IZR 56) by lia.
  change (2 ^ 56) with 72057594037927936. lra.
Qed.

Lemma eps_small : (bpow (-53) <= 1 / 1000)%R.
Proof.
  change (bpow (-53)) with (bpow (- (53))). rewrite (bpow_neg_IZR 53) by lia.
  change (2 ^ 53) with 9007199254740992. lra.
Qed.

Lemma normal_one : (bpow (-1022) <= 1)%R.
Proof. rewrite <- bpow_0. apply bpow_le. lia. Qed.

End Constants.

(** ** A negative income is clamped *)

Section NegativeIncome.

Variables (c5 c1 D Hd : number).
Hypothesis Hc5 : pos_finite c5.
Hypothesis Hc1 : pos_finite c1.
Hypothesis Hc1_le : (SF2R c1 <= 1)%R.
Hypothesis HD : nonneg D /\ finite D.
Hypothesis HHd : nonneg Hd /\ finite Hd.

(** A negative finite income, less deductions that are not negative, is
    clamped to +0 on both paths. *)
Lemma negative_clamps m e :
  bounded prec emax m e = true ->
  let t := S754_finite true m e in
  max (of_Z 0) (sub (mul t c5) D) = of_Z 0 /\
  max (of_Z 0) (sub (sub (sub t (mul t c1)) D) Hd) = of_Z 0.
Proof.
  intros Hb t.
  assert (Hft : finite t) by exact Hb.
  assert (HT : (SF2R t < 0)%R).
  { unfold t, SF2R, F2R. simpl cond_Zopp. pose proof (bpow_gt_0 e).
    assert (0 < IZR (Z.pos m))%R by (apply IZR_lt; lia).
    change (Z.neg m) with (- Z.pos m). rewrite opp_IZR. nra. }
  destruct HD as (HnD & HfD). destruct HHd as (HnH & HfH).
  destruct (pos_finite_nonneg _ Hc5) as (Hn5 & Hf5 & Hv5).
  destruct (pos_finite_nonneg _ Hc1) as (Hn1 & Hf1 & Hv1).
  split.
  - apply max0_neg_like, sub_neg_like; try assumption.
    apply rounds_to_neg_like with (SF2R t * SF2R c5)%R.
    + nra.
    + exact (mul_spec t c5 Hft Hf5).
  - set (u := mul t c1).
    pose proof (mul_spec t c1 Hft Hf1) as Hu. fold u in Hu.
    set (c := SF2R c1) in *. set (T := SF2R t) in *.
    assert (Hneg : (T * c < 0)%R) by nra.
    assert (Hnu : neg_like u).
    { apply rounds_to_neg_like with (T * c)%R; [lra|exact Hu]. }
    destruct Hu as [[H _]|[[_ Hu]|[H _]]]; [exfalso; lra| |exfalso; lra].
    assert (Ht : rounded true (- T) t).
    { replace (- T)%R with (IZR (Z.pos m) * bpow e)%R.
      - now apply rounded_self.
      - unfold T, t, SF2R, F2R. simpl cond_Zopp.
        change (Z.neg m) with (- Z.pos m). rewrite opp_IZR. ring. }
    assert (Hord : (0 <= - (T * c) <= - T)%R) by (split; nra).
    destruct (rounded_mag true _ _ u t Hord Hu Ht ltac:(simpl; tauto))
      as [Hiu Hmag].
    pose proof (neg_like_value u Hnu) as HU.
    fold T in Hmag. rewrite (Rabs_left1 _ HU), (Rabs_left _ HT) in Hmag.
    assert (Hfu : finite u) by now apply neg_like_finite.
    assert (Hr1 : neg_like (sub t u)).
    { apply rounds_to_neg_like with (T - SF2R u)%R; [lra|].
      exact (sub_spec t u Hft Hfu). }
    apply max0_neg_like. apply sub_neg_like; try assumption.
    apply sub_neg_like; assumption.
Qed.

End NegativeIncome.

(** ** The two taxable incomes are in order *)

Section ErrorBounds.

Lemma rounds_to_error v y :
  (1 <= v)%R -> rounds_to v y -> finite y ->
  nonneg y /\ (v * (999 / 1000) <= SF2R y <= v * (1001 / 1000))%R.
Proof.
  intros Hv Hr Hf.
  pose proof (rounds_to_nonneg v y ltac:(lra) Hr) as Hn.
  split; [assumption|].
  destruct Hr as [[_ Hr]|[[H _]|[H _]]]; [|exfalso; lra|exfalso; lra].
  pose proof (rounded_error false v y ltac:(pose proof normal_one; lra) Hr
                (finite_not_inf y Hf)) as He.
  rewrite Rabs_right in He by (apply Rle_ge, SF2R_nonneg; assumption).
  pose proof eps_small as Heps. pose proof (bpow_gt_0 (-53)) as Hp.
  split; nra.
Qed.

Lemma le_nn_finite x y : le_nn x y -> finite y -> finite x /\ (0 <= SF2R x <= SF2R y)%R.
Proof.
  intros H Hf. destruct (le_nn_cases _ _ H) as [->|(Hfx & _ & Hv)].
  - contradiction.
  - auto.
Qed.

Lemma max0_signed y : nonneg y \/ neg_like y -> nonneg (max (of_Z 0) y).
Proof.
  intros [H|H].
  - now apply (max0_nonneg y H).
  - rewrite max0_neg_like by assumption. exact I.
Qed.

Lemma rounds_to_signed_result v y : rounds_to v y -> nonneg y \/ neg_like y.
Proof.
  intros H. destruct (Rle_dec 0 v).
  - left. now apply rounds_to_nonneg with v.
  - right. apply rounds_to_neg_like with v; [lra|assumption].
Qed.

End ErrorBounds.

Section Ordered.

Variables (c5 c1 D Hd : number).
Hypothesis Hc5 : pos_finite c5 /\ SF2R c5 = (/ 2)%R.
Hypothesis Hc1 : pos_finite c1 /\ (9 / 100 <= SF2R c1 <= 11 / 100)%R.
Hypothesis HD : nonneg D /\ finite D /\ SF2R D = 50000%R.
Hypothesis HHd : nonneg Hd /\ finite Hd /\ (0 <= SF2R Hd <= 25000)%R.

(** On a finite income that is not negative, half the income less 50000,
    clamped at zero, never exceeds the income less a tenth, less 50000, less
    at most 25000, clamped at zero: every operation rounded. *)
Lemma clamped_ordered t :
  nonneg t -> finite t ->
  le_nn (max (of_Z 0) (sub (mul t c5) D))
        (max (of_Z 0) (sub (sub (sub t (mul t c1)) D) Hd)).
Proof.
  intros Hnt Hft.
  destruct HD as (HnD & HfD & HvD). destruct HHd as (HnH & HfH & HvH).
  destruct Hc5 as (Hp5 & Hv5). destruct Hc1 as (Hp1 & Hv1).
  destruct (pos_finite_nonneg _ Hp5) as (Hn5 & Hf5 & _).
  destruct (pos_finite_nonneg _ Hp1) as (Hn1 & Hf1 & _).
  set (c := SF2R c1) in *. set (T := SF2R t).
  pose proof (SF2R_nonneg t Hnt) as HT0. fold T in HT0.
  pose proof (rounds_to_self t Hft) as Hself. fold T in Hself.
  (* the presumptive income *)
  set (h5 := mul t c5).
  assert (Hh5 : rounds_to (T * / 2) h5).
  { rewrite <- Hv5. exact (mul_spec t c5 Hft Hf5). }
  assert (Hh5t : le_nn h5 t).
  { apply rounds_to_mono with (T * / 2)%R T; [lra|assumption|assumption]. }
  destruct (le_nn_finite _ _ Hh5t Hft) as (Hfh5 & Hvh5).
  (* the assumed expenses *)
  set (u := mul t c1).
  assert (Hu : rounds_to (T * c) u) by exact (mul_spec t c1 Hft Hf1).
  assert (Hut : le_nn u t).
  { apply rounds_to_mono with (T * c)%R T; [split; nra|assumption|assumption]. }
  destruct (le_nn_finite _ _ Hut Hft) as (Hfu & Hvu). fold T in Hvu.
  (* income less expenses *)
  set (r1 := sub t u).
  assert (Hr1 : rounds_to (T - SF2R u) r1) by exact (sub_spec t u Hft Hfu).
  assert (Hr1t : le_nn r1 t).
  { apply sub_le_l; assumption. }
  destruct (le_nn_finite _ _ Hr1t Hft) as (Hfr1 & Hvr1). fold T in Hvr1.
  pose proof Hr1t as (Hnr1 & _ & _).
  (* less the standard deduction *)
  set (r2 := sub r1 D).
  assert (Hr2 : rounds_to (SF2R r1 - 50000) r2).
  { rewrite <- HvD. exact (sub_spec r1 D Hfr1 HfD). }
  (* less the health insurance deduction *)
  set (r3 := sub r2 Hd).
  assert (Hsr3 : nonneg r3 \/ neg_like r3).
  { destruct (Rle_dec (SF2R r1 - 50000) 0) as [Hle|Hgt].
    - right. apply sub_neg_like; try assumption.
      now apply rounds_to_neg_like with (SF2R r1 - 50000)%R.
    - assert (HDr1 : le_nn D r1).
      { apply le_nn_of_values; try assumption. rewrite HvD. lra. }
      pose proof (sub_le_l r1 D Hnr1 HfD HDr1) as Hr2r1.
      destruct (le_nn_finite _ _ Hr2r1 Hfr1) as (Hfr2 & _).
      apply rounds_to_signed_result with (SF2R r2 - SF2R Hd)%R.
      exact (sub_spec r2 Hd Hfr2 HfH). }
  pose proof (max0_signed r3 Hsr3) as HnB.
  (* the presumptive taxable income *)
  set (a0 := sub h5 D).
  assert (Ha0 : rounds_to (SF2R h5 - 50000) a0).
  { rewrite <- HvD. exact (sub_spec h5 D Hfh5 HfD). }
  destruct (Rle_dec (SF2R h5 - 50000) 0) as [Hle|Hgt].
  { rewrite max0_neg_like by now apply rounds_to_neg_like with (SF2R h5 - 50000)%R.
    now apply zero_le_nn. }
  apply max0_mono.
  (* the income is above 100000 *)
  assert (HT : (100000 < T)%R).
  { destruct (Rlt_dec 100000 T) as [?|Hn]; [assumption|exfalso].
    assert (Hle : le_nn h5 D).
    { apply rounds_to_mono with (T * / 2)%R (SF2R D); try assumption.
      - rewrite HvD. lra.
      - now apply rounds_to_self. }
    destruct (le_nn_finite _ _ Hle HfD) as (_ & Hv). rewrite HvD in Hv. lra. }
  destruct (rounds_to_error (T * / 2) h5 ltac:(lra) Hh5 Hfh5) as (_ & Eh5).
  assert (HTc : (9000 <= T * c <= T * (11 / 100))%R) by (split; nra).
  destruct (rounds_to_error (T * c) u ltac:(lra) Hu Hfu) as (_ & Eu).
  assert (HU : (SF2R u <= T * (111 / 1000))%R) by lra.
  destruct (rounds_to_error (T - SF2R u) r1 ltac:(lra) Hr1 Hfr1) as (_ & Er1).
  assert (HR1 : (T * (888 / 1000) <= SF2R r1)%R) by lra.
  assert (HDr1 : le_nn D r1).
  { apply le_nn_of_values; try assumption. rewrite HvD. lra. }
  pose proof (sub_le_l r1 D Hnr1 HfD HDr1) as Hr2r1.
  destruct (le_nn_finite _ _ Hr2r1 Hfr1) as (Hfr2 & _).
  destruct (rounds_to_error (SF2R r1 - 50000) r2 ltac:(lra) Hr2 Hfr2) as (_ & Er2).
  apply rounds_to_mono with (SF2R h5 - 50000)%R (SF2R r2 - SF2R Hd)%R.
  - lra.
  - exact Ha0.
  - exact (sub_spec r2 Hd Hfr2 HfH).
Qed.

End Ordered.

Section TaxableIncomesOrdered.

Lemma deduction_value (h : bool) :
  let Hd := if h then healthInsuranceDeduction else of_Z 0 in
  nonneg Hd /\ finite Hd /\ (0 <= SF2R Hd <= 25000)%R.
Proof.
  destruct h; cbv zeta.
  - destruct healthInsuranceDeduction_value as (H1 & H2 & H3). rewrite H3.
    repeat split; auto; lra.
  - change (of_Z 0) with (S754_zero false). simpl. repeat split; auto; lra.
Qed.

Lemma taxable_incomes_ordered t h :
  nonneg t -> finite t ->
  le_nn (section44adaTaxableIncomeOf t) (regularTaxableIncomeOf t h).
Proof.
  intros Hnt Hft.
  exact (clamped_ordered _ _ _ _ half_value tenth_value standardDeduction_value
           (deduction_value h) t Hnt Hft).
Qed.

Lemma negative_income_clamps m e h :
  bounded prec emax m e = true ->
  section44adaTaxableIncomeOf (S754_finite true m e) = of_Z 0 /\
  regularTaxableIncomeOf (S754_finite true m e) h = of_Z 0.
Proof.
  intros Hb.
  destruct standardDeduction_value as (HnD & HfD & _).
  destruct (deduction_value h) as (HnH & HfH & _).
  destruct half_value as (Hp5 & _). destruct tenth_value as (Hp1 & Hv1).
  exact (negative_clamps _ _ _ _ Hp5 Hp1 ltac:(lra) (conj HnD HfD) (conj HnH HfH)
           m e Hb).
Qed.

End TaxableIncomesOrdered.

(** ** The operations return doubles, and the taxes are never negative *)

Section Validity.

Lemma nonneg_number x : nonneg x -> is_number x.
Proof.
  unfold is_number.
  destruct x as [?|[]| |[] ? ?]; simpl; try contradiction; auto.
Qed.

Lemma neg_like_number x : neg_like x -> is_number x.
Proof.
  unfold is_number.
  destruct x as [?|[]| |[] ? ?]; simpl; try contradiction; auto.
Qed.

Lemma number_cases x :
  is_number x -> x = NaN \/ nonneg x \/ neg_like x.
Proof.
  unfold is_number.
  destruct x as [s|[]| |[] m e]; simpl; intros H; auto.
Qed.

Lemma rounds_to_number v y : rounds_to v y -> is_number y.
Proof.
  intros H. destruct (rounds_to_signed_result v y H).
  - now apply nonneg_number.
  - now apply neg_like_number.
Qed.

Lemma mul_number x y : is_number x -> is_number y -> is_number (mul x y).
Proof.
  intros Hx Hy.
  destruct x as [sx|sx| |sx mx ex] eqn:Ex; destruct y as [sy|sy| |sy my ey] eqn:Ey;
    try reflexivity.
  apply rounds_to_number with (SF2R x * SF2R y)%R. subst x y.
  apply mul_spec; assumption.
Qed.

Lemma sub_number x y : is_number x -> is_number y -> is_number (sub x y).
Proof.
  intros Hx Hy.
  destruct x as [sx|sx| |sx mx ex] eqn:Ex; destruct y as [sy|sy| |sy my ey] eqn:Ey;
    try reflexivity; try assumption;
    try (destruct sx, sy; reflexivity).
  apply rounds_to_number with (SF2R x - SF2R y)%R. subst x y.
  apply sub_spec; assumption.
Qed.

Lemma max0_cases y :
  is_number y -> max (of_Z 0) y = NaN \/ nonneg (max (of_Z 0) y).
Proof.
  intros H. destruct (number_cases y H) as [->|Hs].
  - left. reflexivity.
  - right. now apply max0_signed.
Qed.

Lemma calculateIncomeTax_NaN : calculateIncomeTax NaN = of_Z 0.
Proof. vm_compute. reflexivity. Qed.

Lemma calculateIncomeTax_nonneg a : nonneg a -> nonneg (calculateIncomeTax a).
Proof.
  intros H. now apply (calculateIncomeTax_mono a a (le_nn_refl a H)).
Qed.

Lemma tax_nonneg y :
  is_number y -> nonneg (calculateIncomeTax (max (of_Z 0) y)).
Proof.
  intros H. destruct (max0_cases y H) as [->|Hn].
  - rewrite calculateIncomeTax_NaN. exact I.
  - now apply calculateIncomeTax_nonneg.
Qed.

Lemma number_of_Z_small n : 0 <= n < 2 ^ 53 -> is_number (of_Z n).
Proof. intros H. apply nonneg_number. now apply of_Z_value. Qed.

Lemma decimal_5_10_number : is_number (decimal 5 10).
Proof. rewrite decimal_5_10. vm_compute. reflexivity. Qed.

Lemma decimal_1_10_number : is_number (decimal 1 10).
Proof. rewrite decimal_1_10. vm_compute. reflexivity. Qed.

Lemma taxes_nonneg now t h :
  is_number t ->
  nonneg (section44adaTax (calculateTax now t h)) /\
  nonneg (regularTax (calculateTax now t h)).
Proof.
  intros Ht. simpl.
  unfold section44adaTaxableIncomeOf, regularTaxableIncomeOf,
    section44adaIncomeOf, actualExpensesOf.
  assert (HD : is_number standardDeduction) by (apply number_of_Z_small; lia).
  assert (HH : is_number (if h then healthInsuranceDeduction else of_Z 0)).
  { destruct h; apply number_of_Z_small; lia. }
  split; apply tax_nonneg.
  - apply sub_number; [|assumption].
    apply mul_number; [assumption|exact decimal_5_10_number].
  - repeat apply sub_number; try assumption.
    apply mul_number; [assumption|exact decimal_1_10_number].
Qed.

Lemma savings_cases a b :
  nonneg a -> nonneg b ->
  leb (of_Z 0) (abs (sub a b)) = true \/
  (a = Infinity /\ b = Infinity /\ abs (sub a b) = NaN).
Proof.
  intros Ha Hb.
  destruct a as [sa|[]| |[] ma ea] eqn:Ea; simpl in Ha; try contradiction;
  destruct b as [sb|[]| |[] mb eb] eqn:Eb; simpl in Hb; try contradiction;
    try (left; destruct sa; reflexivity);
    try (left; destruct sa, sb; reflexivity);
    try (left; reflexivity);
    try (right; repeat split; reflexivity).
  left.
  pose proof (sub_spec a b ltac:(subst a; exact Ha) ltac:(subst b; exact Hb)) as Hs.
  subst a b.
  destruct (rounds_to_signed_result _ _ Hs) as [H|H];
    destruct (sub (S754_finite false ma ea) (S754_finite false mb eb))
      as [s|[]| |[] m e]; simpl in H; try contradiction; reflexivity.
Qed.

End Validity.

(** ** The advance tax schedule *)

Section Schedule.

Lemma decimal_15_100 : decimal 15 100 = S754_finite false 5404319552844595 (-55).
Proof. vm_compute. reflexivity. Qed.

Lemma decimal_45_100 : decimal 45 100 = S754_finite false 8106479329266893 (-54).
Proof. vm_compute. reflexivity. Qed.

Lemma decimal_75_100 : decimal 75 100 = S754_finite false 6755399441055744 (-53).
Proof. vm_compute. reflexivity. Qed.

Lemma percentages_ordered :
  pos_finite (decimal 15 100) /\ pos_finite (decimal 45 100) /\
  pos_finite (decimal 75 100) /\
  le_nn (decimal 15 100) (decimal 45 100) /\
  le_nn (decimal 45 100) (decimal 75 100) /\
  (SF2R (decimal 75 100) <= 1)%R.
Proof.
  rewrite decimal_15_100, decimal_45_100, decimal_75_100.
  repeat split; try (vm_compute; reflexivity).
  unfold SF2R, F2R. simpl cond_Zopp.
  change (bpow (-53)) with (bpow (- (53))). rewrite (bpow_neg_IZR 53) by lia.
  change (2 ^ 53) with 9007199254740992. lra.
Qed.

Lemma mul_le_self x c :
  nonneg x -> pos_finite c -> (SF2R c <= 1)%R -> le_nn (mul x c) x.
Proof.
  intros Hx Hc Hc1. destruct (pos_finite_nonneg c Hc) as (Hnc & Hfc & Hpc).
  destruct x as [sx|[]| |[] mx ex] eqn:Ex; simpl in Hx; try contradiction.
  - apply rounds_to_mono with (SF2R (S754_zero sx) * SF2R c)%R (SF2R (S754_zero sx)).
    + simpl. lra.
    + now apply mul_spec.
    + now apply rounds_to_self.
  - apply le_nn_inf. apply mul_nonneg; try assumption; try exact I.
    intros _. destruct c; simpl in *; tauto.
  - pose proof (SF2R_pos mx ex).
    apply rounds_to_mono with (SF2R (S754_finite false mx ex) * SF2R c)%R
                              (SF2R (S754_finite false mx ex)).
    + simpl. nra.
    + now apply mul_spec.
    + now apply rounds_to_self.
Qed.

(** The three rounded instalments of a whole annual tax are in order and do
    not exceed it. *)
Lemma instalments_ordered tax :
  nonneg tax -> round tax = tax ->
  le_nn (round (mul tax (decimal 15 100))) (round (mul tax (decimal 45 100))) /\
  le_nn (round (mul tax (decimal 45 100))) (round (mul tax (decimal 75 100))) /\
  le_nn (round (mul tax (decimal 75 100))) tax.
Proof.
  intros Hn Hw.
  destruct percentages_ordered as (H15 & H45 & H75 & Hle1 & Hle2 & Hc).
  split; [|split].
  - apply round_mono. exact (mul_mono_l tax _ _ Hn H15 H45 Hle1).
  - apply round_mono. exact (mul_mono_l tax _ _ Hn H45 H75 Hle2).
  - rewrite <- Hw at 2. apply round_mono. exact (mul_le_self tax _ Hn H75 Hc).
Qed.

Lemma round_idem x : nonneg x -> round (round x) = round x.
Proof.
  intros Hn.
  destruct x as [s|[]| |[] m e] eqn:Ex; simpl in Hn; try contradiction;
    try reflexivity.
  destruct (Z_le_gt_dec 0 e) as [He|He].
  - assert (Hr : round (S754_finite false m e) = S754_finite false m e).
    { unfold round. destruct (Z.leb_spec 0 e); [reflexivity|lia]. }
    now rewrite !Hr.
  - set (n := Zfloor (IZR (Z.pos m) * bpow e + / 2)).
    assert (Hr : round (S754_finite false m e) = binary_normalize prec emax n 0 false).
    { unfold round. destruct (Z.leb_spec 0 e); [lia|].
      rewrite round_quotient by lia. reflexivity. }
    destruct (round_spec_nn (S754_finite false m e) Hn Hn) as (Hny & Hfy & Hvy).
    change (SF2R (S754_finite false m e)) with (IZR (Z.pos m) * bpow e)%R in Hvy.
    fold n in Hvy. rewrite Hr in *.
    destruct (binary_normalize prec emax n 0 false) as [s'|s'| |s' m' e'] eqn:Ey;
      try destruct s'; simpl in Hny, Hfy; try contradiction; try reflexivity.
    unfold round. destruct (Z.leb_spec 0 e') as [He'|He']; [reflexivity|].
    rewrite round_quotient by assumption.
    change (SF2R (S754_finite false m' e')) with (IZR (Z.pos m') * bpow e')%R in Hvy.
    rewrite Hvy.
    replace (Zfloor (IZR n + / 2)) with n; [exact Ey|].
    symmetry. apply Zfloor_eq. lra.
Qed.

Lemma calculateIncomeTax_whole a :
  nonneg a \/ a = NaN -> round (calculateIncomeTax a) = calculateIncomeTax a.
Proof.
  intros [Hn| ->].
  - unfold calculateIncomeTax. apply round_idem.
    destruct (pos_finite_nonneg _ cess_pos_finite) as (Hnc & Hfc & _).
    apply (mul_mono_r _ _ (decimal 104 100)
             (fold_slabStep_mono taxSlabs a a (of_Z 0) (of_Z 0) taxSlabs_wf
                (le_nn_refl a Hn) (le_nn_refl (of_Z 0) I)) Hnc Hfc).
    intros _. vm_compute. tauto.
  - vm_compute. reflexivity.
Qed.

End Schedule.

(** ** Decimal strings *)

Section Strings.

Local Open Scope string_scope.

Lemma append_assoc (s t u : string) : (s ++ t) ++ u = s ++ (t ++ u).
Proof. induction s; simpl; congruence. Qed.

Lemma length_app (s t : string) : length (s ++ t) = (length s + length t)%nat.
Proof. induction s; simpl; congruence. Qed.

Lemma substring_skip (s t : string) k :
  substring (length s) k (s ++ t) = substring 0 k t.
Proof. induction s; simpl; [reflexivity | assumption]. Qed.

Lemma slice_last_app2 (s : string) (a b : ascii) :
  slice_last 2 (s ++ String a (String b EmptyString)) = String a (String b EmptyString).
Proof.
  unfold slice_last. rewrite length_app. simpl length.
  replace (length s + 2 - 2)%nat with (length s) by lia.
  rewrite substring_skip. reflexivity.
Qed.

Lemma digits_last fuel n :
  0 <= n ->
  exists s, digits fuel n = s ++ String (digit (n mod 10)) EmptyString.
Proof.
  intros Hn. destruct fuel as [|fuel]; simpl.
  - exists EmptyString. reflexivity.
  - destruct (Z.ltb_spec n 10) as [Hlt|Hge].
    + exists EmptyString. simpl. rewrite Z.mod_small by lia. reflexivity.
    + exists (digits fuel (n / 10)). reflexivity.
Qed.

Lemma log2_ge_3 n : 10 <= n -> 3 <= Z.log2 n.
Proof.
  intros Hn. apply Z.log2_le_pow2; [lia|]. change (2 ^ 3) with 8. lia.
Qed.

Lemma mod_100_digits n :
  (n mod 100) / 10 = (n / 10) mod 10 /\ (n mod 100) mod 10 = n mod 10.
Proof.
  pose proof (Z.rem_mul_r n 10 10 ltac:(lia) ltac:(lia)) as H.
  change (10 * 10) with 100 in H.
  pose proof (Z.mod_pos_bound n 10 ltac:(lia)).
  pose proof (Z.mod_pos_bound (n / 10) 10 ltac:(lia)).
  split.
  - rewrite H. symmetry. apply Z.div_unique with (n mod 10); lia.
  - rewrite H. symmetry. apply Z.mod_unique with ((n / 10) mod 10); lia.
Qed.

Lemma toString_last2 n :
  10 <= n -> slice_last 2 (toString n) = two_digits (n mod 100).
Proof.
  intros Hn. unfold toString.
  destruct (Z.ltb_spec n 0) as [?|_]; [lia|].
  pose proof (log2_ge_3 n Hn) as Hl.
  destruct (Z.to_nat (Z.log2 n)) as [|fuel] eqn:Hf; [lia|].
  simpl digits. destruct (Z.ltb_spec n 10) as [?|_]; [lia|].
  destruct (digits_last fuel (n / 10) ltac:(apply Z.div_pos; lia)) as [s Hs].
  rewrite Hs, append_assoc. simpl append at 2.
  rewrite slice_last_app2. unfold two_digits.
  destruct (mod_100_digits n) as [-> ->]. reflexivity.
Qed.

Lemma toString_two_digits k :
  10 <= k < 100 -> toString k = two_digits k.
Proof.
  intros Hk. unfold toString.
  destruct (Z.ltb_spec k 0) as [?|_]; [lia|].
  pose proof (log2_ge_3 k ltac:(lia)) as Hl.
  destruct (Z.to_nat (Z.log2 k)) as [|[|fuel]] eqn:Hf; try lia.
  simpl digits. destruct (Z.ltb_spec k 10) as [?|_]; [lia|].
  destruct (Z.ltb_spec (k / 10) 10) as [_|Hge].
  - reflexivity.
  - exfalso. assert (k / 10 < 10) by (apply Z.div_lt_upper_bound; lia). lia.
Qed.

End Strings.

Section Roundtrip.

Lemma value_from_app acc (s t : string) :
  value_from acc (s ++ t) = value_from (value_from acc s) t.
Proof. revert acc. induction s; intros acc; simpl; [reflexivity | apply IHs]. Qed.

Lemma digit_value_digit d : 0 <= d < 10 -> digit_value (digit d) = d.
Proof.
  intros Hd. unfold digit_value, digit.
  rewrite nat_ascii_embedding by lia. lia.
Qed.

Lemma digits_parse fuel n :
  0 <= n < 10 ^ (Z.of_nat fuel + 1) -> parseDecimal (digits fuel n) = n.
Proof.
  unfold parseDecimal. revert n. induction fuel as [|fuel IH]; intros n Hn.
  - change (10 ^ (Z.of_nat 0 + 1)) with 10 in Hn.
    cbn [digits value_from]. rewrite Z.mod_small by lia.
    rewrite digit_value_digit; lia.
  - cbn [digits]. destruct (Z.ltb_spec n 10) as [Hlt|Hge].
    + cbn [value_from]. rewrite digit_value_digit; lia.
    + rewrite value_from_app, IH.
      * cbn [value_from]. rewrite digit_value_digit by (apply Z.mod_pos_bound; lia).
        pose proof (Z.div_mod n 10 ltac:(lia)). lia.
      * split; [apply Z.div_pos; lia|].
        apply Z.div_lt_upper_bound; [lia|].
        replace (Z.of_nat (S fuel) + 1) with (Z.succ (Z.of_nat fuel + 1)) in Hn by lia.
        rewrite Z.pow_succ_r in Hn by lia. lia.
Qed.

(** [toString] prints every digit: reading its result back gives the
    number. *)
Lemma toString_parse n : 0 <= n -> parseDecimal (toString n) = n.
Proof.
  intros Hn. unfold toString. destruct (Z.ltb_spec n 0) as [?|_]; [lia|].
  apply digits_parse. split; [assumption|].
  rewrite Z2Nat.id by apply Z.log2_nonneg.
  destruct (Z.eq_dec n 0) as [->|Hnz]; [reflexivity|].
  pose proof (Z.log2_spec n ltac:(lia)) as [_ H2].
  pose proof (Z.log2_nonneg n).
  apply Z.lt_le_trans with (2 ^ Z.succ (Z.log2 n)); [assumption|].
  unfold Z.succ. apply Z.pow_le_mono_l. lia.
Qed.

Lemma toString_negative n :
  n < 0 -> toString n = String "-" (toString (- n)).
Proof.
  intros Hn. unfold toString.
  destruct (Z.ltb_spec n 0) as [_|?]; [|lia].
  destruct (Z.ltb_spec (- n) 0) as [?|_]; [lia|]. reflexivity.
Qed.

End Roundtrip.

(** ** GST on whole amounts *)

Section GstExact.

Lemma of_Z_shape a :
  0 <= a < 2 ^ 53 ->
  (a = 0 /\ of_Z a = S754_zero false) \/
  (0 < a /\ exists m e, of_Z a = S754_finite false m e /\
                        bounded prec emax m e = true /\
                        (IZR (Z.pos m) * bpow e)%R = IZR a).
Proof.
  intros Ha. destruct (Z.eq_dec a 0) as [->|Hn].
  - left. split; reflexivity.
  - right. split; [lia|].
    destruct (of_Z_value a Ha) as (Hnn & Hf & Hv).
    assert (Hpos : (0 < IZR a)%R) by (apply IZR_lt; lia).
    destruct (of_Z a) as [s|s| |s m e]; simpl in Hnn, Hf, Hv; try contradiction.
    + exfalso. lra.
    + destruct s; [contradiction|]. exists m, e. repeat split; auto.
Qed.

Lemma round_of_small x :
  nonneg x -> finite x -> (SF2R x < bpow 52)%R ->
  round x = of_Z (Zfloor (SF2R x + / 2)) \/ (exists s, x = S754_zero s).
Proof.
  intros Hn Hf Hlt.
  destruct x as [s|s| |s m e]; simpl in Hn, Hf; try contradiction.
  - right. now exists s.
  - destruct s; [contradiction|]. left.
    pose proof (bounded_digits m e Hn) as (Hd & He & Hnorm).
    pose proof (digits2_bounds m) as [Hm1 _].
    unfold round. destruct (Z.leb_spec 0 e) as [He0|He0].
    + exfalso. destruct Hnorm as [?|Hnorm]; [lia|]. rewrite Hnorm in Hm1.
      simpl in Hlt. unfold F2R in Hlt. simpl cond_Zopp in Hlt.
      assert (bpow 52 * bpow 0 <= IZR (Z.pos m) * bpow e)%R.
      { apply Rmult_le_compat.
        - apply Rlt_le, bpow_gt_0.
        - apply Rlt_le, bpow_gt_0.
        - rewrite bpow_IZR by lia. apply IZR_le. exact Hm1.
        - apply bpow_le. lia. }
      rewrite bpow_0 in H. lra.
    + rewrite round_quotient by assumption. reflexivity.
Qed.

Lemma hundred_value : pos_finite (of_Z 100) /\ SF2R (of_Z 100) = 100%R.
Proof.
  split; [exact pos_finite_100|]. apply (of_Z_value 100). lia.
Qed.

(** For whole amounts and rates that are not negative, with a product below
    2^50, the result is the exact one: the amount times the rate, over 100,
    rounded half up. *)
Lemma calculateGST_whole (a r : Z) :
  0 <= a < 2 ^ 53 -> 0 <= r < 2 ^ 53 -> a * r < 2 ^ 50 ->
  calculateGST (of_Z a) (of_Z r) = of_Z ((a * r + 50) / 100).
Proof.
  intros Ha Hr Hlt. unfold calculateGST.
  destruct (of_Z_shape a Ha) as [[-> Ea]|[Ha0 (ma & ea & Ea & Hba & Hva)]].
  { rewrite Ea. destruct (of_Z_shape r Hr) as [[-> Er]|[_ (mr & er & Er & _ & _)]];
      rewrite Er; reflexivity. }
  destruct (of_Z_shape r Hr) as [[-> Er]|[Hr0 (mr & er & Er & Hbr & Hvr)]].
  { rewrite Ea, Er. rewrite Z.mul_0_r. reflexivity. }
  set (N := a * r) in *. assert (HN : 0 < N) by (unfold N; nia).
  (* the product is exact *)
  set (P := mul (of_Z a) (of_Z r)).
  assert (HP : rounds_to (IZR N) P).
  { unfold N, P. rewrite mult_IZR, <- Hva, <- Hvr. rewrite Ea, Er.
    apply (mul_spec (S754_finite false ma ea) (S754_finite false mr er) Hba Hbr). }
  assert (HPv : nonneg P /\ finite P /\ SF2R P = IZR N).
  { destruct HP as [[_ HP']|[[H _]|[H _]]];
      [|exfalso; apply IZR_lt in HN; lra|exfalso; apply IZR_lt in HN; lra].
    replace (IZR N) with (IZR N * bpow 0)%R in HP' by (rewrite bpow_0; ring).
    apply rounded_exact in HP'; [|lia|rewrite emin_eq; lia].
    rewrite bpow_0, Rmult_1_r in HP'.
    pose proof (represents_nonneg _ _ HP') as Hnn.
    destruct (represents_value _ _ _ HP') as [[_ Hge]|(Hi & Hv & _)].
    - exfalso. assert (IZR N < bpow 50)%R.
      { rewrite bpow_IZR by lia. now apply IZR_lt. }
      assert (bpow 50 <= bpow emax)%R by (apply bpow_le; rewrite emax_eq; lia). lra.
    - split; [assumption|]. split; [now apply nonneg_finite|].
      rewrite Rabs_right in Hv by (apply Rle_ge, SF2R_nonneg; assumption).
      symmetry. exact Hv. }
  destruct HPv as (HnP & HfP & HvP).
  (* the quotient *)
  destruct hundred_value as (Hp100 & Hv100).
  set (Q := div P (of_Z 100)).
  pose proof (div_spec_pos P (of_Z 100) HfP Hp100) as HQ. fold Q in HQ.
  rewrite HvP, Hv100 in HQ.
  set (x := (IZR N / 100)%R) in *.
  assert (HNR : (1 <= IZR N)%R) by (apply IZR_le; lia).
  assert (Hx0 : (/ 100 <= x)%R) by (unfold x; lra).
  assert (Hx1 : (x < bpow 50 / 100)%R).
  { unfold x. assert (IZR N < bpow 50)%R.
    { rewrite bpow_IZR by lia. now apply IZR_lt. } lra. }
  assert (HQP : le_nn Q P).
  { apply rounds_to_mono with x (SF2R P); [rewrite HvP; unfold x; lra|exact HQ|].
    now apply rounds_to_self. }
  destruct (le_nn_finite _ _ HQP HfP) as (HfQ & HvQ).
  pose proof HQP as (HnQ & _ & _).
  destruct HQ as [[_ HQ]|[[H _]|[H _]]]; [|exfalso; lra|exfalso; lra].
  assert (Hnorm : (bpow (-1022) <= x)%R).
  { apply Rle_trans with (bpow (-7)); [apply bpow_le; lia|].
    change (bpow (-7)) with (bpow (- (7))). rewrite (bpow_neg_IZR 7) by lia.
    change (2 ^ 7) with 128. lra. }
  pose proof (rounded_error false x Q Hnorm HQ (finite_not_inf Q HfQ)) as Herr.
  rewrite Rabs_right in Herr by (apply Rle_ge, SF2R_nonneg; assumption).
  assert (Heps : (x * bpow (-53) < / 800)%R).
  { change (bpow (-53)) with (bpow (- (53))). rewrite (bpow_neg_IZR 53) by lia.
    rewrite (bpow_IZR 50) in Hx1 by lia.
    change (2 ^ 53) with 9007199254740992. change (2 ^ 50) with 1125899906842624 in Hx1.
    lra. }
  (* the quotient rounded to the nearest integer *)
  set (n := (N + 50) / 100).
  pose proof (Z.div_mod (N + 50) 100 ltac:(lia)) as Hdm.
  pose proof (Z.mod_pos_bound (N + 50) 100 ltac:(lia)) as Hmod.
  fold n in Hdm.
  assert (Hn0 : 0 <= n) by (unfold n; apply Z.div_pos; lia).
  assert (Hfloor : Zfloor (SF2R Q + / 2) = n).
  { apply Zfloor_eq.
    assert (Hx : x = (IZR n - / 2 + IZR ((N + 50) mod 100) / 100)%R).
    { unfold x.
      replace (IZR N) with (IZR (N + 50) - 50)%R by (rewrite plus_IZR; lra).
      rewrite Hdm at 1. rewrite plus_IZR, mult_IZR. lra. }
    destruct (Z.eq_dec ((N + 50) mod 100) 0) as [Hz|Hnz].
    - (* a tie: the quotient is representable *)
      rewrite Hz in Hx. assert (Hn1 : 1 <= n) by lia.
      assert (Hxe : x = (IZR (2 * n - 1) * bpow (-1))%R).
      { rewrite Hx, minus_IZR, mult_IZR.
        replace (bpow (-1)) with (/ 2)%R by (unfold bpow; simpl; lra). lra. }
      rewrite Hxe in HQ. apply rounded_exact in HQ; [|split; [lia|]|rewrite emin_eq; lia].
      + rewrite <- Hxe in HQ.
        destruct (represents_value _ _ _ HQ) as [[Hi _]|(_ & Hv & _)].
        * exfalso. now apply (finite_not_inf Q HfQ).
        * rewrite Rabs_right in Hv by (apply Rle_ge, SF2R_nonneg; assumption).
          rewrite <- Hv, Hx. lra.
      + assert (100 * n < 2 ^ 50 + 50) by lia.
        change (2 ^ 50) with 1125899906842624 in *.
        change (2 ^ 53) with 9007199254740992. lia.
    - assert (H1 : (1 <= IZR ((N + 50) mod 100) <= 99)%R).
      { split; apply IZR_le; lia. }
      split; lra. }
  destruct (round_of_small Q HnQ HfQ) as [Hround|[s Hs]].
  - apply Rle_lt_trans with (x + x * bpow (-53))%R; [lra|].
    assert (bpow 50 <= bpow 52 / 4)%R.
    { replace (bpow 52) with (bpow 50 * bpow 2)%R by (rewrite <- bpow_add; reflexivity).
      replace (bpow 2) with 4%R by (unfold bpow; simpl; lra). lra. }
    pose proof (bpow_gt_0 50). lra.
  - fold P. fold Q. rewrite Hround, Hfloor. reflexivity.
  - exfalso. rewrite Hs in Herr. simpl in Herr. lra.
Qed.

End GstExact.

(** ** The fields of the result of [calculateTax] *)

Section Projections.

Lemma is_finite_finite x : is_finite x = true -> finite x.
Proof. destruct x; simpl; intros H; try discriminate; auto. Qed.

Lemma finite_number x : finite x -> is_number x.
Proof. unfold is_number. destruct x; simpl; intros H; try contradiction; auto. Qed.

Lemma section44adaTax_eq now t h :
  section44adaTax (calculateTax now t h)
  = calculateIncomeTax (section44adaTaxableIncomeOf t).
Proof. reflexivity. Qed.

Lemma regularTax_eq now t h :
  regularTax (calculateTax now t h)
  = calculateIncomeTax (regularTaxableIncomeOf t h).
Proof. reflexivity. Qed.

Lemma regularTaxableIncome_eq now t h :
  regularTaxableIncome (calculateTax now t h) = regularTaxableIncomeOf t h.
Proof. reflexivity. Qed.

Lemma recommendedScheme_eq now t h :
  recommendedScheme (calculateTax now t h)
  = if leb (section44adaTax (calculateTax now t h)) (regularTax (calculateTax now t h))
    then section44ada else regular.
Proof.
  unfold calculateTax. cbn [recommendedScheme section44adaTax regularTax].
  reflexivity.
Qed.

Lemma savings_eq now t h :
  savings (calculateTax now t h)
  = abs (sub (section44adaTax (calculateTax now t h)) (regularTax (calculateTax now t h))).
Proof.
  unfold calculateTax. cbn [savings section44adaTax regularTax]. reflexivity.
Qed.

Lemma finalTax_eq now t h :
  advanceTaxSchedule (calculateTax now t h)
  = calculateAdvanceTaxSchedule now
      (if leb (section44adaTax (calculateTax now t h)) (regularTax (calculateTax now t h))
       then section44adaTax (calculateTax now t h)
       else regularTax (calculateTax now t h)).
Proof.
  unfold calculateTax. cbn [advanceTaxSchedule section44adaTax regularTax].
  destruct (leb _ _); reflexivity.
Qed.

Lemma schedule_amounts now tax :
  map amount (calculateAdvanceTaxSchedule now tax)
  = [round (mul tax (decimal 15 100)); round (mul tax (decimal 45 100));
     round (mul tax (decimal 75 100)); tax].
Proof. reflexivity. Qed.

Lemma schedule_zero now :
  map amount (calculateAdvanceTaxSchedule now (of_Z 0))
  = [of_Z 0; of_Z 0; of_Z 0; of_Z 0].
Proof. rewrite schedule_amounts. vm_compute. reflexivity. Qed.

Lemma calculateIncomeTax_zero : calculateIncomeTax (of_Z 0) = of_Z 0.
Proof. vm_compute. reflexivity. Qed.

End Projections.

(** ** Fiscal quarters *)

Section Quarters.

(** Months 4-6 are quarter 1, 7-9 quarter 2, 10-12 quarter 3 and 1-3
    quarter 4: every month has one quarter. *)
Lemma getQuarterFromDate_months (date : Date) :
  0 <= getMonth date <= 11 ->
  getQuarterFromDate date = (getMonth date + 9) mod 12 / 3 + 1.
Proof.
  intros H. unfold getQuarterFromDate.
  assert (Hm : getMonth date = 0 \/ getMonth date = 1 \/ getMonth date = 2 \/
               getMonth date = 3 \/ getMonth date = 4 \/ getMonth date = 5 \/
               getMonth date = 6 \/ getMonth date = 7 \/ getMonth date = 8 \/
               getMonth date = 9 \/ getMonth date = 10 \/ getMonth date = 11) by lia.
  repeat (destruct Hm as [Hm|Hm]; [rewrite Hm; reflexivity|]).
  rewrite Hm. reflexivity.
Qed.

End Quarters.

(** ** The zero-rate band

    A number that is not above 300000 opens no slab but the first, whose
    rate is 0. *)

Section ZeroBand.

Lemma slabStep_skip x t s : gtb x (slab_min s) = false -> slabStep x t s = t.
Proof. intros H. unfold slabStep. rewrite H. reflexivity. Qed.

Lemma gtb_neg_like x c : neg_like x -> nonneg c -> gtb x c = false.
Proof.
  destruct x as [sx|sx| |sx mx ex], c as [sc|sc| |sc mc ec]; simpl;
    try contradiction; try reflexivity;
    try (destruct sx; try contradiction; try reflexivity);
    try (destruct sc; try contradiction; try reflexivity).
Qed.

Lemma gate_closed x c c' :
  nonneg x -> nonneg c -> le_nn c c' -> gtb x c = false -> gtb x c' = false.
Proof.
  intros Hx Hc Hcc H.
  destruct (gtb x c') eqn:E; [|reflexivity].
  exfalso.
  assert (Hxc : leb x c = true).
  { destruct (leb x c) eqn:E1; [reflexivity|].
    apply (gtb_nn_iff x c Hx Hc) in E1. congruence. }
  assert (L : le_nn x c').
  { apply (le_nn_trans x c c'); [|exact Hcc]. exact (conj Hx (conj Hc Hxc)). }
  destruct L as (_ & Hc' & L).
  apply (gtb_nn_iff x c' Hx Hc') in E. congruence.
Qed.

Lemma fold_skip x slabs t :
  Forall (fun s => gtb x (slab_min s) = false) slabs ->
  fold_left (slabStep x) slabs t = t.
Proof.
  intros H. revert t. induction H as [|s l Hs _ IH]; intros t; [reflexivity|].
  cbn [fold_left]. rewrite (slabStep_skip x t s Hs). apply IH.
Qed.

Lemma upper_slabs_above :
  Forall (fun s => le_nn (of_Z 300000) (slab_min s)) (tl taxSlabs).
Proof. repeat constructor. Qed.

Lemma first_slab_zero m e :
  leb (S754_finite false m e) (of_Z 300000) = true ->
  slabStep (S754_finite false m e) (of_Z 0) (hd (Build_TaxSlabs NaN NaN NaN) taxSlabs)
  = of_Z 0.
Proof.
  intros H. unfold slabStep. cbn [hd taxSlabs slab_min slab_max slab_rate].
  assert (Hmin : min (S754_finite false m e) (of_Z 300000) = S754_finite false m e).
  { unfold leb, SFleb in H. unfold min.
    destruct (SFcompare (S754_finite false m e) (of_Z 300000)) as [[| |]|];
      try reflexivity; discriminate. }
  rewrite Hmin.
  destruct (gtb (S754_finite false m e) (of_Z 0)); reflexivity.
Qed.

Lemma leb_of_gtb_nn x c : nonneg x -> nonneg c -> gtb x c = false -> leb x c = true.
Proof.
  intros Hx Hc H. destruct (leb x c) eqn:E; [reflexivity|].
  apply (gtb_nn_iff x c Hx Hc) in E. congruence.
Qed.

Lemma slabTax_low x :
  is_number x -> gtb x (of_Z 300000) = false -> slabTax taxSlabs x = of_Z 0.
Proof.
  intros Hx H.
  assert (H3 : nonneg (of_Z 300000)) by (vm_compute; reflexivity).
  destruct (number_cases x Hx) as [->|[Hn|Hn]].
  - reflexivity.
  - assert (Hup : fold_left (slabStep x) (tl taxSlabs) (of_Z 0) = of_Z 0).
    { apply fold_skip.
      eapply Forall_impl; [|exact upper_slabs_above].
      intros s Hs. cbv beta in *.
      exact (gate_closed x (of_Z 300000) (slab_min s) Hn H3 Hs H). }
    destruct x as [sx|sx| |sx mx ex].
    + destruct sx; reflexivity.
    + destruct sx; [contradiction|discriminate H].
    + contradiction.
    + destruct sx; [contradiction|].
      pose proof (first_slab_zero mx ex (leb_of_gtb_nn _ _ Hn H3 H)) as H1.
      unfold slabTax.
      change taxSlabs with (hd (Build_TaxSlabs NaN NaN NaN) taxSlabs :: tl taxSlabs).
      cbn [fold_left]. rewrite H1. exact Hup.
  - unfold slabTax. apply fold_skip.
    assert (Hall : Forall (fun s => nonneg (slab_min s)) taxSlabs)
      by (repeat constructor).
    eapply Forall_impl; [|exact Hall].
    intros s Hs. exact (gtb_neg_like x (slab_min s) Hn Hs).
Qed.

Lemma calculateIncomeTax_low x :
  is_number x -> gtb x (of_Z 300000) = false -> calculateIncomeTax x = of_Z 0.
Proof.
  intros Hx H. unfold calculateIncomeTax. rewrite (slabTax_low x Hx H).
  vm_compute. reflexivity.
Qed.

End ZeroBand.

(** ** The tax of any number *)

Section TaxShape.

Lemma nonneg_leb0 y : nonneg y -> leb (of_Z 0) y = true.
Proof. intros H. exact (zero_leb_nn false y H). Qed.

Lemma nonneg_not_nan y : nonneg y -> is_nan y = false.
Proof. destruct y as [s|s| |s m e]; simpl; try reflexivity; contradiction. Qed.

Lemma calculateIncomeTax_nonneg_all x : is_number x -> nonneg (calculateIncomeTax x).
Proof.
  intros Hx. destruct (number_cases x Hx) as [->|[Hn|Hn]].
  - rewrite calculateIncomeTax_NaN. exact I.
  - exact (calculateIncomeTax_nonneg x Hn).
  - rewrite (calculateIncomeTax_low x Hx); [exact I|].
    apply gtb_neg_like; [exact Hn|vm_compute; reflexivity].
Qed.

Lemma calculateIncomeTax_whole_all x :
  is_number x -> round (calculateIncomeTax x) = calculateIncomeTax x.
Proof.
  intros Hx. destruct (number_cases x Hx) as [->|[Hn|Hn]].
  - apply calculateIncomeTax_whole. right. reflexivity.
  - apply calculateIncomeTax_whole. left. exact Hn.
  - rewrite (calculateIncomeTax_low x Hx); [vm_compute; reflexivity|].
    apply gtb_neg_like; [exact Hn|vm_compute; reflexivity].
Qed.

End TaxShape.

(** ** The lower of the two taxes *)

Section LowerTax.




End LowerTax.

(** ** Clamped differences grow with the income *)

Section Clamp.

Lemma max0_Infinity : max (of_Z 0) Infinity = Infinity.
Proof. reflexivity. Qed.

Lemma max0_is_nonneg_of_sub x D :
  nonneg x -> nonneg D -> finite D -> nonneg (max (of_Z 0) (sub x D)).
Proof.
  intros Hx HD HDf.
  destruct x as [sx|sx| |sx mx ex]; try contradiction.
  - apply max0_signed. apply (rounds_to_signed_result (SF2R (S754_zero sx) - SF2R D)).
    apply sub_spec; [exact I|exact HDf].
  - destruct sx; [contradiction|].
    change (S754_infinity false) with Infinity.
    rewrite (sub_Infinity_l D HD HDf). exact I.
  - apply max0_signed.
    apply (rounds_to_signed_result (SF2R (S754_finite sx mx ex) - SF2R D)).
    apply sub_spec; [|exact HDf]. destruct sx; [contradiction|exact Hx].
Qed.

(** [max(0, x - D)] grows with [x]. *)
Lemma clamp_sub_mono x x' D :
  le_nn x x' -> nonneg D -> finite D ->
  le_nn (max (of_Z 0) (sub x D)) (max (of_Z 0) (sub x' D)).
Proof.
  intros Hxx HD HDf.
  pose proof Hxx as (Hx & Hx' & _).
  destruct (le_nn_cases x x' Hxx) as [->|(Hf & Hf' & Hv)].
  - rewrite (sub_Infinity_l D HD HDf). rewrite max0_Infinity.
    apply le_nn_inf. apply max0_is_nonneg_of_sub; assumption.
  - destruct (Rle_lt_dec (SF2R D) (SF2R x)) as [Hle|Hlt].
    + apply max0_mono. apply sub_mono; [exact Hxx|exact HDf|].
      apply le_nn_of_values; assumption.
    + assert (Hneg : neg_like (sub x D)).
      { apply (rounds_to_neg_like (SF2R x - SF2R D)); [lra|].
        apply sub_spec; assumption. }
      rewrite (max0_neg_like _ Hneg).
      apply (zero_le_nn false). apply max0_is_nonneg_of_sub; assumption.
Qed.

Lemma section44adaTaxableIncomeOf_mono a b :
  le_nn a b ->
  le_nn (section44adaTaxableIncomeOf a) (section44adaTaxableIncomeOf b).
Proof.
  intros Hab. unfold section44adaTaxableIncomeOf, section44adaIncomeOf.
  destruct half_value as [Hc _].
  destruct (pos_finite_nonneg _ Hc) as (Hcn & Hcf & _).
  destruct standardDeduction_value as (HD & HDf & _).
  apply clamp_sub_mono; [|exact HD|exact HDf].
  apply mul_mono_r; [exact Hab|exact Hcn|exact Hcf|].
  intros _ Hz. revert Hz. rewrite decimal_5_10. exact (fun H => H).
Qed.

End Clamp.

(** ** Incomes without presumptive tax *)

Section Threshold.

Lemma le_nn_of_leb a b :
  is_number a -> is_number b -> leb (of_Z 0) a = true -> leb a b = true -> le_nn a b.
Proof.
  intros Ha Hb H0 Hab.
  pose proof (number_nonneg a Ha H0) as Han.
  pose proof (nonneg_above a b Han Hb Hab) as Hbn.
  exact (conj Han (conj Hbn Hab)).
Qed.

Lemma section44adaTax_low_nonneg t :
  nonneg t -> leb t (of_Z 700000) = true ->
  calculateIncomeTax (section44adaTaxableIncomeOf t) = of_Z 0.
Proof.
  intros Hn Hle.
  assert (H7 : nonneg (of_Z 700000)) by (vm_compute; reflexivity).
  assert (H3 : nonneg (of_Z 300000)) by (vm_compute; reflexivity).
  assert (E7 : section44adaTaxableIncomeOf (of_Z 700000) = of_Z 300000)
    by (vm_compute; reflexivity).
  pose proof (section44adaTaxableIncomeOf_mono t (of_Z 700000)
                (conj Hn (conj H7 Hle))) as Hm.
  rewrite E7 in Hm. destruct Hm as (Hy & _ & Hl).
  apply calculateIncomeTax_low; [exact (nonneg_number _ Hy)|].
  destruct (gtb (section44adaTaxableIncomeOf t) (of_Z 300000)) eqn:E; [|reflexivity].
  apply (gtb_nn_iff _ _ Hy H3) in E. congruence.
Qed.

Lemma section44adaTaxableIncomeOf_neg_like t :
  neg_like t -> section44adaTaxableIncomeOf t = of_Z 0.
Proof.
  intros Hn. destruct t as [s|s| |s m e]; try contradiction.
  - destruct s; vm_compute; reflexivity.
  - destruct s; [vm_compute; reflexivity|contradiction].
  - destruct s; [|contradiction].
    exact (proj1 (negative_income_clamps m e false Hn)).
Qed.

Lemma section44adaTax_low t :
  is_number t -> leb t (of_Z 700000) = true ->
  calculateIncomeTax (section44adaTaxableIncomeOf t) = of_Z 0.
Proof.
  intros Ht Hle. destruct (number_cases t Ht) as [->|[Hn|Hn]].
  - discriminate Hle.
  - exact (section44adaTax_low_nonneg t Hn Hle).
  - rewrite (section44adaTaxableIncomeOf_neg_like t Hn). exact calculateIncomeTax_zero.
Qed.

End Threshold.

(** ** The health insurance deduction *)

Section HealthInsurance.

Lemma sub_zero_finite s m e :
  sub (S754_finite s m e) (of_Z 0) = S754_finite s m e.
Proof. reflexivity. Qed.

Lemma health_deduction_lowers y :
  is_number y ->
  (sub y healthInsuranceDeduction = NaN /\ sub y (of_Z 0) = NaN) \/
  le_nn (max (of_Z 0) (sub y healthInsuranceDeduction)) (max (of_Z 0) (sub y (of_Z 0))).
Proof.
  intros Hy.
  destruct healthInsuranceDeduction_value as (HH & HHf & HHv).
  destruct y as [s|s| |s m e].
  - right. destruct s; vm_compute; repeat split.
  - right. destruct s; vm_compute; repeat split.
  - left. split; reflexivity.
  - right. rewrite sub_zero_finite.
    assert (Hb : bounded prec emax m e = true) by exact Hy.
    pose proof (sub_spec (S754_finite s m e) healthInsuranceDeduction Hb HHf) as Hs.
    rewrite HHv in Hs.
    destruct s.
    + assert (Hny : neg_like (S754_finite true m e)) by exact Hb.
      assert (Hneg : neg_like (sub (S754_finite true m e) healthInsuranceDeduction)).
      { pose proof (neg_like_value _ Hny) as Hv.
        assert (Hv' : (SF2R (S754_finite true m e) - 25000 <= 0)%R) by lra.
        exact (rounds_to_neg_like _ _ Hv' Hs). }
      rewrite (max0_neg_like _ Hneg), (max0_neg_like _ Hny).
      apply (le_nn_refl (of_Z 0)). exact I.
    + assert (Hny : nonneg (S754_finite false m e)) by exact Hb.
      destruct (Rle_lt_dec 25000 (SF2R (S754_finite false m e))) as [Hle|Hlt].
      * apply max0_mono. apply sub_le_l; [exact Hny|exact HHf|].
        apply le_nn_of_values; [exact HH|exact Hny|exact HHf|exact Hb|lra].
      * assert (Hneg : neg_like (sub (S754_finite false m e) healthInsuranceDeduction)).
        { assert (Hv' : (SF2R (S754_finite false m e) - 25000 <= 0)%R) by lra.
          exact (rounds_to_neg_like _ _ Hv' Hs). }
        rewrite (max0_neg_like _ Hneg).
        apply (zero_le_nn false).
        destruct (max0_nonneg _ Hny) as [(_ & Hr & _) _]. exact Hr.
Qed.

End HealthInsurance.

(** ** Products with a constant *)

Section ProductGrid.

Variable c : number.
Hypothesis Hc : pos_finite c.
Hypothesis Hc1 : (SF2R c <= 1)%R.

(** The product of a positive double with a constant [c <= 1]: a finite
    double [n * 2^F] on the grid of the exact product. *)
Lemma product_on_grid M E :
  bounded prec emax M E = true ->
  let v := (IZR (Z.pos M) * bpow E * SF2R c)%R in
  exists F n, grid v F /\ nearest_even (v * bpow (- F)) n /\
              nonneg (mul (S754_finite false M E) c) /\
              finite (mul (S754_finite false M E) c) /\
              SF2R (mul (S754_finite false M E) c) = (IZR n * bpow F)%R.
Proof.
  intros Hb v.
  destruct (pos_finite_nonneg c Hc) as (Hcn & Hcf & Hcp).
  assert (Ht : nonneg (S754_finite false M E)) by exact Hb.
  assert (Hle : le_nn (mul (S754_finite false M E) c) (S754_finite false M E)).
  { apply mul_le_self; [exact Ht|exact Hc|exact Hc1]. }
  destruct (le_nn_finite _ _ Hle Hb) as (Hfin & Hpos & _).
  destruct Hle as (Hnn & _ & _).
  pose proof (mul_spec (S754_finite false M E) c Hb Hcf) as Hs.
  assert (Hv : (0 < v)%R).
  { unfold v. pose proof (bpow_gt_0 E).
    assert (0 < IZR (Z.pos M))%R by (apply IZR_lt; lia).
    apply Rmult_lt_0_compat; [nra|exact Hcp]. }
  assert (Ev : (SF2R (S754_finite false M E) * SF2R c)%R = v) by reflexivity.
  rewrite Ev in Hs.
  destruct Hs as [[_ Hr]|[[Hneg _]|[Hz _]]]; [|lra|lra].
  destruct Hr as (F & n & Hg & Hne & Hrep).
  exists F, n. split; [exact Hg|]. split; [exact Hne|].
  split; [exact Hnn|]. split; [exact Hfin|].
  destruct (represents_value _ _ _ Hrep) as [[Hinf _]|(_ & Hw & _)].
  - exfalso. exact (finite_not_inf _ Hfin Hinf).
  - rewrite Hw. rewrite Rabs_right; [reflexivity|lra].
Qed.

End ProductGrid.

(** ** The gap between two doubles *)

Section Gap.

(** Two distinct positive doubles are at least half a unit in the last
    place of the larger one apart, and their difference is a multiple of
    the least positive double. *)
Lemma gap_lower M E M' E' :
  bounded prec emax M E = true -> bounded prec emax M' E' = true ->
  (IZR (Z.pos M) * bpow E < IZR (Z.pos M') * bpow E')%R ->
  (bpow (E' - 1) <= IZR (Z.pos M') * bpow E' - IZR (Z.pos M) * bpow E)%R /\
  exists k : Z,
    (IZR (Z.pos M') * bpow E' - IZR (Z.pos M) * bpow E = IZR k * bpow emin)%R.
Proof.
  intros Hb Hb' Hlt.
  pose proof (bounded_digits M E Hb) as (Hd & He & Hn).
  pose proof (bounded_digits M' E' Hb') as (Hd' & He' & Hn').
  pose proof (digits2_bounds M) as [_ HM].
  pose proof (digits2_bounds M') as [HM' _].
  assert (HM53 : Z.pos M < 2 ^ 53).
  { assert (2 ^ Z.pos (digits2_pos M) <= 2 ^ 53) by (apply Z.pow_le_mono_r; lia). lia. }
  assert (HEE : E <= E').
  { destruct (Z_le_gt_dec E E') as [?|Hgt]; [assumption|exfalso].
    pose proof (F2R_lt_exp M' E' M E Hb' Hb ltac:(lia)). lra. }
  set (P := 2 ^ (E' - E)).
  assert (HP : 1 <= P) by (unfold P; apply (Z.pow_le_mono_r 2 0 (E' - E)); lia).
  assert (Et' : (IZR (Z.pos M') * bpow E' = IZR (Z.pos M' * P) * bpow E)%R).
  { unfold P. rewrite <- (IZR_shift (Z.pos M') (E' - E) E') by lia.
    do 2 f_equal. lia. }
  set (K := Z.pos M' * P - Z.pos M).
  assert (Eg : (IZR (Z.pos M') * bpow E' - IZR (Z.pos M) * bpow E = IZR K * bpow E)%R).
  { rewrite Et'. unfold K. rewrite minus_IZR. ring. }
  pose proof (bpow_gt_0 E) as HbE.
  assert (HK : 1 <= K).
  { assert (0 < IZR K)%R by (rewrite Et' in Hlt; unfold K; rewrite minus_IZR; nra).
    apply lt_IZR in H. lia. }
  split.
  - rewrite Eg.
    destruct (Z_le_gt_dec (E' - 1) E) as [Hc|Hc].
    + apply Rle_trans with (bpow E); [apply bpow_le; lia|].
      apply IZR_le in HK. nra.
    + assert (HP4 : 4 <= P).
      { unfold P. apply (Z.pow_le_mono_r 2 2 (E' - E)); lia. }
      destruct Hn' as [Hn'|Hn']; [lia|]. rewrite Hn' in HM'.
      change (2 ^ (53 - 1)) with 4503599627370496 in HM'.
      change (2 ^ 53) with 9007199254740992 in HM53.
      assert (HKP : P <= K) by (unfold K; nia).
      apply Rle_trans with (bpow E'); [apply bpow_le; lia|].
      replace (bpow E') with (IZR P * bpow E)%R.
      * apply Rmult_le_compat_r; [lra|]. apply IZR_le. exact HKP.
      * unfold P. rewrite <- bpow_IZR by lia. rewrite <- bpow_add. f_equal. lia.
  - exists (K * 2 ^ (E - emin)). rewrite Eg.
    rewrite emin_eq.
    rewrite <- (IZR_shift K (E - -1074) E) by lia.
    do 2 f_equal. lia.
Qed.

End Gap.

(** ** Expenses grow no faster than the income *)

Section Expenses.

Variable c : number.
Hypothesis Hc : pos_finite c.
Hypothesis Hc8 : (SF2R c <= / 8)%R.

Lemma nearest_even_bounds v F n :
  nearest_even (v * bpow (- F)) n ->
  (v - bpow F / 2 <= IZR n * bpow F <= v + bpow F / 2)%R.
Proof.
  intros [[H1 H2] _]. pose proof (bpow_gt_0 F) as HF.
  assert (E : v = (v * bpow (- F) * bpow F)%R).
  { rewrite Rmult_assoc, (Rmult_comm (bpow (- F))), bpow_mul_opp. ring. }
  set (u := (v * bpow (- F))%R) in *.
  rewrite E. split; nra.
Qed.

(** The rounded expenses grow no faster than the income. *)
Lemma expenses_gap_pos M E M' E' :
  bounded prec emax M E = true -> bounded prec emax M' E' = true ->
  (IZR (Z.pos M) * bpow E < IZR (Z.pos M') * bpow E')%R ->
  (SF2R (mul (S754_finite false M' E') c) - SF2R (mul (S754_finite false M E) c)
   <= IZR (Z.pos M') * bpow E' - IZR (Z.pos M) * bpow E)%R.
Proof.
  intros Hb Hb' Hlt.
  destruct (pos_finite_nonneg c Hc) as (Hcn & Hcf & Hcp).
  assert (Hc1 : (SF2R c <= 1)%R) by lra.
  destruct (product_on_grid c Hc Hc1 M E Hb) as (F & n & Hg & Hne & _ & _ & Hp).
  destruct (product_on_grid c Hc Hc1 M' E' Hb') as (F' & n' & Hg' & Hne' & _ & _ & Hp').
  rewrite Hp, Hp'. clear Hp Hp'.
  destruct (gap_lower M E M' E' Hb Hb' Hlt) as (Hgap & k & Hk).
  set (t := (IZR (Z.pos M) * bpow E)%R) in *.
  set (t' := (IZR (Z.pos M') * bpow E')%R) in *.
  set (cc := SF2R c) in *.
  assert (Ht0 : (0 < t)%R).
  { unfold t. pose proof (bpow_gt_0 E).
    assert (0 < IZR (Z.pos M))%R by (apply IZR_lt; lia). nra. }
  assert (HFF : F <= F').
  { apply (grid_unique_le (t * cc) (t' * cc)); [nra|exact Hg|exact Hg']. }
  pose proof (nearest_even_bounds _ _ _ Hne) as [Hlo _].
  pose proof (nearest_even_bounds _ _ _ Hne') as [_ Hhi].
  pose proof (bpow_gt_0 F) as HbF. pose proof (bpow_gt_0 F') as HbF'.
  pose proof (bpow_le F F' HFF) as HbFF.
  destruct (Rle_lt_dec (2 * bpow F') (t' - t)) as [HA|HB].
  - nra.
  - assert (HF' : F' = emin).
    { destruct Hg' as (Hg1 & Hg2 & [Hg3|Hg3]); [exact Hg3|exfalso].
      pose proof (bounded_digits M' E' Hb') as (Hd' & He' & _).
      pose proof (digits2_bounds M') as [_ HM'].
      assert (HM53 : (IZR (Z.pos M') < bpow 53)%R).
      { rewrite bpow_IZR by lia. apply IZR_lt.
        assert (2 ^ Z.pos (digits2_pos M') <= 2 ^ 53)
          by (apply Z.pow_le_mono_r; lia). lia. }
      pose proof (bpow_gt_0 E') as HbE'.
      assert (H1 : (bpow (F' + prec - 1 + 3) < bpow (E' + 53))%R).
      { rewrite (bpow_add (F' + prec - 1) 3), (bpow_add E' 53).
        replace (bpow 3) with 8%R by (unfold bpow; simpl; lra).
        assert (t' < bpow 53 * bpow E')%R by (unfold t'; nra).
        nra. }
      apply bpow_lt_inv in H1. rewrite prec_eq in H1.
      assert (H2 : (bpow (F' + 1) <= bpow (E' - 1))%R) by (apply bpow_le; lia).
      rewrite bpow_succ in H2. lra. }
    assert (HF : F = emin) by (destruct Hg as (Hg1 & _); lia).
    subst F F'.
    pose proof (bpow_gt_0 emin) as Hbm.
    assert (Hk1 : k = 1).
    { assert (0 < IZR k)%R by nra. assert (IZR k < 2)%R by nra.
      apply lt_IZR in H. apply lt_IZR in H0. lia. }
    subst k.
    assert (Hn : n' - n <= 1).
    { assert (IZR (n' - n) < 2)%R; [|apply lt_IZR in H; lia].
      rewrite minus_IZR.
      assert ((IZR n' - IZR n) * bpow emin < 2 * bpow emin)%R by nra.
      nra. }
    apply IZR_le in Hn. rewrite minus_IZR in Hn. nra.
Qed.

End Expenses.

(** ** Income net of expenses *)

Section RegularMonotone.

Variable c : number.
Hypothesis Hc : pos_finite c.
Hypothesis Hc8 : (SF2R c <= / 8)%R.

Lemma mul_zero_value s : SF2R (mul (S754_zero s) c) = 0%R.
Proof.
  destruct c as [sc|sc| |sc mc ec]; try contradiction. reflexivity.
Qed.

(** [income - income * c] grows with the income. *)
Lemma net_of_share_mono t t' :
  le_nn t t' -> finite t' ->
  le_nn (sub t (mul t c)) (sub t' (mul t' c)) /\ finite (sub t' (mul t' c)).
Proof.
  intros Htt Hf'.
  destruct (le_nn_finite _ _ Htt Hf') as (Hf & Hv0 & Hv).
  pose proof Htt as (Hn & Hn' & _).
  assert (Hc1 : (SF2R c <= 1)%R) by lra.
  pose proof (mul_le_self t _ Hn Hc Hc1) as Hm.
  pose proof (mul_le_self t' _ Hn' Hc Hc1) as Hm'.
  destruct (le_nn_finite _ _ Hm Hf) as (Hmf & Hm0 & Hmv).
  destruct (le_nn_finite _ _ Hm' Hf') as (Hmf' & Hm0' & Hmv').
  pose proof (sub_spec t _ Hf Hmf) as Hs.
  pose proof (sub_spec t' _ Hf' Hmf') as Hs'.
  assert (Hgap : (SF2R (mul t' c) - SF2R (mul t c) <= SF2R t' - SF2R t)%R).
  { destruct (Rle_lt_or_eq_dec _ _ Hv) as [Hlt|Heq].
    - destruct t' as [s'|s'| |s' M' E']; try contradiction.
      + exfalso. unfold SF2R at 2 in Hlt. lra.
      + destruct s'; [contradiction|].
        destruct t as [s|s| |s M E]; try contradiction.
        * rewrite (mul_zero_value s). unfold SF2R at 3. lra.
        * destruct s; [contradiction|].
          exact (expenses_gap_pos _ Hc Hc8 M E M' E' Hn Hn' Hlt).
    - assert (Hrev : le_nn t' t).
      { apply le_nn_of_values; [exact Hn'|exact Hn|exact Hf'|exact Hf|lra]. }
      destruct (pos_finite_nonneg _ Hc) as (Hcn & Hcf & _).
      assert (Hz : is_inf t -> ~ is_zero c).
      { intros _ Hz. destruct c; try contradiction. }
      pose proof (mul_mono_r t' t _ Hrev Hcn Hcf Hz) as Hmm.
      destruct (le_nn_finite _ _ Hmm Hmf) as (_ & _ & Hvv).
      lra. }
  assert (Hd : (0 <= SF2R t - SF2R (mul t c) <= SF2R t' - SF2R (mul t' c))%R) by lra.
  split.
  - exact (rounds_to_mono _ _ _ _ Hd Hs Hs').
  - apply (le_nn_finite _ t').
    + apply sub_le_l; [exact Hn'|exact Hmf'|exact Hm'].
    + exact Hf'.
Qed.

End RegularMonotone.

(** ** The regular taxable income is monotone *)

Section TaxableMonotone.

Lemma sub_signed x D :
  finite x -> finite D -> nonneg (sub x D) \/ neg_like (sub x D).
Proof.
  intros Hx HD.
  exact (rounds_to_signed_result _ _ (sub_spec x D Hx HD)).
Qed.

(** [max(0, y - D - H)] grows with [y]. *)
Lemma double_clamp_mono y y' D H :
  le_nn y y' -> finite y' -> nonneg D -> finite D -> nonneg H -> finite H ->
  le_nn (max (of_Z 0) (sub (sub y D) H)) (max (of_Z 0) (sub (sub y' D) H)).
Proof.
  intros Hyy Hf' HD HDf HH HHf.
  destruct (le_nn_finite _ _ Hyy Hf') as (Hf & Hv0 & Hv).
  pose proof Hyy as (Hn & Hn' & _).
  destruct (Rle_lt_dec (SF2R D) (SF2R y)) as [Hle|Hlt].
  - apply clamp_sub_mono; [|exact HH|exact HHf].
    apply sub_mono; [exact Hyy|exact HDf|].
    apply le_nn_of_values; assumption.
  - assert (Hneg : neg_like (sub y D)).
    { assert (Hv' : (SF2R y - SF2R D <= 0)%R) by lra.
      exact (rounds_to_neg_like _ _ Hv' (sub_spec y D Hf HDf)). }
    rewrite (max0_neg_like _ (sub_neg_like _ _ Hneg HH HHf)).
    apply (zero_le_nn false).
    destruct (sub_signed y' D Hf' HDf) as [Hp|Hq].
    + apply max0_is_nonneg_of_sub; assumption.
    + rewrite (max0_neg_like _ (sub_neg_like _ _ Hq HH HHf)). exact I.
Qed.

Lemma regularTaxableIncomeOf_mono a b h :
  le_nn a b -> finite b ->
  le_nn (regularTaxableIncomeOf a h) (regularTaxableIncomeOf b h).
Proof.
  intros Hab Hb. unfold regularTaxableIncomeOf, actualExpensesOf.
  destruct tenth_value as [Hc [_ Hc8]].
  assert (Hc8' : (SF2R (decimal 1 10) <= / 8)%R) by lra.
  destruct (net_of_share_mono _ Hc Hc8' a b Hab Hb) as [Hm Hf].
  destruct standardDeduction_value as (HD & HDf & _).
  destruct (deduction_value h) as (HH & HHf & _).
  exact (double_clamp_mono _ _ _ _ Hm Hf HD HDf HH HHf).
Qed.

End TaxableMonotone.

(** ** Powers of two *)

Section Bracket.

Lemma pow2_value k :
  -1022 <= k <= 1023 ->
  nonneg (pow2 k) /\ finite (pow2 k) /\ SF2R (pow2 k) = bpow k.
Proof.
  intros Hk.
  assert (Hb : bounded prec emax 4503599627370496 (k - 52) = true).
  { apply bounded_iff. rewrite fexp_eq.
    change (Z.pos (digits2_pos 4503599627370496)) with 53.
    rewrite emax_eq, prec_eq. lia. }
  split; [exact Hb|]. split; [exact Hb|].
  unfold pow2, SF2R, F2R. simpl cond_Zopp.
  change (Z.pos 4503599627370496) with (2 ^ 52).
  rewrite <- bpow_IZR by lia. rewrite <- bpow_add. f_equal. lia.
Qed.

(** A positive double lies between two consecutive powers of two. *)
Lemma bracket m e :
  bounded prec emax m e = true ->
  let k := Z.pos (digits2_pos m) + e - 1 in
  (bpow k <= IZR (Z.pos m) * bpow e < bpow (k + 1))%R.
Proof.
  intros Hb k. subst k.
  pose proof (digits2_bounds m) as [H1 H2].
  pose proof (bpow_gt_0 e) as He.
  set (d := Z.pos (digits2_pos m)) in *.
  assert (Hd : 1 <= d) by (unfold d; lia).
  apply IZR_le in H1. apply IZR_lt in H2.
  rewrite <- bpow_IZR in H1 by lia. rewrite <- bpow_IZR in H2 by lia.
  replace (d + e - 1) with ((d - 1) + e) by lia.
  replace (d - 1 + e + 1) with (d + e) by lia.
  rewrite !bpow_add. split; nra.
Qed.

End Bracket.

(** ** The tax at the powers of two

    The tax on [2^(k+1)] is at most [2^k] for every exponent from 18 to
    1017, by evaluation; monotonicity carries the bound to the numbers in
    between. *)

Section TaxBound.

Lemma samples_checked :
  forallb (fun k => leb (calculateIncomeTax (pow2 (k + 1))) (pow2 k))
          sample_exponents = true.
Proof. vm_compute. reflexivity. Qed.

Lemma sample_bound k :
  18 <= k <= 1017 -> le_nn (calculateIncomeTax (pow2 (k + 1))) (pow2 k).
Proof.
  intros Hk.
  pose proof (proj1 (forallb_forall _ _) samples_checked k) as H.
  cbv beta in H.
  assert (Hin : In k sample_exponents).
  { unfold sample_exponents. apply in_map_iff. exists (Z.to_nat k).
    split; [lia|]. apply in_seq. lia. }
  specialize (H Hin).
  destruct (pow2_value k ltac:(lia)) as (Hn & _ & _).
  destruct (pow2_value (k + 1) ltac:(lia)) as (Hn1 & _ & _).
  exact (conj (calculateIncomeTax_nonneg _ Hn1) (conj Hn H)).
Qed.

Lemma tax_below_income_pos m e :
  bounded prec emax m e = true ->
  gtb (S754_finite false m e) (of_Z 300000) = true ->
  le_nn (S754_finite false m e) (pow2 1017) ->
  le_nn (calculateIncomeTax (S754_finite false m e)) (S754_finite false m e).
Proof.
  intros Hb Hgt Hle.
  set (x := S754_finite false m e) in *.
  assert (Hx : nonneg x) by exact Hb.
  pose proof (bracket m e Hb) as Hbr. cbv zeta in Hbr.
  set (k := Z.pos (digits2_pos m) + e - 1) in *.
  assert (Ex : SF2R x = (IZR (Z.pos m) * bpow e)%R) by reflexivity.
  assert (H3 : nonneg (of_Z 300000)) by (vm_compute; reflexivity).
  assert (Hk18 : 18 <= k).
  { pose proof (gate_le_nn x (of_Z 300000) Hx H3 Hgt) as H.
    destruct (le_nn_finite _ _ H Hb) as (_ & _ & Hv).
    destruct (of_Z_value 300000 ltac:(lia)) as (_ & _ & E3).
    rewrite E3, Ex in Hv.
    assert (H18 : (bpow 18 < bpow (k + 1))%R).
    { rewrite (bpow_IZR 18) by lia. change (2 ^ 18) with 262144. lra. }
    apply bpow_lt_inv in H18. lia. }
  assert (Hk1017 : k <= 1017).
  { destruct (pow2_value 1017 ltac:(lia)) as (_ & Hf & Ev).
    destruct (le_nn_finite _ _ Hle Hf) as (_ & _ & Hv).
    rewrite Ev, Ex in Hv.
    destruct (Z_le_gt_dec k 1017) as [?|Hgt']; [assumption|exfalso].
    assert (bpow 1017 < bpow k)%R by (apply bpow_lt; lia). lra. }
  destruct (pow2_value k ltac:(lia)) as (Hnk & Hfk & Evk).
  destruct (pow2_value (k + 1) ltac:(lia)) as (Hnk1 & Hfk1 & Evk1).
  assert (L1 : le_nn x (pow2 (k + 1))).
  { apply le_nn_of_values; [exact Hx|exact Hnk1|exact Hb|exact Hfk1|].
    rewrite Evk1, Ex. lra. }
  assert (L2 : le_nn (pow2 k) x).
  { apply le_nn_of_values; [exact Hnk|exact Hx|exact Hfk|exact Hb|].
    rewrite Evk, Ex. lra. }
  apply (le_nn_trans _ (calculateIncomeTax (pow2 (k + 1)))).
  + exact (calculateIncomeTax_mono _ _ L1).
  + apply (le_nn_trans _ (pow2 k)); [|exact L2].
    apply sample_bound. lia.
Qed.

End TaxBound.

(** ** The taxable incomes are below the income *)

Section ClampBelow.

(** [max(0, x - D)] does not exceed [x]. *)
Lemma clamp_sub_le x D :
  nonneg x -> finite x -> nonneg D -> finite D ->
  le_nn (max (of_Z 0) (sub x D)) x.
Proof.
  intros Hx Hxf HD HDf.
  destruct (Rle_lt_dec (SF2R D) (SF2R x)) as [Hle|Hlt].
  - assert (HDx : le_nn D x) by (apply le_nn_of_values; assumption).
    pose proof (sub_le_l x D Hx HDf HDx) as Hs.
    destruct Hs as (Hsn & _ & _).
    destruct (max0_nonneg _ Hsn) as [_ Hm].
    apply (le_nn_trans _ (sub x D)); [exact Hm|].
    exact (sub_le_l x D Hx HDf HDx).
  - assert (Hneg : neg_like (sub x D)).
    { assert (Hv : (SF2R x - SF2R D <= 0)%R) by lra.
      exact (rounds_to_neg_like _ _ Hv (sub_spec x D Hxf HDf)). }
    rewrite (max0_neg_like _ Hneg). exact (zero_le_nn false x Hx).
Qed.

Lemma section44adaIncomeOf_le t :
  nonneg t -> le_nn (section44adaIncomeOf t) t.
Proof.
  intros Ht. unfold section44adaIncomeOf.
  destruct half_value as [Hc Hv].
  apply mul_le_self; [exact Ht|exact Hc|lra].
Qed.

Lemma section44adaTaxableIncomeOf_le t :
  nonneg t -> finite t ->
  le_nn (section44adaTaxableIncomeOf t) (section44adaIncomeOf t).
Proof.
  intros Ht Hf. unfold section44adaTaxableIncomeOf.
  pose proof (section44adaIncomeOf_le t Ht) as Hle.
  destruct (le_nn_finite _ _ Hle Hf) as (Hif & _).
  destruct Hle as (Hin & _ & _).
  destruct standardDeduction_value as (HD & HDf & _).
  exact (clamp_sub_le _ _ Hin Hif HD HDf).
Qed.

Lemma regularTaxableIncomeOf_le t h :
  nonneg t -> finite t -> le_nn (regularTaxableIncomeOf t h) t.
Proof.
  intros Ht Hf. unfold regularTaxableIncomeOf, actualExpensesOf.
  destruct tenth_value as [Hc [_ Hc8]].
  assert (Hc1 : (SF2R (decimal 1 10) <= 1)%R) by lra.
  pose proof (mul_le_self t _ Ht Hc Hc1) as Hm.
  destruct (le_nn_finite _ _ Hm Hf) as (Hmf & _).
  pose proof (sub_le_l t _ Ht Hmf Hm) as H1.
  destruct (le_nn_finite _ _ H1 Hf) as (H1f & _).
  pose proof H1 as (H1n & _ & _).
  destruct standardDeduction_value as (HD & HDf & _).
  destruct (deduction_value h) as (HH & HHf & _).
  apply (le_nn_trans _ (sub t (mul t (decimal 1 10)))); [|exact H1].
  destruct (Rle_lt_dec (SF2R standardDeduction)
                       (SF2R (sub t (mul t (decimal 1 10))))) as [Hle|Hlt].
  - assert (HDx : le_nn standardDeduction (sub t (mul t (decimal 1 10))))
      by (apply le_nn_of_values; assumption).
    pose proof (sub_le_l _ _ H1n HDf HDx) as H2.
    destruct (le_nn_finite _ _ H2 H1f) as (H2f & _).
    pose proof H2 as (H2n & _ & _).
    apply (le_nn_trans _ (sub (sub t (mul t (decimal 1 10))) standardDeduction));
      [|exact H2].
    exact (clamp_sub_le _ _ H2n H2f HH HHf).
  - assert (Hneg : neg_like (sub (sub t (mul t (decimal 1 10))) standardDeduction)).
    { assert (Hv : (SF2R (sub t (mul t (decimal 1 10))) - SF2R standardDeduction
                    <= 0)%R) by lra.
      exact (rounds_to_neg_like _ _ Hv (sub_spec _ _ H1f HDf)). }
    rewrite (max0_neg_like _ (sub_neg_like _ _ Hneg HH HHf)).
    exact (zero_le_nn false _ H1n).
Qed.

End ClampBelow.

(** ** The tax is below the income *)

Section BoundLemmas.

Lemma below_1e300 x :
  nonneg x -> leb x (of_Z (10 ^ 300)) = true ->
  finite x /\ le_nn x (pow2 1017).
Proof.
  intros Hx Hle.
  assert (HB : nonneg (of_Z (10 ^ 300))) by (vm_compute; reflexivity).
  assert (HBf : finite (of_Z (10 ^ 300))) by (vm_compute; reflexivity).
  assert (HBp : le_nn (of_Z (10 ^ 300)) (pow2 1017)).
  { split; [exact HB|]. split; vm_compute; reflexivity. }
  assert (HxB : le_nn x (of_Z (10 ^ 300))) by exact (conj Hx (conj HB Hle)).
  split.
  - exact (proj1 (le_nn_finite _ _ HxB HBf)).
  - exact (le_nn_trans _ _ _ HxB HBp).
Qed.

Lemma tax_below_income x :
  nonneg x -> finite x -> le_nn x (pow2 1017) ->
  le_nn (calculateIncomeTax x) x.
Proof.
  intros Hx Hf Hle.
  destruct (gtb x (of_Z 300000)) eqn:Hg.
  - destruct x as [s|s| |s m e]; try contradiction.
    + destruct s; discriminate Hg.
    + destruct s; [contradiction|].
      exact (tax_below_income_pos m e Hx Hg Hle).
  - rewrite (calculateIncomeTax_low x (nonneg_number x Hx) Hg).
    exact (zero_le_nn false x Hx).
Qed.

End BoundLemmas.

(** ** The sign of a zero result *)

Section SignOfZero.

Lemma rounded_pos_not_neg_zero v y : rounded false v y -> y <> S754_zero true.
Proof.
  intros (E & n & _ & _ & Hr) ->. simpl in Hr. destruct Hr as [Hs _]. discriminate.
Qed.

Lemma rounds_to_pos_not_neg_zero v y :
  (0 < v)%R -> rounds_to v y -> y <> S754_zero true.
Proof.
  intros Hv [[_ Hr]|[[Hn _]|[Hz _]]]; [|lra|lra].
  exact (rounded_pos_not_neg_zero v y Hr).
Qed.

Lemma add_not_neg_zero x y :
  nonneg x -> nonneg y -> x <> S754_zero true -> add x y <> S754_zero true.
Proof.
  intros Hx Hy Hnz.
  destruct x as [sx|sx| |sx mx ex]; try contradiction.
  - destruct sx; [congruence|].
    destruct y as [sy|sy| |sy my ey]; try contradiction.
    + destruct sy; discriminate.
    + discriminate.
    + discriminate.
  - destruct sx; [contradiction|].
    change (S754_infinity false) with Infinity.
    rewrite (add_Infinity_l y Hy). discriminate.
  - destruct sx; [contradiction|].
    destruct y as [sy|sy| |sy my ey]; try contradiction.
    + discriminate.
    + destruct sy; [contradiction|]. discriminate.
    + destruct sy; [contradiction|].
      apply (rounds_to_pos_not_neg_zero
               (SF2R (S754_finite false mx ex) + SF2R (S754_finite false my ey))).
      * pose proof (SF2R_pos mx ex). pose proof (SF2R_pos my ey). simpl. lra.
      * apply add_spec; assumption.
Qed.

Lemma mul_not_neg_zero x c :
  nonneg x -> pos_finite c -> x <> S754_zero true -> mul x c <> S754_zero true.
Proof.
  intros Hx Hc Hnz.
  destruct (pos_finite_nonneg c Hc) as (Hcn & Hcf & Hcp).
  destruct x as [sx|sx| |sx mx ex]; try contradiction.
  - destruct sx; [congruence|].
    destruct c as [sc|sc| |sc mc ec]; try contradiction.
    destruct sc; [contradiction|]. discriminate.
  - destruct sx; [contradiction|].
    change (S754_infinity false) with Infinity.
    rewrite mul_Infinity_l; [discriminate|exact Hcn|].
    destruct c; try contradiction. exact (fun H => H).
  - destruct sx; [contradiction|].
    apply (rounds_to_pos_not_neg_zero (SF2R (S754_finite false mx ex) * SF2R c)).
    + pose proof (SF2R_pos mx ex). simpl. apply Rmult_lt_0_compat; assumption.
    + apply mul_spec; assumption.
Qed.

Lemma round_not_neg_zero z :
  nonneg z -> z <> S754_zero true -> round z <> S754_zero true.
Proof.
  intros Hz Hnz.
  destruct z as [s|s| |s m e]; try contradiction.
  - exact Hnz.
  - discriminate.
  - destruct s; [contradiction|].
    unfold round. destruct (Z.leb_spec 0 e) as [He|He]; [discriminate|].
    cbv zeta.
    match goal with
    | |- binary_normalize _ _ ?q _ _ <> _ =>
        assert (Hq : 0 <= q);
        [ apply Z.div_pos; [|apply Z.pow_pos_nonneg; lia];
          assert (0 <= 2 ^ (- e)) by (apply Z.pow_nonneg; lia); lia
        | destruct q as [|p|p]; [discriminate| |lia] ]
    end.
    apply (rounded_pos_not_neg_zero (IZR (Z.pos p) * bpow 0)).
    exact (binary_round_spec false p 0).
Qed.

End SignOfZero.

(** ** The tax is never -0 *)

Section TaxNotNegZero.

Lemma slabStep_shape a t s :
  wf_slab s -> nonneg a -> nonneg t -> t <> S754_zero true ->
  nonneg (slabStep a t s) /\ slabStep a t s <> S754_zero true.
Proof.
  intros Hs Ha Ht Hnz.
  pose proof (slabStep_mono a a t t s Hs (le_nn_refl a Ha) (le_nn_refl t Ht)) as (Hn & _).
  split; [exact Hn|].
  unfold slabStep. destruct (gtb a (slab_min s)) eqn:Hg; [|exact Hnz].
  cbv zeta. apply add_not_neg_zero; [exact Ht| |exact Hnz].
  exact (proj1 (contribution_mono a a s Hs (le_nn_refl a Ha) Hg)).
Qed.

Lemma fold_slabStep_shape slabs a t :
  Forall wf_slab slabs -> nonneg a -> nonneg t -> t <> S754_zero true ->
  nonneg (fold_left (slabStep a) slabs t) /\
  fold_left (slabStep a) slabs t <> S754_zero true.
Proof.
  intros Hs Ha. revert t.
  induction Hs as [|s l Hs _ IH]; intros t Ht Hnz; [exact (conj Ht Hnz)|].
  cbn [fold_left].
  destruct (slabStep_shape a t s Hs Ha Ht Hnz) as [H1 H2].
  exact (IH _ H1 H2).
Qed.

Lemma calculateIncomeTax_not_neg_zero x :
  is_number x -> calculateIncomeTax x <> S754_zero true.
Proof.
  intros Hx. destruct (number_cases x Hx) as [->|[Hn|Hn]].
  - rewrite calculateIncomeTax_NaN. discriminate.
  - unfold calculateIncomeTax, slabTax. cbv zeta.
    assert (H0 : of_Z 0 <> S754_zero true) by discriminate.
    destruct (fold_slabStep_shape taxSlabs x (of_Z 0) taxSlabs_wf Hn I H0) as [H1 H2].
    pose proof cess_pos_finite as Hc.
    destruct (pos_finite_nonneg _ Hc) as (Hcn & Hcf & _).
    apply round_not_neg_zero.
    + apply mul_nonneg; [exact H1|exact Hcn|exact Hcf|].
      intros _ Hz. revert Hc Hz. generalize (decimal 104 100).
      intros c Hc Hz. destruct c; contradiction.
    + apply mul_not_neg_zero; [exact H1|exact Hc|exact H2].
  - rewrite (calculateIncomeTax_low x Hx); [discriminate|].
    apply gtb_neg_like; [exact Hn|vm_compute; reflexivity].
Qed.

End TaxNotNegZero.

(** ** Whole numbers among the doubles *)

Section Integers.

(** A positive double has one canonical form. *)
Lemma canonical_unique m e m' e' :
  bounded prec emax m e = true -> bounded prec emax m' e' = true ->
  (IZR (Z.pos m) * bpow e = IZR (Z.pos m') * bpow e')%R ->
  m = m' /\ e = e'.
Proof.
  intros Hb Hb' Hv.
  assert (He : e = e').
  { destruct (Z.lt_trichotomy e e') as [H|[H|H]]; [exfalso|exact H|exfalso].
    - pose proof (F2R_lt_exp m e m' e' Hb Hb' H). lra.
    - pose proof (F2R_lt_exp m' e' m e Hb' Hb H). lra. }
  subst e'. split; [|reflexivity].
  pose proof (bpow_gt_0 e) as Hp.
  assert (IZR (Z.pos m) = IZR (Z.pos m'))%R by nra.
  apply eq_IZR in H. congruence.
Qed.

(** A double that is a whole number below 2^53 is [of_Z] of that number. *)
Lemma integer_double y n :
  nonneg y -> finite y -> y <> S754_zero true ->
  0 <= n < 2 ^ 53 -> SF2R y = IZR n -> y = of_Z n.
Proof.
  intros Hy Hf Hnz Hn Hv.
  destruct (of_Z_shape n Hn) as [[-> E]|[Hpos (m & e & E & Hb & Hm)]].
  - rewrite E. destruct y as [s|s| |s m e]; try contradiction.
    + destruct s; [congruence|reflexivity].
    + destruct s; [contradiction|]. pose proof (SF2R_pos m e).
      unfold SF2R in Hv. lra.
  - rewrite E. destruct y as [s|s| |s m' e']; try contradiction.
    + exfalso. simpl in Hv. apply eq_IZR in Hv. lia.
    + destruct s; [contradiction|].
      assert (Hv' : (IZR (Z.pos m') * bpow e' = IZR (Z.pos m) * bpow e)%R).
      { rewrite Hm, <- Hv. reflexivity. }
      destruct (canonical_unique m' e' m e Hy Hb Hv') as [-> ->]. reflexivity.
Qed.

(** The difference of two whole numbers below 2^53 is exact. *)
Lemma abs_sub_integers na nr :
  0 <= na <= nr -> nr < 2 ^ 53 ->
  abs (sub (of_Z na) (of_Z nr)) = of_Z (nr - na).
Proof.
  intros Hna Hnr.
  destruct (of_Z_value na ltac:(lia)) as (_ & Hfa & Eva).
  destruct (of_Z_value nr ltac:(lia)) as (_ & Hfr & Evr).
  pose proof (sub_spec _ _ Hfa Hfr) as Hs. rewrite Eva, Evr in Hs.
  destruct (Z.eq_dec na nr) as [->|Hne].
  - rewrite Z.sub_diag.
    destruct Hs as [[Hp _]|[[Hn _]|[_ [s ->]]]]; [lra|lra|reflexivity].
  - assert (Hlt : (IZR na - IZR nr < 0)%R).
    { assert (IZR na < IZR nr)%R by (apply IZR_lt; lia). lra. }
    destruct Hs as [[Hp _]|[[_ Hr]|[Hz _]]]; [lra| |lra].
    set (M := nr - na) in *.
    assert (HM : 0 < M < 2 ^ 53) by (unfold M; lia).
    assert (EM : (- (IZR na - IZR nr))%R = (IZR M * bpow 0)%R).
    { unfold M. rewrite minus_IZR, bpow_0. ring. }
    rewrite EM in Hr.
    assert (Hemin : emin <= 0) by (rewrite emin_eq; lia).
    pose proof (rounded_exact true M 0 _ HM Hemin Hr) as Hrep.
    destruct (of_Z_shape M ltac:(lia)) as [[E0 _]|[_ (m & e & E & Hb & Hm)]]; [lia|].
    rewrite E.
    destruct (sub (of_Z na) (of_Z nr)) as [s|s| |s m' e'].
    + exfalso. destruct Hrep as [_ Hv]. rewrite bpow_0 in Hv.
      assert (0 < IZR M)%R by (apply IZR_lt; lia). lra.
    + exfalso. destruct Hrep as [_ Hv]. rewrite bpow_0 in Hv.
      assert (IZR M < bpow 53)%R by (rewrite bpow_IZR by lia; apply IZR_lt; lia).
      assert (bpow 53 < bpow emax)%R by (apply bpow_lt; rewrite emax_eq; lia).
      lra.
    + contradiction.
    + destruct Hrep as (_ & Hb' & Hv).
      assert (Hv' : (IZR (Z.pos m') * bpow e' = IZR (Z.pos m) * bpow e)%R).
      { rewrite Hm, <- Hv, bpow_0. ring. }
      destruct (canonical_unique m' e' m e Hb' Hb Hv') as [-> ->]. reflexivity.
Qed.

End Integers.

(** ** Whole-number taxes *)

Section WholeResults.

Lemma bound_1e15 :
  nonneg (of_Z (10 ^ 15)) /\ finite (of_Z (10 ^ 15)) /\
  SF2R (of_Z (10 ^ 15)) = IZR (10 ^ 15) /\
  le_nn (of_Z (10 ^ 15)) (pow2 1017).
Proof.
  assert (Hr : 0 <= 10 ^ 15 < 2 ^ 53) by (vm_compute; split; [discriminate|reflexivity]).
  destruct (of_Z_value (10 ^ 15) Hr) as (H1 & H2 & H3).
  assert (H4 : nonneg (pow2 1017)) by (vm_compute; reflexivity).
  assert (H5 : leb (of_Z (10 ^ 15)) (pow2 1017) = true) by (vm_compute; reflexivity).
  exact (conj H1 (conj H2 (conj H3 (conj H1 (conj H4 H5))))).
Qed.

(** The tax on an income of at most 10^15 is a whole number, and the double
    is [of_Z] of it. *)
Lemma tax_is_integer x :
  le_nn x (of_Z (10 ^ 15)) ->
  exists n, 0 <= n <= 10 ^ 15 /\ calculateIncomeTax x = of_Z n /\
            SF2R (calculateIncomeTax x) = IZR n.
Proof.
  intros Hle.
  destruct bound_1e15 as (HB & HBf & HBv & HBp).
  pose proof Hle as (Hx & _ & _).
  destruct (le_nn_finite _ _ Hle HBf) as (Hxf & Hx0 & Hxv).
  pose proof (tax_below_income x Hx Hxf (le_nn_trans _ _ _ Hle HBp)) as Ht.
  destruct (le_nn_finite _ _ Ht Hxf) as (Hyf & Hy0 & Hyv).
  pose proof Ht as (Hy & _ & _).
  pose proof (calculateIncomeTax_whole x (or_introl Hx)) as Hw.
  destruct (round_spec_nn _ Hy Hyf) as (_ & _ & Hr).
  rewrite Hw in Hr.
  set (y := calculateIncomeTax x) in *.
  set (n := Zfloor (SF2R y + / 2)) in *.
  assert (Hn : 0 <= n <= 10 ^ 15).
  { split; apply le_IZR; rewrite <- Hr; [lra|]. rewrite <- HBv. lra. }
  exists n. split; [exact Hn|]. split; [|exact Hr].
  apply integer_double; [exact Hy|exact Hyf| |lia|exact Hr].
  exact (calculateIncomeTax_not_neg_zero x (nonneg_number x Hx)).
Qed.

End WholeResults.

(** ** Rounded shares of a whole amount *)

Section Share.

Variable c : number.
Hypothesis Hc : pos_finite c.
Hypothesis Hc1 : (SF2R c <= 1)%R.

(** Rounding a share of a whole amount: when the exact product [n * c]
    stays clear of the next half-integer by more than half a unit in the
    last place, and falls short of the previous one by less, [Math.round]
    of the product is the integer [k]. *)
Lemma round_share (n k Emax : Z) :
  0 < n < 2 ^ 53 -> 0 <= k < 2 ^ 51 -> emin <= Emax <= -1 ->
  let v := (IZR n * SF2R c)%R in
  (v < bpow (Emax + 53))%R ->
  (IZR k - / 2 - v <= v * bpow (-54))%R ->
  (v < IZR k + / 2 - bpow (Emax - 1))%R ->
  round (mul (of_Z n) c) = of_Z k.
Proof.
  intros Hn Hk HE v Ha Hlo Hup.
  destruct (of_Z_shape n ltac:(lia)) as [[E0 _]|[_ (M & Ee & EM & Hb & HM)]]; [lia|].
  rewrite EM.
  destruct (product_on_grid c Hc Hc1 M Ee Hb) as (F & n' & Hg & Hne & Hnn & Hfin & Hval).
  cbv zeta in Hg, Hne. rewrite HM in Hg, Hne. fold v in Hg, Hne.
  set (x := mul (S754_finite false M Ee) c) in *.
  assert (Hv0 : (0 < v)%R).
  { unfold v. destruct (pos_finite_nonneg c Hc) as (_ & _ & Hcp).
    apply Rmult_lt_0_compat; [apply IZR_lt; lia|exact Hcp]. }
  destruct Hg as (Hg1 & Hg2 & Hg3).
  assert (HF : F <= Emax).
  { destruct Hg3 as [->|Hg3]; [lia|].
    assert (H : (bpow (F + prec - 1) < bpow (Emax + 53))%R) by lra.
    apply bpow_lt_inv in H. rewrite prec_eq in H. lia. }
  pose proof (bpow_gt_0 F) as HbF.
  pose proof (bpow_gt_0 (- F)) as HbmF.
  assert (HFF : (bpow F * bpow (- F))%R = 1%R) by apply bpow_mul_opp.
  (* half a unit in the last place *)
  assert (Hhalf_le : (bpow F / 2 <= bpow (Emax - 1))%R).
  { replace (bpow F / 2)%R with (bpow (F - 1)).
    - apply bpow_le. lia.
    - replace F with ((F - 1) + 1) at 2 by lia. rewrite bpow_succ. field. }
  assert (Hhalf_gt : (v * bpow (-54) < bpow F / 2)%R).
  { rewrite prec_eq in Hg2.
    replace (bpow (F + 53)) with (bpow F / 2 * bpow 54)%R in Hg2.
    - pose proof (bpow_gt_0 (-54)) as H54.
      assert (E54 : (bpow 54 * bpow (-54))%R = 1%R) by apply bpow_mul_opp.
      assert (v * bpow (-54) < bpow F / 2 * bpow 54 * bpow (-54))%R
        by (apply Rmult_lt_compat_r; assumption).
      rewrite Rmult_assoc, E54 in H. lra.
    - replace (F + 53) with ((F - 1) + 54) by lia. rewrite bpow_add.
      replace F with ((F - 1) + 1) at 1 by lia. rewrite bpow_succ. field. }
  (* the half-integers around [k] on the grid *)
  set (P := 2 ^ (- F - 1)).
  assert (HP : (IZR P * bpow F)%R = (/ 2)%R).
  { unfold P. rewrite <- bpow_IZR by lia. rewrite <- bpow_add.
    replace (- F - 1 + F) with (- (1)) by lia.
    unfold bpow. simpl. lra. }
  destruct Hne as [[Hn1 Hn2] _].
  set (t := (v * bpow (- F))%R) in *.
  assert (Et : v = (t * bpow F)%R).
  { unfold t. rewrite Rmult_assoc, (Rmult_comm (bpow (- F))), HFF. ring. }
  assert (Hx : (IZR k - / 2 <= IZR n' * bpow F < IZR k + / 2)%R).
  { split.
    - assert (H : (2 * k - 1) * P <= n').
      { assert (IZR ((2 * k - 1) * P) - 1 < IZR n')%R; [|
          assert ((2 * k - 1) * P - 1 < n')
            by (apply lt_IZR; rewrite minus_IZR; exact H); lia].
        rewrite mult_IZR, minus_IZR, mult_IZR.
        assert ((2 * IZR k - 1) * IZR P * bpow F - bpow F < IZR n' * bpow F)%R;
          [|nra].
        rewrite Rmult_assoc, HP. nra. }
      apply IZR_le in H. rewrite mult_IZR, minus_IZR, mult_IZR in H.
      assert ((2 * IZR k - 1) * IZR P * bpow F <= IZR n' * bpow F)%R by nra.
      rewrite Rmult_assoc, HP in H0. lra.
    - assert (H : n' < (2 * k + 1) * P).
      { apply lt_IZR. rewrite mult_IZR, plus_IZR, mult_IZR.
        assert (IZR n' * bpow F < (2 * IZR k + 1) * IZR P * bpow F)%R; [|nra].
        rewrite Rmult_assoc, HP. nra. }
      assert (H' : n' + 1 <= (2 * k + 1) * P) by lia.
      apply IZR_le in H'. rewrite plus_IZR, mult_IZR, plus_IZR, mult_IZR in H'.
      assert ((IZR n' + 1) * bpow F <= (2 * IZR k + 1) * IZR P * bpow F)%R by nra.
      rewrite Rmult_assoc, HP in H0. lra. }
  rewrite <- Hval in Hx.
  assert (Hlt52 : (SF2R x < bpow 52)%R).
  { rewrite (bpow_IZR 52) by lia.
    assert (IZR k + 1 <= IZR (2 ^ 52))%R.
    { rewrite <- plus_IZR. apply IZR_le.
      change (2 ^ 51) with 2251799813685248 in Hk.
      change (2 ^ 52) with 4503599627370496. lia. }
    lra. }
  assert (Hfl : Zfloor (SF2R x + / 2) = k) by (apply Zfloor_eq; lra).
  destruct (round_of_small x Hnn Hfin Hlt52) as [H|[s H]].
  - rewrite H, Hfl. reflexivity.
  - assert (Hnz : x <> S754_zero true).
    { apply mul_not_neg_zero; [exact Hb|exact Hc|discriminate]. }
    assert (Hk0 : k = 0).
    { rewrite H in Hx. simpl in Hx.
      assert (IZR k < 1)%R by lra. apply lt_IZR in H0. lia. }
    rewrite Hk0, H. destruct s; [exfalso; exact (Hnz H)|reflexivity].
Qed.

End Share.

(** ** The three percentages of the schedule *)

Section Percentages.

Lemma value_15 : SF2R (decimal 15 100) = (5404319552844595 / 36028797018963968)%R.
Proof.
  rewrite decimal_15_100. unfold SF2R, F2R. simpl cond_Zopp.
  change (-55) with (- (55)). rewrite (bpow_neg_IZR 55) by lia.
  change (2 ^ 55) with 36028797018963968. reflexivity.
Qed.

Lemma value_45 : SF2R (decimal 45 100) = (8106479329266893 / 18014398509481984)%R.
Proof.
  rewrite decimal_45_100. unfold SF2R, F2R. simpl cond_Zopp.
  change (-54) with (- (54)). rewrite (bpow_neg_IZR 54) by lia.
  change (2 ^ 54) with 18014398509481984. reflexivity.
Qed.

Lemma value_75 : SF2R (decimal 75 100) = (3 / 4)%R.
Proof.
  rewrite decimal_75_100. unfold SF2R, F2R. simpl cond_Zopp.
  change (-53) with (- (53)). rewrite (bpow_neg_IZR 53) by lia.
  change (2 ^ 53) with 9007199254740992. lra.
Qed.

Lemma bpow_m54 : bpow (-54) = (/ 18014398509481984)%R.
Proof. change (-54) with (- (54)). rewrite (bpow_neg_IZR 54) by lia. reflexivity. Qed.

Lemma bpow_small k v : 0 <= k -> IZR (2 ^ k) = v -> bpow (- k) = (/ v)%R.
Proof. intros Hk <-. apply bpow_neg_IZR. exact Hk. Qed.

Lemma share_15 n :
  0 <= n <= 10 ^ 15 ->
  round (mul (of_Z n) (decimal 15 100)) = of_Z ((15 * n + 50) / 100).
Proof.
  intros Hn. change (10 ^ 15) with 1000000000000000 in Hn.
  destruct (Z.eq_dec n 0) as [->|Hn0]; [vm_compute; reflexivity|].
  destruct percentages_ordered as (P1 & _ & _ & _ & _ & _).
  set (k := (15 * n + 50) / 100).
  assert (Hk : 100 * k <= 15 * n + 50 /\ 15 * n <= 100 * k + 45).
  { assert (Ek : k = (3 * n + 10) / 20).
    { unfold k. replace (15 * n + 50) with (5 * (3 * n + 10)) by lia.
      change 100 with (5 * 20).
      rewrite Z.div_mul_cancel_l by lia. reflexivity. }
    rewrite Ek.
    pose proof (Z.div_mod (3 * n + 10) 20 ltac:(lia)).
    pose proof (Z.mod_pos_bound (3 * n + 10) 20 ltac:(lia)).
    split; lia. }
  destruct Hk as [Hz1 Hz2].
  pose proof (IZR_le _ _ Hz1) as Hk1. pose proof (IZR_le _ _ Hz2) as Hk2.
  rewrite !plus_IZR, !mult_IZR in Hk1, Hk2.
  assert (HnR : (1 <= IZR n <= 1000000000000000)%R)
    by (split; apply IZR_le; lia).
  apply (round_share _ P1 ltac:(rewrite value_15; lra) n k (-5)).
  - change (2 ^ 53) with 9007199254740992. lia.
  - change (2 ^ 51) with 2251799813685248. lia.
  - rewrite emin_eq. lia.
  - cbv zeta. rewrite value_15. change (-5 + 53) with 48.
    rewrite (bpow_IZR 48) by lia. change (2 ^ 48) with 281474976710656. lra.
  - cbv zeta. rewrite value_15, bpow_m54. lra.
  - cbv zeta. rewrite value_15. change (-5 - 1) with (- (6)).
    rewrite (bpow_neg_IZR 6) by lia. change (2 ^ 6) with 64. lra.
Qed.

Lemma share_45 n :
  0 <= n <= 10 ^ 15 ->
  round (mul (of_Z n) (decimal 45 100)) = of_Z ((45 * n + 50) / 100).
Proof.
  intros Hn. change (10 ^ 15) with 1000000000000000 in Hn.
  destruct (Z.eq_dec n 0) as [->|Hn0]; [vm_compute; reflexivity|].
  destruct percentages_ordered as (_ & P2 & _ & _ & _ & _).
  set (k := (45 * n + 50) / 100).
  assert (Hk : 100 * k <= 45 * n + 50 /\ 45 * n <= 100 * k + 45).
  { assert (Ek : k = (9 * n + 10) / 20).
    { unfold k. replace (45 * n + 50) with (5 * (9 * n + 10)) by lia.
      change 100 with (5 * 20).
      rewrite Z.div_mul_cancel_l by lia. reflexivity. }
    rewrite Ek.
    pose proof (Z.div_mod (9 * n + 10) 20 ltac:(lia)).
    pose proof (Z.mod_pos_bound (9 * n + 10) 20 ltac:(lia)).
    split; lia. }
  destruct Hk as [Hz1 Hz2].
  pose proof (IZR_le _ _ Hz1) as Hk1. pose proof (IZR_le _ _ Hz2) as Hk2.
  rewrite !plus_IZR, !mult_IZR in Hk1, Hk2.
  assert (HnR : (1 <= IZR n <= 1000000000000000)%R)
    by (split; apply IZR_le; lia).
  apply (round_share _ P2 ltac:(rewrite value_45; lra) n k (-4)).
  - change (2 ^ 53) with 9007199254740992. lia.
  - change (2 ^ 51) with 2251799813685248. lia.
  - rewrite emin_eq. lia.
  - cbv zeta. rewrite value_45. change (-4 + 53) with 49.
    rewrite (bpow_IZR 49) by lia. change (2 ^ 49) with 562949953421312. lra.
  - cbv zeta. rewrite value_45, bpow_m54. lra.
  - cbv zeta. rewrite value_45. change (-4 - 1) with (- (5)).
    rewrite (bpow_neg_IZR 5) by lia. change (2 ^ 5) with 32. lra.
Qed.

Lemma share_75 n :
  0 <= n <= 10 ^ 15 ->
  round (mul (of_Z n) (decimal 75 100)) = of_Z ((75 * n + 50) / 100).
Proof.
  intros Hn. change (10 ^ 15) with 1000000000000000 in Hn.
  destruct (Z.eq_dec n 0) as [->|Hn0]; [vm_compute; reflexivity|].
  destruct percentages_ordered as (_ & _ & P3 & _ & _ & _).
  set (k := (75 * n + 50) / 100).
  assert (Hk : 100 * k <= 75 * n + 50 /\ 75 * n <= 100 * k + 25).
  { assert (Ek : k = (3 * n + 2) / 4).
    { unfold k. replace (75 * n + 50) with (25 * (3 * n + 2)) by lia.
      change 100 with (25 * 4).
      rewrite Z.div_mul_cancel_l by lia. reflexivity. }
    rewrite Ek.
    pose proof (Z.div_mod (3 * n + 2) 4 ltac:(lia)).
    pose proof (Z.mod_pos_bound (3 * n + 2) 4 ltac:(lia)).
    split; lia. }
  destruct Hk as [Hz1 Hz2].
  pose proof (IZR_le _ _ Hz1) as Hk1. pose proof (IZR_le _ _ Hz2) as Hk2.
  rewrite !plus_IZR, !mult_IZR in Hk1, Hk2.
  assert (HnR : (1 <= IZR n <= 1000000000000000)%R)
    by (split; apply IZR_le; lia).
  apply (round_share _ P3 ltac:(rewrite value_75; lra) n k (-3)).
  - change (2 ^ 53) with 9007199254740992. lia.
  - change (2 ^ 51) with 2251799813685248. lia.
  - rewrite emin_eq. lia.
  - cbv zeta. rewrite value_75. change (-3 + 53) with 50.
    rewrite (bpow_IZR 50) by lia. change (2 ^ 50) with 1125899906842624. lra.
  - cbv zeta. rewrite value_75, bpow_m54. lra.
  - cbv zeta. rewrite value_75. change (-3 - 1) with (- (4)).
    rewrite (bpow_neg_IZR 4) by lia. change (2 ^ 4) with 16. lra.
Qed.

End Percentages.

(** ** Financial-year labels *)

Section Labels.

Local Open Scope string_scope.

Lemma digit_no_dash d : 0 <= d < 10 -> digit d <> "-"%char.
Proof.
  intros Hd.
  assert (H : d = 0 \/ d = 1 \/ d = 2 \/ d = 3 \/ d = 4 \/ d = 5 \/ d = 6 \/
              d = 7 \/ d = 8 \/ d = 9) by lia.
  repeat (destruct H as [->|H]; [discriminate|]). subst d. discriminate.
Qed.

Lemma no_dash_app s t : no_dash s -> no_dash t -> no_dash (s ++ t).
Proof. induction s; simpl; [auto|]. intros [H1 H2] Ht. split; auto. Qed.

Lemma digits_no_dash fuel n : 0 <= n -> no_dash (digits fuel n).
Proof.
  revert n. induction fuel as [|fuel IH]; intros n Hn; simpl.
  - split; [|exact I]. apply digit_no_dash. apply Z.mod_pos_bound. lia.
  - destruct (Z.ltb_spec n 10) as [Hlt|Hge].
    + split; [|exact I]. apply digit_no_dash. lia.
    + apply no_dash_app.
      * apply IH. apply Z.div_pos; lia.
      * split; [|exact I]. apply digit_no_dash. apply Z.mod_pos_bound. lia.
Qed.

Lemma toString_no_dash n : 0 <= n -> no_dash (toString n).
Proof.
  intros Hn. unfold toString.
  destruct (Z.ltb_spec n 0) as [?|_]; [lia|]. apply digits_no_dash. exact Hn.
Qed.

(** What stands before the first dash is determined by the string. *)
Lemma split_at_dash u1 u2 r1 r2 :
  no_dash u1 -> no_dash u2 ->
  u1 ++ String "-" r1 = u2 ++ String "-" r2 -> u1 = u2.
Proof.
  revert u2. induction u1 as [|c u1 IH]; intros [|c' u2] H1 H2 E; simpl in *.
  - reflexivity.
  - exfalso. injection E as E _. destruct H2 as [H2 _]. congruence.
  - exfalso. injection E as E _. destruct H1 as [H1 _]. congruence.
  - injection E as -> E. f_equal. apply (IH u2); tauto.
Qed.

Lemma toString_inj a b : 0 <= a -> 0 <= b -> toString a = toString b -> a = b.
Proof.
  intros Ha Hb E.
  rewrite <- (toString_parse a Ha), <- (toString_parse b Hb), E. reflexivity.
Qed.

Lemma financialYearLabel_inj a b :
  0 <= a -> 0 <= b -> financialYearLabel a = financialYearLabel b -> a = b.
Proof.
  intros Ha Hb E. unfold financialYearLabel in E.
  apply toString_inj; [exact Ha|exact Hb|].
  exact (split_at_dash _ _ _ _ (toString_no_dash a Ha) (toString_no_dash b Hb) E).
Qed.

Lemma getCurrentFinancialYear_label d :
  getCurrentFinancialYear d = financialYearLabel (financialYearStart d).
Proof.
  unfold getCurrentFinancialYear, financialYearLabel, financialYearStart.
  cbv zeta. destruct (4 <=? getMonth d + 1)%Z; [reflexivity|].
  replace (getFullYear d - 1 + 1)%Z with (getFullYear d) by lia. reflexivity.
Qed.

End Labels.

(** ** GST amounts *)

Section Gst.

Lemma mul_comm x y : mul x y = mul y x.
Proof.
  destruct x as [sx|sx| |sx mx ex], y as [sy|sy| |sy my ey]; simpl;
    try reflexivity; try (rewrite xorb_comm; reflexivity).
  unfold mul, SFmul. rewrite (xorb_comm sx sy), (Pos.mul_comm mx my), (Z.add_comm ex ey).
  reflexivity.
Qed.


Lemma round_number x : nonneg x \/ neg_like x -> nonneg (round x) \/ neg_like (round x).
Proof.
  intros [H|H].
  - left. exact (round_nonneg x H).
  - destruct x as [s|s| |s m e]; try contradiction.
    + right. exact I.
    + right. exact H.
    + unfold round. destruct (0 <=? e); [right; exact H|].
      cbv zeta.
      match goal with
      | |- nonneg ?y \/ neg_like ?y =>
          match y with
          | binary_normalize _ _ ?q _ _ =>
              exact (rounds_to_signed_result _ _
                       (binary_normalize_spec q 0 s))
          end
      end.
Qed.

Lemma div_100_number x :
  nonneg x \/ neg_like x ->
  nonneg (div x (of_Z 100)) \/ neg_like (div x (of_Z 100)).
Proof.
  intros H.
  assert (E100 : exists m e, of_Z 100 = S754_finite false m e)
    by (eexists; eexists; vm_compute; reflexivity).
  destruct E100 as (m & e & E). rewrite E.
  destruct x as [s|s| |s mx ex].
  - apply (rounds_to_signed_result _ _ (div_spec (S754_zero s) false m e I)).
  - destruct s; [right|left]; exact I.
  - destruct H; contradiction.
  - assert (Hf : finite (S754_finite s mx ex)).
    { destruct H as [H|H]; destruct s; try contradiction; exact H. }
    apply (rounds_to_signed_result _ _ (div_spec _ false m e Hf)).
Qed.

Lemma signed_not_nan y : nonneg y \/ neg_like y -> is_nan y = false.
Proof. destruct y as [s|s| |s m e]; simpl; [auto|auto|tauto|auto]. Qed.

Lemma calculateGST_not_nan a r :
  finite a -> finite r -> is_nan (calculateGST a r) = false.
Proof.
  intros Ha Hr. unfold calculateGST.
  apply signed_not_nan, round_number, div_100_number.
  exact (rounds_to_signed_result _ _ (mul_spec a r Ha Hr)).
Qed.

End Gst.

(** ** Totals of transactions *)

Section RouteLemmas.

Variable parseFloat : string -> number.

Let step := fun (sum : number) (txn : Routes.Transaction) =>
  add sum (parseFloat (Routes.amount txn)).

Lemma fold_amounts_grow (more : list Routes.Transaction) (acc : number) :
  Forall (fun x => is_number (parseFloat (Routes.amount x)) /\
                   leb (of_Z 0) (parseFloat (Routes.amount x)) = true) more ->
  nonneg acc ->
  le_nn acc (fold_left step more acc).
Proof.
  intros H. revert acc. induction H as [|x l [Hx1 Hx2] _ IH]; intros acc Hacc.
  - exact (le_nn_refl acc Hacc).
  - cbn [fold_left].
    pose proof (number_nonneg _ Hx1 Hx2) as Hx.
    pose proof (add_ge_l acc _ Hacc Hx) as H1.
    apply (le_nn_trans _ (step acc x)); [exact H1|].
    apply IH. exact (proj1 (proj2 H1)).
Qed.

Lemma totalIncomeOf_app txs more :
  Routes.totalIncomeOf parseFloat (txs ++ more)
  = fold_left step more (Routes.totalIncomeOf parseFloat txs).
Proof. unfold Routes.totalIncomeOf. rewrite fold_left_app. reflexivity. Qed.

Lemma totalIncomeOf_grows txs more :
  Forall (fun x => is_number (parseFloat (Routes.amount x)) /\
                   leb (of_Z 0) (parseFloat (Routes.amount x)) = true) (txs ++ more) ->
  le_nn (Routes.totalIncomeOf parseFloat txs)
        (Routes.totalIncomeOf parseFloat (txs ++ more)).
Proof.
  intros H. apply Forall_app in H. destruct H as [H1 H2].
  rewrite totalIncomeOf_app. apply fold_amounts_grow; [exact H2|].
  pose proof (fold_amounts_grow txs (of_Z 0) H1 I) as (_ & Hn & _). exact Hn.
Qed.

End RouteLemmas.

(** ** Months before January *)

Section MonthLemmas.

(** No stored date has the month of an index before January. *)
Lemma no_month_before_january (m : Routes.Month) (i : Z) (d : Routes.StoredDate) :
  0 <= i <= 7 -> Routes.monthIndex m - 7 + i < 0 ->
  Routes.strictEquals (Routes.getMonth d)
    (add (sub (of_Z (Routes.monthIndex m)) (of_Z 7)) (of_Z i)) = false.
Proof.
  intros Hi Hm.
  assert (H : i = 0 \/ i = 1 \/ i = 2 \/ i = 3 \/ i = 4 \/ i = 5 \/ i = 6 \/ i = 7)
    by lia.
  destruct m; cbn [Routes.monthIndex] in *;
    repeat (destruct H as [->|H]; [try lia; destruct d as [|[]]; vm_compute; reflexivity|]);
    subst i; try lia; destruct d as [|[]]; vm_compute; reflexivity.
Qed.

Lemma filter_none {A} (f : A -> bool) (l : list A) :
  (forall x, f x = false) -> filter f l = [].
Proof.
  intros H. induction l as [|x l IH]; [reflexivity|].
  cbn [filter]. rewrite (H x). exact IH.
Qed.

End MonthLemmas.

(** ** Properties of the service *)

(** C1, as stated, fails: at [calculateTax(1000000, false)] the Section 44ADA
    tax is not 5200 and the savings are not 31200. *)
Lemma calculateTax_1000000_not_as_claimed :
  let r := calculateTax april_2024 (of_Z 1000000) false in
  ~ (section44adaTax r = of_Z 5200 /\ regularTax r = of_Z 36400 /\
     recommendedScheme r = section44ada /\ savings r = of_Z 31200).
Proof. intros r [H _]. vm_compute in H. discriminate H. Qed.

(** C1, amended: [calculateTax(1000000, false)] has presumptive income
    500000 and taxable income 450000, slab tax (450000 - 300000) * 5% = 7500
    and, times 1.04, [section44adaTax = 7800]; regular taxable income 850000,
    slab tax 35000 and [regularTax = 36400]; the recommended scheme is
    Section 44ADA and the savings are 28600. *)
Theorem calculateTax_1000000 (now : Date) :
  let r := calculateTax now (of_Z 1000000) false in
  section44adaIncome r = of_Z 500000 /\
  section44adaTaxableIncomeOf (of_Z 1000000) = of_Z 450000 /\
  slabTax taxSlabs (of_Z 450000) = of_Z 7500 /\
  section44adaTax r = of_Z 7800 /\
  regularTaxableIncome r = of_Z 850000 /\
  slabTax taxSlabs (of_Z 850000) = of_Z 35000 /\
  regularTax r = of_Z 36400 /\
  recommendedScheme r = section44ada /\
  savings r = of_Z 28600.
Proof. vm_compute. repeat split. Qed.

(** C2, as stated, fails: the income +Infinity is not negative, and there
    the regular taxable income is NaN, the regular tax 0 and the Section
    44ADA tax +Infinity, so that the recommended scheme is the regular
    one. *)
Lemma regular_recommended_at_infinity :
  let r := calculateTax april_2024 Infinity false in
  is_number Infinity /\ leb (of_Z 0) Infinity = true /\
  leb (section44adaTaxableIncomeOf Infinity) (regularTaxableIncome r) = false /\
  leb (section44adaTax r) (regularTax r) = false /\
  recommendedScheme r = regular /\
  ~ (recommendedScheme r = section44ada).
Proof. vm_compute. repeat split; discriminate. Qed.

Lemma nonneg_not_finite t : nonneg t -> is_finite t = false -> t = Infinity.
Proof.
  destruct t as [s|s| |s m e]; simpl; intros Hn Hf; try discriminate; try contradiction.
  - destruct s; [contradiction|reflexivity].
  - destruct s; [contradiction|congruence].
Qed.

(** C2, amended: for every finite income that is not negative and either
    value of [hasHealthInsurance], the Section 44ADA taxable income never
    exceeds the regular taxable income, so [section44adaTax <= regularTax]
    and the recommended scheme is Section 44ADA; the only income that is
    not negative and reaches the regular branch is +Infinity. *)
Theorem section44ada_recommended_unless_infinite (now : Date) (t : number) (h : bool) :
  is_number t -> leb (of_Z 0) t = true ->
  let r := calculateTax now t h in
  (is_finite t = true ->
   leb (section44adaTaxableIncomeOf t) (regularTaxableIncome r) = true /\
   leb (section44adaTax r) (regularTax r) = true /\
   recommendedScheme r = section44ada) /\
  (is_finite t = false ->
   t = Infinity /\
   section44adaTaxableIncomeOf t = Infinity /\ regularTaxableIncome r = NaN /\
   section44adaTax r = Infinity /\ regularTax r = of_Z 0 /\
   recommendedScheme r = regular).
Proof.
  intros Hx H0 r. subst r.
  pose proof (number_nonneg t Hx H0) as Hn.
  split.
  - intros Hf. apply is_finite_finite in Hf.
    pose proof (taxable_incomes_ordered t h Hn Hf) as Hle.
    pose proof (calculateIncomeTax_mono _ _ Hle) as (_ & _ & Htax).
    rewrite recommendedScheme_eq, section44adaTax_eq, regularTax_eq,
      regularTaxableIncome_eq.
    rewrite Htax. destruct Hle as (_ & _ & Hle). auto.
  - intros Hf. rewrite (nonneg_not_finite t Hn Hf).
    destruct h; vm_compute; repeat split.
Qed.

Lemma section44ada_recommended_unless_infinite_witness :
  is_number (of_Z 1000000) /\ leb (of_Z 0) (of_Z 1000000) = true /\
  is_finite (of_Z 1000000) = true /\
  recommendedScheme (calculateTax april_2024 (of_Z 1000000) true) = section44ada.
Proof.
  assert (H1 : is_number (of_Z 1000000)) by (vm_compute; reflexivity).
  assert (H2 : leb (of_Z 0) (of_Z 1000000) = true) by (vm_compute; reflexivity).
  assert (H3 : is_finite (of_Z 1000000) = true) by (vm_compute; reflexivity).
  exact (conj H1 (conj H2 (conj H3
           (proj2 (proj2 (proj1 (section44ada_recommended_unless_infinite
                                   april_2024 (of_Z 1000000) true H1 H2) H3)))))).
Defined.

(** C3, as stated, fails: at the income 1e308 both taxes overflow to
    +Infinity and the savings are NaN, which is not [>= 0]. *)
Lemma savings_not_nonneg_at_1e308 :
  let r := calculateTax april_2024 (of_Z (10 ^ 308)) false in
  section44adaTax r = Infinity /\ regularTax r = Infinity /\
  savings r = NaN /\ leb (of_Z 0) (savings r) = false.
Proof. vm_compute. repeat split. Qed.

(** C3, amended: for every income and [hasHealthInsurance], the recommended
    scheme is Section 44ADA if [section44adaTax <= regularTax] and regular
    otherwise (ties favour Section 44ADA), and
    [savings = |section44adaTax - regularTax|], which is [>= 0] unless both
    taxes are +Infinity, where it is NaN. *)
Theorem recommendation_and_savings (now : Date) (t : number) (h : bool) :
  is_number t ->
  let r := calculateTax now t h in
  recommendedScheme r
  = (if leb (section44adaTax r) (regularTax r) then section44ada else regular) /\
  savings r = abs (sub (section44adaTax r) (regularTax r)) /\
  (leb (of_Z 0) (savings r) = true \/
   (section44adaTax r = Infinity /\ regularTax r = Infinity /\ savings r = NaN)).
Proof.
  intros Ht r. subst r.
  split; [apply recommendedScheme_eq|]. split; [apply savings_eq|].
  destruct (taxes_nonneg now t h Ht) as [Ha Hr].
  rewrite savings_eq. now apply savings_cases.
Qed.

Lemma recommendation_and_savings_witness :
  is_number (of_Z 1000000) /\
  savings (calculateTax april_2024 (of_Z 1000000) false)
  = abs (sub (section44adaTax
                (calculateTax april_2024 (of_Z 1000000) false))
             (regularTax
                (calculateTax april_2024 (of_Z 1000000) false))).
Proof.
  assert (H1 : is_number (of_Z 1000000)) by (vm_compute; reflexivity).
  exact (conj H1
           (proj1 (proj2 (recommendation_and_savings
                            april_2024
                            (of_Z 1000000) false H1)))).
Defined.

(** C4: the progressive income tax function is monotonically
    non-decreasing: for all taxable incomes [a], [b] with [0 <= a <= b],
    [calculateIncomeTax a <= calculateIncomeTax b]. *)
Theorem calculateIncomeTax_monotone (a b : number) :
  is_number a -> is_number b ->
  leb (of_Z 0) a = true -> leb a b = true ->
  leb (calculateIncomeTax a) (calculateIncomeTax b) = true.
Proof.
  intros Ha Hb H0 Hab.
  pose proof (number_nonneg a Ha H0) as Hna.
  pose proof (nonneg_above a b Hna Hb Hab) as Hnb.
  apply (calculateIncomeTax_mono a b). repeat split; assumption.
Qed.

Lemma calculateIncomeTax_monotone_witness :
  is_number (of_Z 300000) /\ is_number (of_Z 700000) /\
  leb (of_Z 0) (of_Z 300000) = true /\ leb (of_Z 300000) (of_Z 700000) = true /\
  leb (calculateIncomeTax (of_Z 300000)) (calculateIncomeTax (of_Z 700000)) = true.
Proof.
  assert (H1 : is_number (of_Z 300000)) by (vm_compute; reflexivity).
  assert (H2 : is_number (of_Z 700000)) by (vm_compute; reflexivity).
  assert (H3 : leb (of_Z 0) (of_Z 300000) = true) by (vm_compute; reflexivity).
  assert (H4 : leb (of_Z 300000) (of_Z 700000) = true) by (vm_compute; reflexivity).
  exact (conj H1 (conj H2 (conj H3 (conj H4
           (calculateIncomeTax_monotone (of_Z 300000) (of_Z 700000) H1 H2 H3 H4))))).
Defined.

(** The annual tax that [calculateTax] passes to the scheduler is a whole
    number that is not negative, and the amounts of its schedule are
    non-decreasing. *)
Lemma taxable_incomes_numbers (t : number) (h : bool) :
  is_number t ->
  is_number (sub (section44adaIncomeOf t) standardDeduction) /\
  is_number (sub (sub (sub t (actualExpensesOf t)) standardDeduction)
                 (if h then healthInsuranceDeduction else of_Z 0)).
Proof.
  intros Ht.
  assert (HD : is_number standardDeduction) by (apply number_of_Z_small; lia).
  assert (HH : is_number (if h then healthInsuranceDeduction else of_Z 0)).
  { destruct h; apply number_of_Z_small; lia. }
  split.
  - apply sub_number; [|exact HD].
    apply mul_number; [exact Ht|exact decimal_5_10_number].
  - apply sub_number; [|exact HH]. apply sub_number; [|exact HD].
    apply sub_number; [exact Ht|].
    apply mul_number; [exact Ht|exact decimal_1_10_number].
Qed.

Lemma max0_whole (y : number) :
  is_number y ->
  round (calculateIncomeTax (max (of_Z 0) y)) = calculateIncomeTax (max (of_Z 0) y).
Proof.
  intros Hy. apply calculateIncomeTax_whole.
  destruct (max0_cases y Hy) as [H|H]; [right|left]; exact H.
Qed.

Lemma calculateTax_schedule_nondecreasing (now : Date) (t : number) (h : bool) :
  is_number t ->
  exists a1 a2 a3 a4,
    map amount (advanceTaxSchedule (calculateTax now t h)) = [a1; a2; a3; a4] /\
    leb a1 a2 = true /\ leb a2 a3 = true /\ leb a3 a4 = true.
Proof.
  intros Ht. rewrite finalTax_eq.
  destruct (taxes_nonneg now t h Ht) as [Ha Hr].
  destruct (taxable_incomes_numbers t h Ht) as [Hya Hyr].
  pose proof (max0_whole _ Hya) as Hwa. pose proof (max0_whole _ Hyr) as Hwr.
  rewrite section44adaTax_eq in *. rewrite regularTax_eq in *.
  fold (section44adaTaxableIncomeOf t) in Hwa.
  fold (regularTaxableIncomeOf t h) in Hwr.
  set (ta := calculateIncomeTax (section44adaTaxableIncomeOf t)) in *.
  set (tr := calculateIncomeTax (regularTaxableIncomeOf t h)) in *.
  assert (H : nonneg (if leb ta tr then ta else tr) /\
              round (if leb ta tr then ta else tr) = (if leb ta tr then ta else tr)).
  { destruct (leb ta tr); split; [exact Ha|exact Hwa|exact Hr|exact Hwr]. }
  destruct H as [Hn Hw].
  destruct (instalments_ordered _ Hn Hw) as ((_ & _ & H1) & (_ & _ & H2) & (_ & _ & H3)).
  rewrite schedule_amounts.
  exact (ex_intro _ _ (ex_intro _ _ (ex_intro _ _ (ex_intro _ _
           (conj eq_refl (conj H1 (conj H2 H3))))))).
Qed.

Lemma final_tax_whole (now : Date) (t : number) (h : bool) :
  is_number t ->
  exists f,
    advanceTaxSchedule (calculateTax now t h) = calculateAdvanceTaxSchedule now f /\
    is_number f /\ leb (of_Z 0) f = true /\ round f = f.
Proof.
  intros Ht. rewrite finalTax_eq.
  destruct (taxes_nonneg now t h Ht) as [Ha Hr].
  destruct (taxable_incomes_numbers t h Ht) as [Hya Hyr].
  pose proof (max0_whole _ Hya) as Hwa. pose proof (max0_whole _ Hyr) as Hwr.
  rewrite section44adaTax_eq in *. rewrite regularTax_eq in *.
  fold (section44adaTaxableIncomeOf t) in Hwa.
  fold (regularTaxableIncomeOf t h) in Hwr.
  set (ta := calculateIncomeTax (section44adaTaxableIncomeOf t)) in *.
  set (tr := calculateIncomeTax (regularTaxableIncomeOf t h)) in *.
  exists (if leb ta tr then ta else tr). split; [reflexivity|].
  destruct (leb ta tr).
  - exact (conj (nonneg_number _ Ha) (conj (zero_leb_nn false _ Ha) Hwa)).
  - exact (conj (nonneg_number _ Hr) (conj (zero_leb_nn false _ Hr) Hwr)).
Qed.

Lemma instalments_ordered_any tax :
  nonneg tax ->
  le_nn (round (mul tax (decimal 15 100))) (round (mul tax (decimal 45 100))) /\
  le_nn (round (mul tax (decimal 45 100))) (round (mul tax (decimal 75 100))) /\
  le_nn (round (mul tax (decimal 75 100))) (round tax).
Proof.
  intros Hn.
  destruct percentages_ordered as (H15 & H45 & H75 & Hle1 & Hle2 & Hc).
  split; [|split].
  - apply round_mono. exact (mul_mono_l tax _ _ Hn H15 H45 Hle1).
  - apply round_mono. exact (mul_mono_l tax _ _ Hn H45 H75 Hle2).
  - apply round_mono. exact (mul_le_self tax _ Hn H75 Hc).
Qed.

Lemma three_quarters_value : SF2R (decimal 75 100) = (3 / 4)%R.
Proof.
  rewrite decimal_75_100. unfold SF2R, F2R. simpl cond_Zopp.
  change (bpow (-53)) with (bpow (- (53))). rewrite (bpow_neg_IZR 53) by lia.
  change (2 ^ 53) with 9007199254740992. lra.
Qed.

Lemma decimal_2_3 : decimal 2 3 = S754_finite false 6004799503160661 (-53).
Proof. vm_compute. reflexivity. Qed.

Lemma floor_below (x : R) (k : Z) : (x < IZR k + 1)%R -> (IZR (Zfloor x) <= IZR k)%R.
Proof.
  intros H. pose proof (Zfloor_bound x) as [H1 _].
  apply IZR_le. assert (Zfloor x < k + 1); [|lia].
  apply lt_IZR. rewrite plus_IZR. lra.
Qed.

(** The third instalment does not exceed an annual tax of at least 1, nor
    one below the double nearest to 2/3. *)
Lemma third_instalment_le M E :
  bounded prec emax M E = true ->
  let tax := S754_finite false M E in
  ltb tax (decimal 2 3) = true \/ leb (of_Z 1) tax = true ->
  le_nn (round (mul tax (decimal 75 100))) tax.
Proof.
  intros Hb tax Hc.
  assert (Hn : nonneg tax) by exact Hb.
  assert (Hf : finite tax) by exact Hb.
  destruct percentages_ordered as (_ & _ & H75 & _ & _ & Hc1).
  destruct (pos_finite_nonneg _ H75) as (_ & Hf75 & _).
  pose proof (mul_le_self tax _ Hn H75 Hc1) as Hle.
  destruct (le_nn_finite _ _ Hle Hf) as [Hmf [Hm0 HmT]].
  pose proof (proj1 Hle) as Hmn.
  destruct (round_spec_nn _ Hmn Hmf) as (Hrn & Hrf & Hrv).
  apply le_nn_of_values; try assumption. rewrite Hrv.
  pose proof (mul_spec tax _ Hf Hf75) as Hm. rewrite three_quarters_value in Hm.
  assert (HT : SF2R tax = (IZR (Z.pos M) * bpow E)%R) by reflexivity.
  assert (HT0 : (0 < SF2R tax)%R) by (rewrite HT; apply (SF2R_pos M E)).
  set (T := SF2R tax) in *. set (X := SF2R (mul tax (decimal 75 100))) in *.
  destruct Hc as [Hc|Hc].
  - (* below 2/3 *)
    assert (Hnh : nonneg (decimal 2 3)) by (vm_compute; reflexivity).
    assert (Hlt : leb (decimal 2 3) tax = false).
    { apply gtb_nn_iff; [exact Hnh|exact Hn|]. exact Hc. }
    assert (HltR : (T < SF2R (decimal 2 3))%R).
    { destruct (Rlt_dec T (SF2R (decimal 2 3))) as [H|H]; [exact H|exfalso].
      assert (leb (decimal 2 3) tax = true); [|congruence].
      apply leb_nn_iff; [exact Hnh|exact Hn|]. right.
      split; [rewrite decimal_2_3; simpl; tauto|]. fold T. lra. }
    rewrite decimal_2_3 in HltR.
    change (SF2R (S754_finite false 6004799503160661 (-53)))
      with (IZR (Z.pos 6004799503160661) * bpow (-53))%R in HltR.
    rewrite HT in HltR.
    assert (Hbh : bounded prec emax 6004799503160661 (-53) = true)
      by (vm_compute; reflexivity).
    destruct (gap_lower M E _ _ Hb Hbh HltR) as [Hgap _].
    change (-53 - 1) with (-54) in Hgap.
    set (P0 := S754_finite false 9007199254740991 (-54)).
    assert (HP0 : finite P0) by (vm_compute; reflexivity).
    assert (VP0 : SF2R P0 = (IZR 9007199254740991 * bpow (-54))%R) by reflexivity.
    assert (E53 : bpow (-53) = (2 * bpow (-54))%R).
    { replace (-53) with (-54 + 1) by lia. apply bpow_succ. }
    pose proof (bpow_gt_0 (-54)) as Hp54.
    assert (E54 : (IZR 18014398509481984 * bpow (-54) = 1)%R).
    { change (bpow (-54)) with (bpow (- (54))). rewrite (bpow_neg_IZR 54) by lia.
      change (2 ^ 54) with 18014398509481984. lra. }
    rewrite <- HT in Hgap. fold T in Hgap. rewrite E53 in Hgap.
    assert (Hv : (0 <= T * (3 / 4) <= SF2R P0)%R).
    { rewrite VP0. split; [lra|]. lra. }
    pose proof (rounds_to_mono _ _ _ _ Hv Hm (rounds_to_self P0 HP0)) as HleP.
    destruct (le_nn_finite _ _ HleP HP0) as [_ [_ HXP]]. fold X in HXP.
    rewrite VP0 in HXP.
    apply Rle_trans with (IZR 0); [|simpl; lra].
    apply floor_below. simpl. lra.
  - (* at least 1 *)
    destruct (of_Z_value 1 ltac:(lia)) as (Hn1 & Hf1 & Hv1).
    assert (Hge : (1 <= T)%R).
    { apply leb_nn_iff in Hc; [|exact Hn1|exact Hn].
      destruct Hc as [Hc|[_ Hc]]; [destruct Hc|]. rewrite Hv1 in Hc. exact Hc. }
    destruct (Rlt_dec T 2) as [H2|H2].
    + (* between 1 and 2 *)
      assert (Hb2 : bounded prec emax 4503599627370496 (-51) = true)
        by (vm_compute; reflexivity).
      assert (V2 : (IZR (Z.pos 4503599627370496) * bpow (-51) = 2)%R).
      { change (bpow (-51)) with (bpow (- (51))). rewrite (bpow_neg_IZR 51) by lia.
        change (2 ^ 51) with 2251799813685248. lra. }
      assert (Hlt : (IZR (Z.pos M) * bpow E
                     < IZR (Z.pos 4503599627370496) * bpow (-51))%R).
      { rewrite V2, <- HT. exact H2. }
      destruct (gap_lower M E _ _ Hb Hb2 Hlt) as [Hgap _].
      rewrite V2, <- HT in Hgap. fold T in Hgap.
      change (-51 - 1) with (-52) in Hgap.
      assert (E52 : bpow (-52) = (2 * bpow (-53))%R).
      { replace (-52) with (-53 + 1) by lia. apply bpow_succ. }
      rewrite E52 in Hgap.
      pose proof (bpow_gt_0 (-53)) as He.
      set (e := bpow (-53)) in *.
      assert (Hmin : (bpow (-1022) <= T * (3 / 4))%R).
      { apply Rle_trans with (bpow (-1)).
        - apply bpow_le. lia.
        - change (bpow (-1)) with (bpow (- (1))). rewrite (bpow_neg_IZR 1) by lia.
          change (2 ^ 1) with 2. lra. }
      destruct Hm as [[_ Hm]|[[H _]|[H _]]]; [|exfalso; lra|exfalso; lra].
      pose proof (rounded_error false _ _ Hmin Hm (finite_not_inf _ Hmf)) as [_ Herr].
      rewrite Rabs_right in Herr by (apply Rle_ge; exact Hm0).
      fold X in Herr. fold e in Herr.
      assert (H1 : (T * (3 / 4) * (1 + e) <= (3 / 2 - 3 / 2 * e) * (1 + e))%R).
      { apply Rmult_le_compat_r; lra. }
      assert (Hsq : (0 < e * e)%R) by (apply Rmult_lt_0_compat; lra).
      assert (Heq : ((3 / 2 - 3 / 2 * e) * (1 + e) = 3 / 2 - 3 / 2 * (e * e))%R) by ring.
      apply Rle_trans with (IZR 1); [|simpl; lra].
      apply floor_below. simpl. lra.
    + (* at least 2 *)
      assert (Hv1' : (1 <= T * (3 / 4))%R) by lra.
      destruct (rounds_to_error _ _ Hv1' Hm Hmf) as [_ [_ Herr]]. fold X in Herr.
      destruct (Rlt_dec T 3) as [H3|H3].
      * apply Rle_trans with (IZR 2); [|simpl; lra].
        apply floor_below. simpl. lra.
      * pose proof (Zfloor_bound (X + / 2)) as [Hfl _]. lra.
Qed.

(** The same for every annual tax that is not negative. *)
Lemma third_instalment_ordered tax :
  nonneg tax ->
  ltb tax (decimal 2 3) = true \/ leb (of_Z 1) tax = true ->
  le_nn (round (mul tax (decimal 75 100))) tax.
Proof.
  intros Hn Hc.
  destruct (instalments_ordered_any tax Hn) as (_ & _ & H3).
  destruct tax as [s|[]| |[] M E]; simpl in Hn; try contradiction.
  - exact H3.
  - exact H3.
  - exact (third_instalment_le M E Hn Hc).
Qed.

(** The third amount exceeds a fractional annual tax between 2/3 and 1,
    such as 0.7, where [round(0.7 * 0.75) = 1]; no call of the service
    passes such a tax. *)
Lemma schedule_decreases_at_0_7 :
  let s := calculateAdvanceTaxSchedule april_2024
             (decimal 7 10) in
  leb (of_Z 0) (decimal 7 10) = true /\
  map amount s = [of_Z 0; of_Z 0; of_Z 1; decimal 7 10] /\
  leb (of_Z 1) (decimal 7 10) = false.
Proof. vm_compute. repeat split. Qed.

(** C5: for every annual tax that is not negative the scheduler returns
    exactly four payments, quarters 1 to 4 with cumulative percentages 15,
    45, 75 and 100; the first three amounts are non-decreasing and the
    third is at most the annual tax rounded to a whole number; the fourth
    is the annual tax itself, unrounded.  An annual tax is a whole number:
    [calculateTax], the only caller of the scheduler, passes nothing else,
    whatever the income, and for a whole annual tax the four amounts are
    non-decreasing.  So they are for every annual tax of at least 1 and
    for every one below the double nearest to 2/3, whole or not.  For the
    annual tax 36400 the amounts are 5460, 16380, 27300 and 36400. *)
Theorem advance_tax_schedule_invariants (now : Date) (annualTax : number) :
  is_number annualTax -> leb (of_Z 0) annualTax = true ->
  let s := calculateAdvanceTaxSchedule now annualTax in
  List.length s = 4%nat /\
  map quarter s = [1; 2; 3; 4] /\
  map percentage s = [15; 45; 75; 100] /\
  (exists a1 a2 a3,
     map amount s = [a1; a2; a3; annualTax] /\
     leb a1 a2 = true /\ leb a2 a3 = true /\
     leb a3 (round annualTax) = true /\
     (round annualTax = annualTax -> leb a3 annualTax = true) /\
     (ltb annualTax (decimal 2 3) = true \/ leb (of_Z 1) annualTax = true ->
      leb a3 annualTax = true)) /\
  (forall (t : number) (h : bool),
     is_number t ->
     exists f,
       advanceTaxSchedule (calculateTax now t h) = calculateAdvanceTaxSchedule now f /\
       is_number f /\ leb (of_Z 0) f = true /\ round f = f) /\
  map amount (calculateAdvanceTaxSchedule now (of_Z 36400))
  = [of_Z 5460; of_Z 16380; of_Z 27300; of_Z 36400].
Proof.
  intros Hx H0 s. subst s.
  pose proof (number_nonneg annualTax Hx H0) as Hn.
  destruct (instalments_ordered_any annualTax Hn)
    as ((_ & _ & H1) & (_ & _ & H2) & (_ & _ & H3)).
  split; [reflexivity|]. split; [reflexivity|]. split; [reflexivity|].
  split; [|split].
  - exists (round (mul annualTax (decimal 15 100))),
           (round (mul annualTax (decimal 45 100))),
           (round (mul annualTax (decimal 75 100))).
    split; [apply schedule_amounts|].
    split; [exact H1|]. split; [exact H2|]. split; [exact H3|]. split.
    + intros Hw. rewrite Hw in H3. exact H3.
    + intros Hc. exact (proj2 (proj2 (third_instalment_ordered annualTax Hn Hc))).
  - intros t h Ht. exact (final_tax_whole now t h Ht).
  - rewrite schedule_amounts. vm_compute. reflexivity.
Qed.

Lemma advance_tax_schedule_invariants_witness :
  is_number (of_Z 36400) /\ leb (of_Z 0) (of_Z 36400) = true /\
  exists a1 a2 a3,
    map amount (calculateAdvanceTaxSchedule april_2024 (of_Z 36400))
    = [a1; a2; a3; of_Z 36400] /\
    leb a1 a2 = true /\ leb a2 a3 = true /\ leb a3 (of_Z 36400) = true.
Proof.
  assert (H1 : is_number (of_Z 36400)) by (vm_compute; reflexivity).
  assert (H2 : leb (of_Z 0) (of_Z 36400) = true) by (vm_compute; reflexivity).
  assert (H3 : round (of_Z 36400) = of_Z 36400) by (vm_compute; reflexivity).
  refine (conj H1 (conj H2 _)).
  destruct (proj1 (proj2 (proj2 (proj2
              (advance_tax_schedule_invariants april_2024 (of_Z 36400) H1 H2)))))
    as (a1 & a2 & a3 & E & L1 & L2 & _ & L3 & _).
  exact (ex_intro _ a1 (ex_intro _ a2 (ex_intro _ a3
           (conj E (conj L1 (conj L2 (L3 H3))))))).
Defined.

(** C6: slab boundary exactness of the progressive tax function:
    [calculateIncomeTax(300000) = 0], the slab tax before cess being 0, and
    [calculateIncomeTax(700000) = (400000 * 0.05) * 1.04 = 20800]. *)
Theorem slab_boundary_exactness :
  slabTax taxSlabs (of_Z 300000) = of_Z 0 /\
  calculateIncomeTax (of_Z 300000) = of_Z 0 /\
  slabTax taxSlabs (of_Z 700000) = mul (of_Z 400000) (decimal 5 100) /\
  calculateIncomeTax (of_Z 700000)
  = round (mul (mul (of_Z 400000) (decimal 5 100)) (decimal 104 100)) /\
  calculateIncomeTax (of_Z 700000) = of_Z 20800.
Proof. vm_compute. repeat split. Qed.

(** C7: [calculateTax(0)] returns [section44adaTax = 0], [regularTax = 0],
    [recommendedScheme = "section44ada"] and [savings = 0]. *)
Theorem calculateTax_zero (now : Date) :
  let r := calculateTax_default now (of_Z 0) in
  section44adaTax r = of_Z 0 /\ regularTax r = of_Z 0 /\
  recommendedScheme r = section44ada /\ savings r = of_Z 0.
Proof. vm_compute. repeat split. Qed.

(** C8, as stated, fails: at the income -Infinity, which is a number below
    zero, the regular taxable income is NaN and not clamped to 0 (the
    expenses are -Infinity too and their difference is NaN). *)
Lemma regular_income_not_clamped_at_neg_infinity :
  let r := calculateTax april_2024
             (S754_infinity true) false in
  ltb (S754_infinity true) (of_Z 0) = true /\
  regularTaxableIncome r = NaN /\ regularTaxableIncome r <> of_Z 0.
Proof. vm_compute. repeat split. discriminate. Qed.

(** C8, amended: [calculateTax] is total and signals no error: for every
    number, NaN and the infinities included, it returns a result whose two
    taxes are numbers that are not negative (never NaN) and whose schedule
    has four payments; and for every finite income below zero both taxable
    incomes are clamped to 0, so that both taxes and the savings are 0 and
    the recommended scheme is Section 44ADA. *)
Theorem calculateTax_total (now : Date) (t : number) (h : bool) :
  is_number t ->
  let r := calculateTax now t h in
  (leb (of_Z 0) (section44adaTax r) = true /\
   leb (of_Z 0) (regularTax r) = true /\
   List.length (advanceTaxSchedule r) = 4%nat) /\
  (is_finite t = true -> ltb t (of_Z 0) = true ->
   section44adaTaxableIncomeOf t = of_Z 0 /\
   regularTaxableIncome r = of_Z 0 /\
   section44adaTax r = of_Z 0 /\ regularTax r = of_Z 0 /\
   recommendedScheme r = section44ada /\ savings r = of_Z 0 /\
   map amount (advanceTaxSchedule r) = [of_Z 0; of_Z 0; of_Z 0; of_Z 0]).
Proof.
  intros Ht r. subst r. split.
  - destruct (taxes_nonneg now t h Ht) as [Ha Hr].
    split; [|split].
    + exact (zero_leb_nn false _ Ha).
    + exact (zero_leb_nn false _ Hr).
    + rewrite finalTax_eq. reflexivity.
  - intros Hf Hneg.
    destruct t as [s|s| |s m e]; simpl in Hf; try discriminate Hf.
    + destruct s; discriminate Hneg.
    + destruct s; [|discriminate Hneg].
      destruct (negative_income_clamps m e h Hf) as [H1 H2].
      rewrite finalTax_eq, recommendedScheme_eq, savings_eq, section44adaTax_eq,
        regularTax_eq, regularTaxableIncome_eq, H1, H2, calculateIncomeTax_zero.
      repeat split; first [apply schedule_zero | reflexivity].
Qed.

Lemma calculateTax_total_witness :
  is_number (of_Z (-1000)) /\ is_finite (of_Z (-1000)) = true /\
  ltb (of_Z (-1000)) (of_Z 0) = true /\
  regularTaxableIncome
    (calculateTax april_2024 (of_Z (-1000)) true)
  = of_Z 0.
Proof.
  assert (H1 : is_number (of_Z (-1000))) by (vm_compute; reflexivity).
  assert (H2 : is_finite (of_Z (-1000)) = true) by (vm_compute; reflexivity).
  assert (H3 : ltb (of_Z (-1000)) (of_Z 0) = true) by (vm_compute; reflexivity).
  exact (conj H1 (conj H2 (conj H3
           (proj1 (proj2 (proj2 (calculateTax_total
                                   april_2024
                                   (of_Z (-1000)) true H1) H2 H3)))))).
Defined.

(** C9, as stated, fails: in April 2008 the function returns ["2008-09"],
    not ["2008-9"], which is the year followed by [(2008 + 1) mod 100]. *)
Lemma financial_year_2008_not_as_claimed :
  let now := {| getFullYear := 2008; getMonth := 3 |} in
  getCurrentFinancialYear now = "2008-09"%string /\
  getCurrentFinancialYear_spec now = "2008-9"%string /\
  getCurrentFinancialYear now <> getCurrentFinancialYear_spec now.
Proof. vm_compute. repeat split. discriminate. Qed.

(** C9, amended: with the current date as a parameter, from the year 10 on,
    [getCurrentFinancialYear] in month April or later of year Y returns Y,
    a dash and the last two digits of Y + 1, zero padded; in January to
    March it returns Y - 1, a dash and the last two digits of Y.  This is
    the string of the specification whenever that two-digit number is at
    least 10. *)
Theorem getCurrentFinancialYear_two_digits (now : Date) :
  10 <= getFullYear now ->
  let Y := getFullYear now in
  let month := getMonth now + 1 in
  (4 <= month ->
   getCurrentFinancialYear now
   = (toString Y ++ "-" ++ two_digits ((Y + 1) mod 100))%string /\
   (10 <= (Y + 1) mod 100 ->
    getCurrentFinancialYear now = getCurrentFinancialYear_spec now)) /\
  (month < 4 ->
   getCurrentFinancialYear now
   = (toString (Y - 1) ++ "-" ++ two_digits (Y mod 100))%string /\
   (10 <= Y mod 100 ->
    getCurrentFinancialYear now = getCurrentFinancialYear_spec now)).
Proof.
  intros HY Y month. unfold getCurrentFinancialYear, getCurrentFinancialYear_spec.
  fold Y. fold month. split; intros Hm.
  - destruct (Z.leb_spec 4 month) as [_|?]; [|lia].
    rewrite toString_last2 by (unfold Y; lia). split; [reflexivity|].
    intros Hk. rewrite (toString_two_digits ((Y + 1) mod 100)); [reflexivity|].
    pose proof (Z.mod_pos_bound (Y + 1) 100 ltac:(lia)). lia.
  - destruct (Z.leb_spec 4 month) as [?|_]; [lia|].
    rewrite toString_last2 by (unfold Y; lia). split; [reflexivity|].
    intros Hk. rewrite (toString_two_digits (Y mod 100)); [reflexivity|].
    pose proof (Z.mod_pos_bound Y 100 ltac:(lia)). lia.
Qed.

Lemma getCurrentFinancialYear_two_digits_witness :
  10 <= 2024 /\
  getCurrentFinancialYear april_2024 = "2024-25"%string.
Proof.
  assert (H1 : 10 <= getFullYear april_2024) by (simpl; lia).
  assert (H2 : 4 <= getMonth april_2024 + 1) by (simpl; lia).
  split; [lia|].
  exact (proj1 (proj1 (getCurrentFinancialYear_two_digits
                         april_2024 H1) H2)).
Defined.

(** C10, as stated, fails: in exact arithmetic [516.80 × 31.25 / 100] is
    161.5, which rounds to 162, while [calculateGST(516.80, 31.25)] is
    161: the double nearest to 516.80 lies below it, and so does the
    quotient. *)
Lemma calculateGST_516_80_at_31_25 :
  calculateGST (decimal 51680 100) (decimal 3125 100) = of_Z 161 /\
  calculateGST_spec 51680 100 3125 100 = 162 /\
  calculateGST (decimal 51680 100) (decimal 3125 100)
  <> of_Z (calculateGST_spec 51680 100 3125 100).
Proof. vm_compute. repeat split. discriminate. Qed.

Lemma calculateGST_spec_whole a r :
  calculateGST_spec a 1 r 1 = (a * r + 50) / 100.
Proof.
  unfold calculateGST_spec.
  replace (2 * a * r + 100 * 1 * 1) with (2 * (a * r + 50)) by lia.
  change (200 * 1 * 1) with (2 * 100).
  apply Z.div_mul_cancel_l; lia.
Qed.

(** A rounding whose magnitude is at most that of a finite double is
    finite. *)
Lemma rounds_to_finite v y x :
  finite x -> (Rabs v <= Rabs (SF2R x))%R -> rounds_to v y -> finite y.
Proof.
  intros Hx Hv Hr.
  destruct Hr as [[H0 Hr]|[[H0 Hr]|[_ [s ->]]]]; [| |exact I].
  - destruct x as [sx| | |sx m e]; simpl in Hx; try contradiction.
    + exfalso. simpl in Hv. rewrite Rabs_R0 in Hv. rewrite Rabs_right in Hv by lra. lra.
    + pose proof (rounded_self false m e Hx) as Hs.
      assert (Hm : (0 <= v <= IZR (Z.pos m) * bpow e)%R).
      { split; [lra|]. rewrite Rabs_right in Hv by lra.
        destruct (represents_value true _ (S754_finite true m e)
                    (conj eq_refl (conj Hx eq_refl))) as [[[] _]|(_ & Ha & _)].
        destruct (represents_value false _ (S754_finite false m e)
                    (conj eq_refl (conj Hx eq_refl))) as [[[] _]|(_ & Hb & _)].
        destruct sx; [rewrite Ha|rewrite Hb]; exact Hv. }
      destruct (rounded_mag false _ _ _ _ Hm Hr Hs (fun H => H)) as [Hi _].
      exact (nonneg_finite y (rounded_nonneg v y Hr) Hi).
  - destruct x as [sx| | |sx m e]; simpl in Hx; try contradiction.
    + exfalso. simpl in Hv. rewrite Rabs_R0 in Hv. rewrite Rabs_left in Hv by lra. lra.
    + pose proof (rounded_self true m e Hx) as Hs.
      assert (Hm : (0 <= - v <= IZR (Z.pos m) * bpow e)%R).
      { split; [lra|]. rewrite Rabs_left in Hv by lra.
        destruct (represents_value true _ (S754_finite true m e)
                    (conj eq_refl (conj Hx eq_refl))) as [[[] _]|(_ & Ha & _)].
        destruct (represents_value false _ (S754_finite false m e)
                    (conj eq_refl (conj Hx eq_refl))) as [[[] _]|(_ & Hb & _)].
        destruct sx; [rewrite Ha|rewrite Hb]; exact Hv. }
      destruct (rounded_mag true _ _ _ _ Hm Hr Hs (fun H => H)) as [Hi _].
      apply neg_like_finite; [|exact Hi].
      apply rounds_to_neg_like with v; [lra|].
      right; left. exact (conj H0 Hr).
Qed.

(** [Math.round] of a negative finite double. *)
Lemma round_spec_neg m e :
  bounded prec emax m e = true ->
  finite (round (S754_finite true m e)) /\
  SF2R (round (S754_finite true m e))
  = IZR (Zfloor (SF2R (S754_finite true m e) + / 2)).
Proof.
  intros Hb. unfold round. destruct (Z.leb_spec 0 e) as [He|He].
  - split; [exact Hb|]. simpl. unfold F2R. simpl cond_Zopp.
    rewrite bpow_IZR by assumption. rewrite <- mult_IZR. f_equal.
    symmetry. apply Zfloor_eq. lra.
  - rewrite round_quotient by assumption.
    pose proof (bounded_digits m e Hb) as (Hd & He' & _).
    pose proof (digits2_bounds m) as [_ Hm].
    change (SF2R (S754_finite true m e)) with (IZR (Z.neg m) * bpow e)%R.
    set (v := (IZR (Z.neg m) * bpow e)%R).
    assert (Hv0 : (v < 0)%R).
    { unfold v. pose proof (bpow_gt_0 e).
      assert (IZR (Z.neg m) < 0)%R by (apply IZR_lt; lia). nra. }
    assert (Hv1 : (- bpow 52 < v)%R).
    { unfold v. change (Z.neg m) with (- Z.pos m). rewrite opp_IZR.
      assert (IZR (Z.pos m) * bpow e < bpow 52)%R; [|lra].
      apply Rlt_le_trans with (bpow 53 * bpow e)%R.
      - apply Rmult_lt_compat_r; [apply bpow_gt_0|].
        rewrite bpow_IZR by lia. apply IZR_lt.
        assert (2 ^ Z.pos (digits2_pos m) <= 2 ^ 53) by (apply Z.pow_le_mono_r; lia).
        lia.
      - rewrite <- bpow_add. apply bpow_le. lia. }
    pose proof (Zfloor_bound (v + / 2)) as [Hfl1 Hfl2].
    assert (Hrange : - 2 ^ 53 < Zfloor (v + / 2) <= 0).
    { split.
      - apply lt_IZR. rewrite (bpow_IZR 52) in Hv1 by lia.
        apply Rle_lt_trans with (- IZR (2 ^ 52) - 1)%R.
        + rewrite opp_IZR. change (2 ^ 53) with 9007199254740992.
          change (2 ^ 52) with 4503599627370496. lra.
        + lra.
      - assert (Zfloor (v + / 2) < 1); [|lia].
        apply lt_IZR. lra. }
    destruct (Zfloor (v + / 2)) as [|p|p] eqn:Ek; try lia.
    + simpl. split; [exact I|reflexivity].
    + pose proof (binary_round_spec true p 0) as Hr.
      change (binary_normalize prec emax (Z.neg p) 0 true)
        with (binary_round prec emax true p 0).
      apply rounded_exact in Hr; [|lia|rewrite emin_eq; lia].
      rewrite bpow_0, Rmult_1_r in Hr.
      destruct (binary_round prec emax true p 0) as [s|s| |s m' e'];
        simpl in Hr; try contradiction.
      * exfalso. destruct Hr as [_ Hr]. apply eq_IZR in Hr. lia.
      * exfalso. destruct Hr as [_ Hr].
        assert (IZR (Z.pos p) < bpow 53)%R.
        { rewrite bpow_IZR by lia. apply IZR_lt. lia. }
        assert (bpow 53 <= bpow emax)%R by (apply bpow_le; rewrite emax_eq; lia). lra.
      * destruct Hr as (-> & Hb' & Hv').
        split; [exact Hb'|]. simpl. unfold F2R. simpl cond_Zopp.
        change (Z.neg m') with (- Z.pos m'). change (Z.neg p) with (- Z.pos p).
        rewrite !opp_IZR. lra.
Qed.

(** [Math.round] of a finite double is the integer [floor (x + 1/2)]. *)
Lemma round_spec x :
  finite x ->
  finite (round x) /\ SF2R (round x) = IZR (Zfloor (SF2R x + / 2)).
Proof.
  intros Hf. destruct x as [s| | |[] m e]; simpl in Hf; try contradiction.
  - split; [exact I|]. simpl. f_equal. symmetry. apply Zfloor_eq. simpl. lra.
  - now apply round_spec_neg.
  - destruct (round_spec_nn (S754_finite false m e) Hf Hf) as (_ & H1 & H2).
    exact (conj H1 H2).
Qed.

(** The three roundings of [calculateGST] on finite amounts and rates. *)
Lemma calculateGST_steps a r :
  finite a -> finite r -> finite (mul a r) ->
  rounds_to (SF2R a * SF2R r) (mul a r) /\
  rounds_to (SF2R (mul a r) / 100) (div (mul a r) (of_Z 100)) /\
  SF2R (calculateGST a r)
  = IZR (Zfloor (SF2R (div (mul a r) (of_Z 100)) + / 2)).
Proof.
  intros Ha Hr Hp.
  destruct hundred_value as [H100 V100].
  pose proof (mul_spec a r Ha Hr) as Hm.
  pose proof (div_spec_pos (mul a r) (of_Z 100) Hp H100) as Hd.
  rewrite V100 in Hd.
  assert (Hqf : finite (div (mul a r) (of_Z 100))).
  { apply (rounds_to_finite (SF2R (mul a r) / 100) _ (mul a r) Hp); [|exact Hd].
    unfold Rdiv. rewrite Rabs_mult. rewrite (Rabs_right (/ 100)) by lra.
    pose proof (Rabs_pos (SF2R (mul a r))). lra. }
  split; [exact Hm|]. split; [exact Hd|].
  unfold calculateGST.
  exact (proj2 (round_spec _ Hqf)).
Qed.

(** C10, amended: [calculateGST(amount, gstRatePercent)] is the formula
    [round(amount × gstRatePercent / 100)] evaluated in the arithmetic of
    the doubles: for a finite amount and a finite rate, of either sign,
    with a finite product, the product is rounded to the nearest double,
    its quotient by 100 is rounded to the nearest double again, and
    [Math.round] takes the integer nearest to that, halves up.  On whole
    amounts and rates that are not negative, with a product below 2^50,
    this is the exact quotient rounded half up.  There is no validation of
    the rate (a rate of 250 or of -5 is computed like any other), and
    [calculateGST(25000, 18) = 4500]. *)
Theorem calculateGST_rounds_each_step :
  (forall a r : number,
     is_finite a = true -> is_finite r = true ->
     is_finite (mul a r) = true ->
     rounds_to (SF2R a * SF2R r) (mul a r) /\
     rounds_to (SF2R (mul a r) / 100) (div (mul a r) (of_Z 100)) /\
     SF2R (calculateGST a r)
     = IZR (Zfloor (SF2R (div (mul a r) (of_Z 100)) + / 2))) /\
  (forall a r : Z,
     0 <= a < 2 ^ 53 -> 0 <= r < 2 ^ 53 -> a * r < 2 ^ 50 ->
     calculateGST (of_Z a) (of_Z r) = of_Z (calculateGST_spec a 1 r 1)) /\
  calculateGST (of_Z 25000) (of_Z 18) = of_Z 4500 /\
  calculateGST (of_Z 100) (of_Z 250) = of_Z 250 /\
  calculateGST (of_Z 100) (of_Z (-5)) = of_Z (-5).
Proof.
  split; [|split].
  - intros a r Ha Hr Hp.
    exact (calculateGST_steps a r (is_finite_finite a Ha) (is_finite_finite r Hr)
             (is_finite_finite _ Hp)).
  - intros a r Ha Hr Har. rewrite calculateGST_spec_whole.
    exact (calculateGST_whole a r Ha Hr Har).
  - vm_compute. repeat split.
Qed.

(** ** Further properties of the service and of its callers *)

(** X1: [calculateIncomeTax] returns 0 for every number that is not greater
    than 300000: the incomes of the zero-rate slab, the negative numbers,
    -Infinity and NaN. *)
Theorem zero_rate_band (x : number) :
  is_number x -> gtb x (of_Z 300000) = false -> calculateIncomeTax x = of_Z 0.
Proof. exact (calculateIncomeTax_low x). Qed.

Lemma zero_rate_band_witness :
  is_number (of_Z 250000) /\ gtb (of_Z 250000) (of_Z 300000) = false /\
  calculateIncomeTax (of_Z 250000) = of_Z 0.
Proof.
  assert (H1 : is_number (of_Z 250000)) by (vm_compute; reflexivity).
  assert (H2 : gtb (of_Z 250000) (of_Z 300000) = false) by (vm_compute; reflexivity).
  exact (conj H1 (conj H2 (zero_rate_band (of_Z 250000) H1 H2))).
Defined.

(** X2: for every number, NaN and the infinities included, the result of
    [calculateIncomeTax] is not NaN, is not negative, and is a whole number:
    [Math.round] leaves it unchanged. *)
Theorem calculateIncomeTax_whole_rupees (x : number) :
  is_number x ->
  is_nan (calculateIncomeTax x) = false /\
  leb (of_Z 0) (calculateIncomeTax x) = true /\
  round (calculateIncomeTax x) = calculateIncomeTax x.
Proof.
  intros Hx. pose proof (calculateIncomeTax_nonneg_all x Hx) as Hn.
  exact (conj (nonneg_not_nan _ Hn)
           (conj (nonneg_leb0 _ Hn) (calculateIncomeTax_whole_all x Hx))).
Qed.

Lemma calculateIncomeTax_whole_rupees_witness :
  is_number (decimal 12345678 10) /\
  round (calculateIncomeTax (decimal 12345678 10))
  = calculateIncomeTax (decimal 12345678 10).
Proof.
  assert (H1 : is_number (decimal 12345678 10)) by (vm_compute; reflexivity).
  exact (conj H1 (proj2 (proj2 (calculateIncomeTax_whole_rupees _ H1)))).
Defined.

(** X3: the tax never exceeds the taxable income: for every number
    [0 <= x <= 10^300], [calculateIncomeTax(x) <= x]. *)
Theorem tax_never_exceeds_income (x : number) :
  is_number x -> leb (of_Z 0) x = true -> leb x (of_Z (10 ^ 300)) = true ->
  leb (calculateIncomeTax x) x = true.
Proof.
  intros Hx H0 Hle.
  pose proof (number_nonneg x Hx H0) as Hn.
  destruct (below_1e300 x Hn Hle) as [Hf Hp].
  exact (proj2 (proj2 (tax_below_income x Hn Hf Hp))).
Qed.

Lemma tax_never_exceeds_income_witness :
  is_number (of_Z 850000) /\ leb (of_Z 0) (of_Z 850000) = true /\
  leb (of_Z 850000) (of_Z (10 ^ 300)) = true /\
  leb (calculateIncomeTax (of_Z 850000)) (of_Z 850000) = true.
Proof.
  assert (H1 : is_number (of_Z 850000)) by (vm_compute; reflexivity).
  assert (H2 : leb (of_Z 0) (of_Z 850000) = true) by (vm_compute; reflexivity).
  assert (H3 : leb (of_Z 850000) (of_Z (10 ^ 300)) = true) by (vm_compute; reflexivity).
  exact (conj H1 (conj H2 (conj H3 (tax_never_exceeds_income (of_Z 850000) H1 H2 H3)))).
Defined.

(** X4: a higher total income never lowers either tax: for numbers
    [0 <= a <= b] with [b] finite and the same [hasHealthInsurance], the
    [section44adaTax] and the [regularTax] of [calculateTax(a)] are at most
    those of [calculateTax(b)], all roundings included. *)
Theorem calculateTax_monotone (now now' : Date) (a b : number) (h : bool) :
  is_number a -> is_finite b = true ->
  leb (of_Z 0) a = true -> leb a b = true ->
  leb (section44adaTax (calculateTax now a h))
      (section44adaTax (calculateTax now' b h)) = true /\
  leb (regularTax (calculateTax now a h))
      (regularTax (calculateTax now' b h)) = true.
Proof.
  intros Ha Hb H0 Hab.
  pose proof (is_finite_finite b Hb) as Hbf.
  pose proof (le_nn_of_leb a b Ha (finite_number b Hbf) H0 Hab) as Hle.
  rewrite !section44adaTax_eq, !regularTax_eq.
  split.
  - destruct (calculateIncomeTax_mono _ _ (section44adaTaxableIncomeOf_mono a b Hle))
      as (_ & _ & H). exact H.
  - destruct (calculateIncomeTax_mono _ _ (regularTaxableIncomeOf_mono a b h Hle Hbf))
      as (_ & _ & H). exact H.
Qed.

Lemma calculateTax_monotone_witness :
  is_number (of_Z 900000) /\ is_finite (of_Z 1000000) = true /\
  leb (of_Z 0) (of_Z 900000) = true /\ leb (of_Z 900000) (of_Z 1000000) = true /\
  leb (regularTax (calculateTax april_2024 (of_Z 900000) false))
      (regularTax (calculateTax april_2024 (of_Z 1000000) false)) = true.
Proof.
  assert (H1 : is_number (of_Z 900000)) by (vm_compute; reflexivity).
  assert (H2 : is_finite (of_Z 1000000) = true) by (vm_compute; reflexivity).
  assert (H3 : leb (of_Z 0) (of_Z 900000) = true) by (vm_compute; reflexivity).
  assert (H4 : leb (of_Z 900000) (of_Z 1000000) = true) by (vm_compute; reflexivity).
  exact (conj H1 (conj H2 (conj H3 (conj H4
           (proj2 (calculateTax_monotone april_2024 april_2024
                     (of_Z 900000) (of_Z 1000000) false H1 H2 H3 H4)))))).
Defined.

(** X5: for every numeric total income, the regular tax with health insurance
    is at most the regular tax without it, and the Section 44ADA figures do
    not depend on [hasHealthInsurance]. *)
Theorem health_insurance_never_raises_tax (now : Date) (t : number) :
  is_number t ->
  let r0 := calculateTax now t false in
  let r1 := calculateTax now t true in
  leb (regularTax r1) (regularTax r0) = true /\
  section44adaTax r1 = section44adaTax r0 /\
  section44adaIncome r1 = section44adaIncome r0.
Proof.
  intros Ht r0 r1. subst r0 r1. split; [|split; reflexivity].
  rewrite !regularTax_eq. unfold regularTaxableIncomeOf.
  assert (HD : is_number standardDeduction) by (apply number_of_Z_small; lia).
  assert (Hy : is_number (sub (sub t (actualExpensesOf t)) standardDeduction)).
  { apply sub_number; [|exact HD]. apply sub_number; [exact Ht|].
    apply mul_number; [exact Ht|exact decimal_1_10_number]. }
  destruct (health_deduction_lowers _ Hy) as [[E1 E0]|Hle].
  - rewrite E1, E0. vm_compute. reflexivity.
  - destruct (calculateIncomeTax_mono _ _ Hle) as (_ & _ & H). exact H.
Qed.

Lemma health_insurance_never_raises_tax_witness :
  is_number (of_Z 1000000) /\
  leb (regularTax (calculateTax april_2024 (of_Z 1000000) true))
      (regularTax (calculateTax april_2024 (of_Z 1000000) false)) = true.
Proof.
  assert (H1 : is_number (of_Z 1000000)) by (vm_compute; reflexivity).
  exact (conj H1 (proj1 (health_insurance_never_raises_tax april_2024 (of_Z 1000000) H1))).
Defined.

(** X6: for every number [totalIncome <= 700000] (the negative ones
    included) [calculateTax] returns [section44adaTax = 0], recommends
    Section 44ADA, and all four amounts of the advance tax schedule are 0. *)
Theorem no_presumptive_tax_up_to_700000 (now : Date) (t : number) (h : bool) :
  is_number t -> leb t (of_Z 700000) = true ->
  let r := calculateTax now t h in
  section44adaTax r = of_Z 0 /\
  recommendedScheme r = section44ada /\
  map amount (advanceTaxSchedule r) = [of_Z 0; of_Z 0; of_Z 0; of_Z 0].
Proof.
  intros Ht Hle r. subst r.
  pose proof (section44adaTax_low t Ht Hle) as H0.
  destruct (taxes_nonneg now t h Ht) as [_ Hr].
  rewrite finalTax_eq, recommendedScheme_eq.
  rewrite section44adaTax_eq in *. rewrite regularTax_eq in *.
  rewrite H0. rewrite (nonneg_leb0 _ Hr).
  exact (conj eq_refl (conj eq_refl (schedule_zero now))).
Qed.

Lemma no_presumptive_tax_up_to_700000_witness :
  is_number (of_Z 650000) /\ leb (of_Z 650000) (of_Z 700000) = true /\
  section44adaTax (calculateTax april_2024 (of_Z 650000) true) = of_Z 0.
Proof.
  assert (H1 : is_number (of_Z 650000)) by (vm_compute; reflexivity).
  assert (H2 : leb (of_Z 650000) (of_Z 700000) = true) by (vm_compute; reflexivity).
  exact (conj H1 (conj H2
           (proj1 (no_presumptive_tax_up_to_700000 april_2024 (of_Z 650000) true H1 H2)))).
Defined.

(** X7: for a total income [0 <= t <= 10^300], the Section 44ADA tax is at most
    the presumptive income, which is at most [t], and the regular tax is at
    most the regular taxable income, which is at most [t]. *)
Theorem taxes_within_incomes (now : Date) (t : number) (h : bool) :
  is_number t -> leb (of_Z 0) t = true -> leb t (of_Z (10 ^ 300)) = true ->
  let r := calculateTax now t h in
  leb (section44adaTax r) (section44adaIncome r) = true /\
  leb (section44adaIncome r) t = true /\
  leb (regularTax r) (regularTaxableIncome r) = true /\
  leb (regularTaxableIncome r) t = true.
Proof.
  intros Ht H0 Hle r. subst r.
  pose proof (number_nonneg t Ht H0) as Hn.
  destruct (below_1e300 t Hn Hle) as [Hf Hp].
  rewrite section44adaTax_eq, regularTax_eq, regularTaxableIncome_eq.
  change (section44adaIncome (calculateTax now t h)) with (section44adaIncomeOf t).
  pose proof (section44adaIncomeOf_le t Hn) as Hi.
  pose proof (section44adaTaxableIncomeOf_le t Hn Hf) as Hti.
  pose proof (regularTaxableIncomeOf_le t h Hn Hf) as Hr.
  pose proof (le_nn_trans _ _ _ Hti Hi) as Hta.
  assert (Ta : le_nn (calculateIncomeTax (section44adaTaxableIncomeOf t))
                     (section44adaTaxableIncomeOf t)).
  { apply tax_below_income.
    - exact (proj1 Hta).
    - exact (proj1 (le_nn_finite _ _ Hta Hf)).
    - exact (le_nn_trans _ _ _ Hta Hp). }
  assert (Tr : le_nn (calculateIncomeTax (regularTaxableIncomeOf t h))
                     (regularTaxableIncomeOf t h)).
  { apply tax_below_income.
    - exact (proj1 Hr).
    - exact (proj1 (le_nn_finite _ _ Hr Hf)).
    - exact (le_nn_trans _ _ _ Hr Hp). }
  split; [exact (proj2 (proj2 (le_nn_trans _ _ _ Ta Hti)))|].
  split; [exact (proj2 (proj2 Hi))|].
  split; [exact (proj2 (proj2 Tr))|exact (proj2 (proj2 Hr))].
Qed.

Lemma taxes_within_incomes_witness :
  is_number (of_Z 1000000) /\ leb (of_Z 0) (of_Z 1000000) = true /\
  leb (of_Z 1000000) (of_Z (10 ^ 300)) = true /\
  leb (regularTax (calculateTax april_2024 (of_Z 1000000) false))
      (regularTaxableIncome (calculateTax april_2024 (of_Z 1000000) false)) = true.
Proof.
  assert (H1 : is_number (of_Z 1000000)) by (vm_compute; reflexivity).
  assert (H2 : leb (of_Z 0) (of_Z 1000000) = true) by (vm_compute; reflexivity).
  assert (H3 : leb (of_Z 1000000) (of_Z (10 ^ 300)) = true) by (vm_compute; reflexivity).
  exact (conj H1 (conj H2 (conj H3
    (proj1 (proj2 (proj2
       (taxes_within_incomes april_2024 (of_Z 1000000) false H1 H2 H3))))))).
Defined.



(** X9: for a total income [0 <= t <= 10^15] the results are exact whole
    numbers: the two taxes are integers [na <= nr], the savings are exactly
    [nr - na], and the schedule holds 15%, 45% and 75% of [na], each rounded
    half up, and [na] itself. *)
Theorem whole_rupee_results (now : Date) (t : number) (h : bool) :
  is_number t -> leb (of_Z 0) t = true -> leb t (of_Z (10 ^ 15)) = true ->
  let r := calculateTax now t h in
  exists na nr : Z,
    0 <= na <= nr /\ nr <= 10 ^ 15 /\
    section44adaTax r = of_Z na /\ regularTax r = of_Z nr /\
    savings r = of_Z (nr - na) /\
    map amount (advanceTaxSchedule r)
    = [of_Z ((15 * na + 50) / 100); of_Z ((45 * na + 50) / 100);
       of_Z ((75 * na + 50) / 100); of_Z na].
Proof.
  intros Ht H0 Hle r. subst r.
  destruct bound_1e15 as (HB & HBf & HBv & HBp).
  pose proof (number_nonneg t Ht H0) as Hn.
  assert (HtB : le_nn t (of_Z (10 ^ 15))) by exact (conj Hn (conj HB Hle)).
  destruct (le_nn_finite _ _ HtB HBf) as (Hf & _ & _).
  pose proof (le_nn_trans _ _ _ (section44adaTaxableIncomeOf_le t Hn Hf)
                (section44adaIncomeOf_le t Hn)) as Ha.
  pose proof (regularTaxableIncomeOf_le t h Hn Hf) as Hr.
  destruct (tax_is_integer _ (le_nn_trans _ _ _ Ha HtB)) as (na & Hna & Ea & Va).
  destruct (tax_is_integer _ (le_nn_trans _ _ _ Hr HtB)) as (nr & Hnr & Er & Vr).
  pose proof (calculateIncomeTax_mono _ _ (taxable_incomes_ordered t h Hn Hf)) as Hord.
  assert (Hle' : na <= nr).
  { destruct (Z_le_gt_dec na nr) as [?|Hgt]; [assumption|exfalso].
    rewrite Ea, Er in Hord.
    destruct (of_Z_value na ltac:(lia)) as (_ & Hfa & Eva).
    destruct (of_Z_value nr ltac:(lia)) as (_ & Hfr & Evr).
    destruct (le_nn_finite _ _ Hord Hfr) as (_ & _ & Hv).
    rewrite Eva, Evr in Hv. apply le_IZR in Hv. lia. }
  exists na, nr.
  rewrite finalTax_eq, savings_eq, section44adaTax_eq, regularTax_eq, Ea, Er.
  split; [lia|]. split; [lia|]. split; [reflexivity|]. split; [reflexivity|].
  split; [apply abs_sub_integers; lia|].
  rewrite Ea, Er in Hord. rewrite (proj2 (proj2 Hord)).
  rewrite schedule_amounts.
  assert (Hna' : 0 <= na <= 10 ^ 15) by lia.
  rewrite (share_15 na Hna'), (share_45 na Hna'), (share_75 na Hna'). reflexivity.
Qed.

Lemma whole_rupee_results_witness :
  is_number (of_Z 1000000) /\ leb (of_Z 0) (of_Z 1000000) = true /\
  leb (of_Z 1000000) (of_Z (10 ^ 15)) = true /\
  exists na nr : Z,
    savings (calculateTax april_2024 (of_Z 1000000) false) = of_Z (nr - na).
Proof.
  assert (H1 : is_number (of_Z 1000000)) by (vm_compute; reflexivity).
  assert (H2 : leb (of_Z 0) (of_Z 1000000) = true) by (vm_compute; reflexivity).
  assert (H3 : leb (of_Z 1000000) (of_Z (10 ^ 15)) = true) by (vm_compute; reflexivity).
  refine (conj H1 (conj H2 (conj H3 _))).
  destruct (whole_rupee_results april_2024 (of_Z 1000000) false H1 H2 H3)
    as (na & nr & _ & _ & _ & _ & E & _).
  exact (ex_intro _ na (ex_intro _ nr E)).
Defined.

(** X10: for a whole annual tax [n] with [0 <= n <= 10^15], the amounts of
    [calculateAdvanceTaxSchedule] are exactly 15%, 45% and 75% of [n], each
    rounded to the nearest integer with halves up, and [n]: the binary
    rounding of the percentages never moves an amount. *)
Theorem instalments_are_rounded_shares (now : Date) (n : Z) :
  0 <= n <= 10 ^ 15 ->
  map amount (calculateAdvanceTaxSchedule now (of_Z n))
  = [of_Z ((15 * n + 50) / 100); of_Z ((45 * n + 50) / 100);
     of_Z ((75 * n + 50) / 100); of_Z n].
Proof.
  intros Hn. rewrite schedule_amounts.
  rewrite (share_15 n Hn), (share_45 n Hn), (share_75 n Hn). reflexivity.
Qed.

Lemma instalments_are_rounded_shares_witness :
  0 <= 36400 <= 10 ^ 15 /\
  map amount (calculateAdvanceTaxSchedule april_2024 (of_Z 36400))
  = [of_Z 5460; of_Z 16380; of_Z 27300; of_Z 36400].
Proof.
  assert (H : 0 <= 36400 <= 10 ^ 15) by (vm_compute; split; discriminate).
  exact (conj H (instalments_are_rounded_shares april_2024 36400 H)).
Defined.

(** X11: every instalment of [calculateAdvanceTaxSchedule] is due on the 15th
    of a month that [getQuarterFromDate] places in the quarter of the
    instalment, in the financial year that starts in the calendar year of
    [now]; that is the financial year of [now] itself exactly when [now] is
    in April or later. *)
Theorem instalments_due_in_their_quarters (now : Date) (annualTax : number) :
  Forall (fun p =>
            exists y m : Z,
              dueDate p = (toString y ++ "-" ++ two_digits m ++ "-15")%string /\
              1 <= m <= 12 /\
              getQuarterFromDate {| getFullYear := y; getMonth := m - 1 |} = quarter p /\
              financialYearStart {| getFullYear := y; getMonth := m - 1 |}
              = getFullYear now /\
              (financialYearStart {| getFullYear := y; getMonth := m - 1 |}
               = financialYearStart now <-> 4 <= getMonth now + 1))
         (calculateAdvanceTaxSchedule now annualTax).
Proof.
  assert (Hfy : getFullYear now = financialYearStart now <-> 4 <= getMonth now + 1).
  { unfold financialYearStart.
    destruct (Z.leb_spec 4 (getMonth now + 1)); split; intros; lia. }
  unfold calculateAdvanceTaxSchedule. cbv zeta.
  repeat constructor; cbn [dueDate quarter].
  - exists (getFullYear now), 6. cbn. repeat split; lia.
  - exists (getFullYear now), 9. cbn. repeat split; lia.
  - exists (getFullYear now), 12. cbn. repeat split; lia.
  - exists (getFullYear now + 1), 3. cbn. repeat split; lia.
Qed.

(** X12: for a month from 0 to 11, [getQuarterFromDate] is between 1 and 4, it
    counts the quarters from April, [((month + 9) mod 12) / 3 + 1], and it
    is 4 exactly when the financial year of the date began in the previous
    calendar year. *)
Theorem quarter_of_financial_year (date : Date) :
  0 <= getMonth date <= 11 ->
  let q := getQuarterFromDate date in
  1 <= q <= 4 /\
  q = (getMonth date + 9) mod 12 / 3 + 1 /\
  (q = 4 <-> financialYearStart date = getFullYear date - 1).
Proof.
  intros Hm. cbv zeta. destruct date as [Y m]. cbn [getMonth getFullYear] in *.
  unfold getQuarterFromDate, financialYearStart. cbn [getMonth getFullYear].
  assert (H : m = 0 \/ m = 1 \/ m = 2 \/ m = 3 \/ m = 4 \/ m = 5 \/ m = 6 \/
              m = 7 \/ m = 8 \/ m = 9 \/ m = 10 \/ m = 11) by lia.
  repeat (destruct H as [->|H];
          [cbn; repeat split; try lia; try discriminate; intros; lia|]).
  subst m. cbn. repeat split; try lia; try discriminate; intros; lia.
Qed.

Lemma quarter_of_financial_year_witness :
  0 <= 1 <= 11 /\ getQuarterFromDate {| getFullYear := 2025; getMonth := 1 |} = 4.
Proof.
  assert (H : 0 <= getMonth {| getFullYear := 2025; getMonth := 1 |} <= 11)
    by (simpl; lia).
  refine (conj H _).
  exact (proj2 (proj2 (proj2 (quarter_of_financial_year
                                {| getFullYear := 2025; getMonth := 1 |} H)))
           eq_refl).
Defined.

(** X13: from the year 1 on, two dates get the same label from
    [getCurrentFinancialYear] exactly when they lie in the same financial
    year, from April to March. *)
Theorem financial_year_label_identifies_year (d1 d2 : Date) :
  1 <= getFullYear d1 -> 1 <= getFullYear d2 ->
  (getCurrentFinancialYear d1 = getCurrentFinancialYear d2 <->
   financialYearStart d1 = financialYearStart d2).
Proof.
  intros H1 H2. rewrite !getCurrentFinancialYear_label. split.
  - apply financialYearLabel_inj; unfold financialYearStart;
      [destruct (4 <=? getMonth d1 + 1)|destruct (4 <=? getMonth d2 + 1)]; lia.
  - intros ->. reflexivity.
Qed.

Lemma financial_year_label_identifies_year_witness :
  1 <= 2024 /\ 1 <= 2025 /\
  getCurrentFinancialYear {| getFullYear := 2024; getMonth := 11 |}
  = getCurrentFinancialYear {| getFullYear := 2025; getMonth := 0 |}.
Proof.
  assert (H1 : 1 <= getFullYear {| getFullYear := 2024; getMonth := 11 |})
    by (simpl; lia).
  assert (H2 : 1 <= getFullYear {| getFullYear := 2025; getMonth := 0 |})
    by (simpl; lia).
  exact (conj H1 (conj H2
    (proj2 (financial_year_label_identifies_year
              {| getFullYear := 2024; getMonth := 11 |}
              {| getFullYear := 2025; getMonth := 0 |} H1 H2) eq_refl))).
Defined.



(** X15: [calculateGST] returns NaN whenever the amount or the rate is NaN,
    and never for a finite amount and a finite rate. *)
Theorem calculateGST_nan_only_from_bad_input (a r : number) :
  (is_finite a = true -> is_finite r = true -> is_nan (calculateGST a r) = false) /\
  calculateGST NaN r = NaN /\ calculateGST a NaN = NaN.
Proof.
  split; [|split].
  - intros Ha Hr.
    exact (calculateGST_not_nan a r (is_finite_finite a Ha) (is_finite_finite r Hr)).
  - reflexivity.
  - unfold calculateGST. rewrite (mul_comm a NaN). reflexivity.
Qed.

(** X16: in the handler of POST /api/tax-calculations/calculate the total
    income is the sum of the parsed amounts; when these are numbers that are
    not negative and the total stays finite, further transactions never
    lower the total income or either tax of the calculation. *)
Theorem more_receipts_never_lower_tax
  (parseFloat : string -> number) (now : Date) (txs more : list Routes.Transaction) :
  Forall (fun x => is_number (parseFloat (Routes.amount x)) /\
                   leb (of_Z 0) (parseFloat (Routes.amount x)) = true) (txs ++ more) ->
  is_finite (Routes.totalIncomeOf parseFloat (txs ++ more)) = true ->
  let r := Routes.calculate parseFloat now txs in
  let r' := Routes.calculate parseFloat now (txs ++ more) in
  leb (totalIncome r) (totalIncome r') = true /\
  leb (section44adaTax r) (section44adaTax r') = true /\
  leb (regularTax r) (regularTax r') = true.
Proof.
  intros H Hfin r r'. subst r r'. unfold Routes.calculate, calculateTax_default.
  cbv zeta.
  pose proof (totalIncomeOf_grows parseFloat txs more H) as Hle.
  pose proof (is_finite_finite _ Hfin) as Hf.
  rewrite !section44adaTax_eq, !regularTax_eq.
  split; [exact (proj2 (proj2 Hle))|]. split.
  - exact (proj2 (proj2 (calculateIncomeTax_mono _ _
                           (section44adaTaxableIncomeOf_mono _ _ Hle)))).
  - exact (proj2 (proj2 (calculateIncomeTax_mono _ _
                           (regularTaxableIncomeOf_mono _ _ false Hle Hf)))).
Qed.

Lemma more_receipts_never_lower_tax_witness :
  Forall (fun x => is_number (Routes.parseFloat_digits (Routes.amount x)) /\
                   leb (of_Z 0) (Routes.parseFloat_digits (Routes.amount x)) = true)
         (Routes.receipts_december ++ Routes.receipts_january) /\
  is_finite (Routes.totalIncomeOf Routes.parseFloat_digits
               (Routes.receipts_december ++ Routes.receipts_january)) = true /\
  leb (regularTax (Routes.calculate Routes.parseFloat_digits Routes.february_2025
                     Routes.receipts_december))
      (regularTax (Routes.calculate Routes.parseFloat_digits Routes.february_2025
                     (Routes.receipts_december ++ Routes.receipts_january))) = true.
Proof.
  assert (H1 : Forall (fun x =>
                         is_number (Routes.parseFloat_digits (Routes.amount x)) /\
                         leb (of_Z 0) (Routes.parseFloat_digits (Routes.amount x)) = true)
                      (Routes.receipts_december ++ Routes.receipts_january)).
  { repeat constructor; vm_compute; reflexivity. }
  assert (H2 : is_finite (Routes.totalIncomeOf Routes.parseFloat_digits
                            (Routes.receipts_december ++ Routes.receipts_january)) = true)
    by (vm_compute; reflexivity).
  exact (conj H1 (conj H2
    (proj2 (proj2 (more_receipts_never_lower_tax Routes.parseFloat_digits
                     Routes.february_2025 Routes.receipts_december
                     Routes.receipts_january H1 H2))))).
Defined.

(** X17: the monthly income data of GET /api/dashboard has eight entries, and
    the entry of index [i] is 0 whenever [getMonth() - 7 + i] is negative,
    whatever the transactions, those with an invalid invoice date included:
    months before January of the current year are never counted. *)
Theorem monthly_income_before_january
  (parseFloat : string -> number) (now : Z -> Routes.Month)
  (txs : list Routes.Transaction) :
  List.length (Routes.monthlyIncome parseFloat now txs) = 8%nat /\
  forall i : nat,
    (i < 8)%nat -> Routes.monthIndex (now (Z.of_nat i)) - 7 + Z.of_nat i < 0 ->
    nth i (Routes.monthlyIncome parseFloat now txs) NaN = of_Z 0.
Proof.
  split; [reflexivity|].
  intros i Hi Hm. unfold Routes.monthlyIncome.
  do 8 (destruct i as [|i];
        [match type of Hm with
         | context [Z.of_nat ?k] =>
             let v := eval compute in (Z.of_nat k) in
             change (Z.of_nat k) with v in Hm
         end;
         cbn [nth map]; cbv zeta;
         rewrite filter_none;
         [reflexivity
         |intros x; apply no_month_before_january; [lia|exact Hm]]|]).
  lia.
Qed.

Lemma monthly_income_before_january_witness :
  (5 < 8)%nat /\ Routes.monthIndex Routes.February - 7 + Z.of_nat 5 < 0 /\
  nth 5 (Routes.monthlyIncome Routes.parseFloat_digits (fun _ => Routes.February)
           (Routes.receipts_december ++ Routes.receipts_undated)) NaN
  = of_Z 0.
Proof.
  assert (H2 : (5 < 8)%nat) by lia.
  assert (H3 : Routes.monthIndex Routes.February - 7 + Z.of_nat 5 < 0)
    by (simpl; lia).
  exact (conj H2 (conj H3
    (proj2 (monthly_income_before_january Routes.parseFloat_digits
              (fun _ => Routes.February)
              (Routes.receipts_december ++ Routes.receipts_undated))
           5%nat H2 H3))).
Defined.
